(** * Citation pipeline of the CSV-to-APA tool (src/App.tsx)

    A shallow embedding of the data-normalisation, validation and
    result-assembly code of [App.tsx], followed by the properties proved
    about it.

    Conventions of the embedding.
    - A JavaScript string is a Rocq [string] holding its UTF-8 encoding.
      [String.prototype.length] counts UTF-16 code units and is modelled by
      [js_length]; the white-space set of [trim] and of the regular expression
      class [\s] is the ECMAScript one, given by code point.
    - [toLowerCase] is modelled on the ASCII letters; other bytes are kept.
    - A value that can be [undefined] is an [option]; [truthy] is the
      JavaScript truth test restricted to such values.
    - A CSV row, a plain object used as a map from header to cell, is a
      [gmap string string].
    - Exceptions are values of type [exn]; code inside [try] runs in the
      error monad [exn + _].
    - [addDebugInfo] and the intermediate [updateStatus] calls only feed the
      debug panel; the embedding keeps the final status message and leaves
      the debug log out. *)

From Stdlib Require Import ZArith Lia Bool Ascii.
From stdpp Require Import base option list strings gmap pretty.

Open Scope string_scope.

(** ** JavaScript strings *)

Module Js.

(** *** Encoding of code points *)

Definition byte (n : N) : ascii := ascii_of_N n.

Definition utf8 (cp : N) : string :=
  if (cp <? 128)%N then String (byte cp) ""
  else if (cp <? 2048)%N then
    String (byte (192 + cp / 64)) (String (byte (128 + cp mod 64)) "")
  else if (cp <? 65536)%N then
    String (byte (224 + cp / 4096))
      (String (byte (128 + (cp / 64) mod 64)) (String (byte (128 + cp mod 64)) ""))
  else
    String (byte (240 + cp / 262144))
      (String (byte (128 + (cp / 4096) mod 64))
        (String (byte (128 + (cp / 64) mod 64)) (String (byte (128 + cp mod 64)) ""))).

(** ECMAScript WhiteSpace and LineTerminator code points: what [trim] removes
    and what [\s] matches. *)
Definition white_space_code_points : list N :=
  [ 9; 10; 11; 12; 13; 32; 160; 5760;
    8192; 8193; 8194; 8195; 8196; 8197; 8198; 8199; 8200; 8201; 8202;
    8232; 8233; 8239; 8287; 12288; 65279 ]%N.

Definition white_space : list string := utf8 <$> white_space_code_points.

Definition digits : list string :=
  ["0"; "1"; "2"; "3"; "4"; "5"; "6"; "7"; "8"; "9"].

(** *** Prefixes and searching *)

(** [strip_prefix p s] is [Some r] when [s = p ++ r]. *)
Fixpoint strip_prefix (p s : string) : option string :=
  match p, s with
  | "", _ => Some s
  | String a p', String b s' => if decide (a = b) then strip_prefix p' s' else None
  | String _ _, "" => None
  end.

Definition startsWith (s p : string) : bool := bool_decide (is_Some (strip_prefix p s)).

Fixpoint includes (s sub : string) : bool :=
  match strip_prefix sub s with
  | Some _ => true
  | None => match s with
            | "" => false
            | String _ s' => includes s' sub
            end
  end.

(** First token of [toks] that starts [s], with the rest of [s]. *)
Fixpoint strip_token (toks : list string) (s : string) : option string :=
  match toks with
  | [] => None
  | t :: toks' =>
      match strip_prefix t s with
      | Some r => Some r
      | None => strip_token toks' s
      end
  end.

(** *** trim *)

Fixpoint trimStart_go (fuel : nat) (s : string) : string :=
  match fuel with
  | 0 => s
  | S fuel' =>
      match strip_token white_space s with
      | Some r => trimStart_go fuel' r
      | None => s
      end
  end.

Definition trimStart (s : string) : string := trimStart_go (String.length s) s.

Definition rev_white_space : list string := String.rev <$> white_space.

Fixpoint trimEnd_go (fuel : nat) (r : string) : string :=
  match fuel with
  | 0 => r
  | S fuel' =>
      match strip_token rev_white_space r with
      | Some r' => trimEnd_go fuel' r'
      | None => r
      end
  end.

Definition trimEnd (s : string) : string :=
  String.rev (trimEnd_go (String.length s) (String.rev s)).

Definition trim (s : string) : string := trimEnd (trimStart s).

(** *** Case *)

Definition lower_ascii (c : ascii) : ascii :=
  let n := N_of_ascii c in
  if ((65 <=? n) && (n <=? 90))%N then ascii_of_N (n + 32) else c.

Definition upper_ascii (c : ascii) : ascii :=
  let n := N_of_ascii c in
  if ((97 <=? n) && (n <=? 122))%N then ascii_of_N (n - 32) else c.

Fixpoint map_string (f : ascii → ascii) (s : string) : string :=
  match s with
  | "" => ""
  | String c s' => String (f c) (map_string f s')
  end.

Definition toLowerCase (s : string) : string := map_string lower_ascii s.

(** *** length (in UTF-16 code units) *)

Definition code_units (c : ascii) : nat :=
  let n := N_of_ascii c in
  if (n <? 128)%N then 1
  else if (n <? 192)%N then 0
  else if (n <? 240)%N then 1
  else 2.

Fixpoint js_length (s : string) : nat :=
  match s with
  | "" => 0
  | String c s' => code_units c + js_length s'
  end.

(** *** split and join *)

(** [split_go sep skip cur s]: [skip] bytes of a separator just found are
    still to be passed over; [cur] is the piece being read. *)
Fixpoint split_go (sep : string) (skip : nat) (cur : string) (s : string) : list string :=
  match s with
  | "" => [cur]
  | String c s' =>
      match skip with
      | S n => split_go sep n cur s'
      | 0 =>
          if startsWith s sep
          then cur :: split_go sep (String.length sep - 1) "" s'
          else split_go sep 0 (cur +:+ String c "") s'
      end
  end.

(** [s.split(sep)] for a non-empty separator. *)
Definition split (s sep : string) : list string := split_go sep 0 "" s.

(** [s.split(sep, limit)]: the first [limit] pieces of [s.split(sep)]. *)
Definition split_limit (s sep : string) (limit : nat) : list string :=
  take limit (split s sep).

Fixpoint join (l : list string) (sep : string) : string :=
  match l with
  | [] => ""
  | [x] => x
  | x :: l' => x +:+ sep +:+ join l' sep
  end.

(** *** Arrays *)

(** [l.find(P)]: the first element that satisfies [P], if any. *)
Definition find {A} (P : A → Prop) `{∀ x, Decision (P x)} (l : list A) : option A :=
  snd <$> list_find P l.

(** [l.findIndex(P)]: its index; [None] stands for [-1]. *)
Definition findIndex {A} (P : A → Prop) `{∀ x, Decision (P x)} (l : list A) : option nat :=
  fst <$> list_find P l.

(** *** Truthiness of an optional string and the [||] chain *)

Definition truthy (v : option string) : bool :=
  match v with
  | Some s => negb (bool_decide (s = ""))
  | None => false
  end.

(** [a || b] on optional strings. *)
Definition or_else (a b : option string) : option string :=
  if truthy a then a else b.

End Js.

Import Js.

(** ** Regular expressions

    The fragment of ECMAScript regular expressions the program uses:
    literals, character classes, concatenation, the greedy quantifiers [?],
    [*] and [+], capture groups and the anchors [^] and [$], matched by
    backtracking as the language prescribes. No capture group of the
    program sits under a quantifier. *)

Module Regex.

Inductive regex : Type :=
  | Lit (l : string)              (* the characters of [l], in sequence *)
  | Class (toks : list string)    (* one character of a class *)
  | Seq (r1 r2 : regex)
  | Opt (r : regex)               (* r? *)
  | Star (r : regex)              (* r* *)
  | Group (n : nat) (r : regex)   (* the n-th pair of parentheses *)
  | Bol                           (* ^ *)
  | Eol.                          (* $ *)

(** r+ *)
Definition Plus (r : regex) : regex := Seq r (Star r).

(** Flags and the length of the whole input (for [^]). *)
Record ctx : Type := { ignoreCase : bool; inputLength : nat }.

Definition canon (c : ctx) (a : ascii) : ascii :=
  if ignoreCase c then upper_ascii a else a.

Fixpoint strip_lit (c : ctx) (l s : string) : option string :=
  match l, s with
  | "", _ => Some s
  | String a l', String b s' =>
      if decide (canon c a = canon c b) then strip_lit c l' s' else None
  | String _ _, "" => None
  end.

(** The text consumed between the suffixes [s] and [s']. *)
Definition consumed (s s' : string) : string :=
  String.substring 0 (String.length s - String.length s') s.

Abbreviation captures := (gmap nat string).

Section matcher.
Context {R : Type} (c : ctx).

Definition or_try (a : option R) (b : option R) : option R :=
  match a with Some x => Some x | None => b end.

(** The loop of [r*], greedy: one more turn of [step] if it consumes
    something and the rest then matches, else straight to the continuation.
    Every turn consumes at least one byte, so [fuel] bounds the turns when it
    starts at the length of the input. *)
Fixpoint iterate (step : string → captures → (string → captures → option R) → option R)
    (k : string → captures → option R) (fuel : nat) (s : string) (caps : captures)
    : option R :=
  match fuel with
  | 0 => k s caps
  | S fuel' =>
      or_try
        (step s caps (λ s' caps',
           if decide (String.length s' < String.length s)
           then iterate step k fuel' s' caps' else None))
        (k s caps)
  end.

(** [m r s caps k]: match [r] at the head of [s], then hand the rest of the
    input and the captures to the continuation [k]; [None] is failure and
    makes the caller backtrack. *)
Fixpoint m (r : regex) (s : string) (caps : captures)
    (k : string → captures → option R) {struct r} : option R :=
  match r with
  | Lit l =>
      match strip_lit c l s with
      | Some s' => k s' caps
      | None => None
      end
  | Class toks =>
      foldr (λ t rest,
               or_try (match strip_prefix t s with
                       | Some s' => k s' caps
                       | None => None
                       end) rest) None toks
  | Seq r1 r2 => m r1 s caps (λ s' caps', m r2 s' caps' k)
  | Opt r1 => or_try (m r1 s caps k) (k s caps)
  | Star r1 => iterate (m r1) k (String.length s) s caps
  | Group n r1 =>
      m r1 s caps (λ s' caps', k s' (<[n := consumed s s']> caps'))
  | Bol => if decide (String.length s = inputLength c) then k s caps else None
  | Eol => if decide (s = "") then k s caps else None
  end.
End matcher.

(** What it means for [r] to match between two suffixes of the input,
    taking the captures [caps] to [caps']. *)
Inductive Matches (c : ctx) : regex → string → captures → string → captures → Prop :=
  | Matches_Lit l s s' caps :
      strip_lit c l s = Some s' → Matches c (Lit l) s caps s' caps
  | Matches_Class toks t s s' caps :
      t ∈ toks → strip_prefix t s = Some s' → Matches c (Class toks) s caps s' caps
  | Matches_Seq r1 r2 s s1 s2 caps caps1 caps2 :
      Matches c r1 s caps s1 caps1 → Matches c r2 s1 caps1 s2 caps2 →
      Matches c (Seq r1 r2) s caps s2 caps2
  | Matches_Opt_some r s s' caps caps' :
      Matches c r s caps s' caps' → Matches c (Opt r) s caps s' caps'
  | Matches_Opt_none r s caps : Matches c (Opt r) s caps s caps
  | Matches_Star_nil r s caps : Matches c (Star r) s caps s caps
  | Matches_Star_cons r s s1 s2 caps caps1 caps2 :
      Matches c r s caps s1 caps1 → String.length s1 < String.length s →
      Matches c (Star r) s1 caps1 s2 caps2 →
      Matches c (Star r) s caps s2 caps2
  | Matches_Group n r s s' caps caps' :
      Matches c r s caps s' caps' →
      Matches c (Group n r) s caps s' (<[n := consumed s s']> caps')
  | Matches_Bol s caps :
      String.length s = inputLength c → Matches c Bol s caps s caps
  | Matches_Eol caps : Matches c Eol "" caps "" caps.

(** The result of [RegExp.prototype.exec]: where the match starts, the text
    matched and the capture groups that took part. *)
Record match_result : Type := {
  index : nat;
  matched : string;
  groups : captures
}.

Definition match_at (c : ctx) (r : regex) (i : nat) (s : string) : option match_result :=
  m c r s ∅ (λ s' caps, Some {| index := i; matched := consumed s s'; groups := caps |}).

(** Leftmost match: the start positions are tried from the left. *)
Fixpoint search (c : ctx) (r : regex) (i : nat) (s : string) : option match_result :=
  match match_at c r i s with
  | Some res => Some res
  | None =>
      match s with
      | "" => None
      | String _ s' => search c r (S i) s'
      end
  end.

Record regexp : Type := { source : regex; flag_i : bool }.

Definition exec (re : regexp) (s : string) : option match_result :=
  search {| ignoreCase := flag_i re; inputLength := String.length s |} (source re) 0 s.

Definition test (re : regexp) (s : string) : bool := bool_decide (is_Some (exec re s)).

(** [s.replace(re, by)] for a regular expression without the [g] flag and a
    replacement text without [$] patterns. *)
Definition replace (s : string) (re : regexp) (by_ : string) : string :=
  match exec re s with
  | None => s
  | Some res =>
      String.substring 0 (index res) s +:+ by_ +:+
      String.substring (index res + String.length (matched res))
        (String.length s - (index res + String.length (matched res))) s
  end.

(** [s.replace(re, by)] for a regular expression with the [g] flag: every
    match, from left to right, the search resuming behind the last one (one
    character further after an empty match). *)
Fixpoint replace_all_go (c : ctx) (r : regex) (by_ : string) (fuel : nat) (s : string) : string :=
  match fuel with
  | 0 => s
  | S fuel' =>
      match search c r 0 s with
      | None => s
      | Some res =>
          let before := String.substring 0 (index res) s in
          let rest :=
            String.substring (index res + String.length (matched res))
              (String.length s - (index res + String.length (matched res))) s in
          if decide (matched res = "") then
            match rest with
            | "" => before +:+ by_
            | String a rest' => before +:+ by_ +:+ String a (replace_all_go c r by_ fuel' rest')
            end
          else before +:+ by_ +:+ replace_all_go c r by_ fuel' rest
      end
  end.

Definition replace_all (s : string) (re : regexp) (by_ : string) : string :=
  replace_all_go {| ignoreCase := flag_i re; inputLength := String.length s |}
    (source re) by_ (S (String.length s)) s.

Definition digit : regex := Class digits.
Definition space : regex := Class white_space.

End Regex.

Import Regex.

(** ** Values, exceptions and the error monad *)

(** The JavaScript values the code tests with [typeof] and [!]. An [VObj] is
    any object or function, named for reference. *)
Inductive value : Type :=
  | VUndefined
  | VNull
  | VBool (b : bool)
  | VNum (z : Z)
  | VStr (s : string)
  | VObj (name : string).

Global Instance value_eq_dec : EqDecision value.
Proof. solve_decision. Defined.

Definition of_cell (c : option string) : value :=
  match c with
  | Some s => VStr s
  | None => VUndefined
  end.

(** A thrown value: an [Error] object with its [name] and [message], or
    anything else, kept as its string conversion (a value that has none,
    such as a symbol, is not represented). *)
Inductive exn : Type :=
  | ErrorObj (name message : string)
  | Thrown (text : string).

Definition Error (message : string) : exn := ErrorObj "Error" message.

(** [`${e}`] *)
Definition exn_to_string (e : exn) : string :=
  match e with
  | ErrorObj name message =>
      if decide (message = "") then name
      else if decide (name = "") then message
      else name +:+ ": " +:+ message
  | Thrown text => text
  end.

(** Code that may throw: the error monad over [exn]. *)
Definition throws : Type → Type := sum exn.

Definition throw {A} (e : exn) : throws A := inl e.

Global Instance throws_ret : MRet throws := λ A x, inr x.
Global Instance throws_bind : MBind throws := λ A B f x,
  match x with
  | inl e => inl e
  | inr a => f a
  end.

(** [try { x } catch (e) { handler e }] *)
Definition try_catch {A} (x : throws A) (handler : exn → throws A) : throws A :=
  match x with
  | inl e => handler e
  | inr a => inr a
  end.

(** ** Data model *)

Inductive name_entry : Type :=
  | FamilyGiven (family given : string)
  | Literal (literal : string).

Global Instance name_entry_eq_dec : EqDecision name_entry.
Proof. solve_decision. Defined.

Record CslItem : Type := {
  id : string;
  type : value;
  title : option string;
  author : option (list name_entry);
  issued : option (list (list Z));
  container_title : option string;
  volume : option string;
  issue : option string;
  page : option string;
  DOI : option string;
  URL : option string;
  publisher : option string
}.

Global Instance CslItem_eq_dec : EqDecision CslItem.
Proof. solve_decision. Defined.

Abbreviation CsvRow := (gmap string string).

Record GenerationResult : Type := {
  success : bool;
  citations : list string;
  errors : list string;
  warnings : list string;
  csvData : list CsvRow
}.

(** Assignments to the optional fields of an item. *)
Definition set_title v i := {| id := id i; type := type i; title := Some v; author := author i; issued := issued i; container_title := container_title i; volume := volume i; issue := issue i; page := page i; DOI := DOI i; URL := URL i; publisher := publisher i |}.
Definition set_author v i := {| id := id i; type := type i; title := title i; author := Some v; issued := issued i; container_title := container_title i; volume := volume i; issue := issue i; page := page i; DOI := DOI i; URL := URL i; publisher := publisher i |}.
Definition set_issued v i := {| id := id i; type := type i; title := title i; author := author i; issued := Some v; container_title := container_title i; volume := volume i; issue := issue i; page := page i; DOI := DOI i; URL := URL i; publisher := publisher i |}.
Definition set_container_title v i := {| id := id i; type := type i; title := title i; author := author i; issued := issued i; container_title := Some v; volume := volume i; issue := issue i; page := page i; DOI := DOI i; URL := URL i; publisher := publisher i |}.
Definition set_volume v i := {| id := id i; type := type i; title := title i; author := author i; issued := issued i; container_title := container_title i; volume := Some v; issue := issue i; page := page i; DOI := DOI i; URL := URL i; publisher := publisher i |}.
Definition set_issue v i := {| id := id i; type := type i; title := title i; author := author i; issued := issued i; container_title := container_title i; volume := volume i; issue := Some v; page := page i; DOI := DOI i; URL := URL i; publisher := publisher i |}.
Definition set_page v i := {| id := id i; type := type i; title := title i; author := author i; issued := issued i; container_title := container_title i; volume := volume i; issue := issue i; page := Some v; DOI := DOI i; URL := URL i; publisher := publisher i |}.
Definition set_DOI v i := {| id := id i; type := type i; title := title i; author := author i; issued := issued i; container_title := container_title i; volume := volume i; issue := issue i; page := page i; DOI := Some v; URL := URL i; publisher := publisher i |}.
Definition set_URL v i := {| id := id i; type := type i; title := title i; author := author i; issued := issued i; container_title := container_title i; volume := volume i; issue := issue i; page := page i; DOI := DOI i; URL := Some v; publisher := publisher i |}.
Definition set_publisher v i := {| id := id i; type := type i; title := title i; author := author i; issued := issued i; container_title := container_title i; volume := volume i; issue := issue i; page := page i; DOI := DOI i; URL := URL i; publisher := Some v |}.

(** ** mapSourceType *)

(** The own properties of the object literal [mapping]. *)
Definition mapping : gmap string string :=
  list_to_map
    [ ("journal article", "article-journal");
      ("journal", "article-journal");
      ("article", "article-journal");
      ("news article", "article-newspaper");
      ("newspaper", "article-newspaper");
      ("magazine", "article-magazine");
      ("book", "book");
      ("book chapter", "chapter");
      ("chapter", "chapter");
      ("conference paper", "paper-conference");
      ("conference", "paper-conference");
      ("thesis", "thesis");
      ("dissertation", "thesis");
      ("report", "report");
      ("webpage", "webpage");
      ("website", "webpage");
      ("blog post", "post-weblog");
      ("blog", "post-weblog");
      ("review", "review") ].

(** [mapping] is an object literal, so reading [mapping[key]] falls through
    to [Object.prototype] when [key] is not an own property. These are the
    properties found there; each is a function or an object, hence truthy. *)
Definition object_prototype (key : string) : option value :=
  if decide (key = "constructor") then Some (VObj "Object")
  else if decide (key = "__proto__") then Some (VObj "Object.prototype")
  else if bool_decide (key ∈
            [ "toString"; "toLocaleString"; "valueOf"; "hasOwnProperty";
              "isPrototypeOf"; "propertyIsEnumerable";
              "__defineGetter__"; "__defineSetter__";
              "__lookupGetter__"; "__lookupSetter__" ])
       then Some (VObj ("Object.prototype." +:+ key))
  else None.

(** [mapping[key]] *)
Definition mapping_get (key : string) : option value :=
  match mapping !! key with
  | Some v => Some (VStr v)
  | None => object_prototype key
  end.

Definition mapSourceType (rawType : value) : value :=
  match rawType with
  | VStr raw =>
      if decide (raw = "") then VStr "article-journal"
      else
        let type := trim (toLowerCase raw) in
        match mapping_get type with
        | Some v => v
        | None => VStr "webpage"
        end
  | _ => VStr "article-journal"
  end.

(** ** parseAuthors *)

(** The body of the [for] loop: what one entry of [authorList] adds to
    [cslAuthors]. *)
Definition push_author (cslAuthors : list name_entry) (author : string) : list name_entry :=
  if decide (author = "") then cslAuthors
  else if includes author "," then
    let parts := trim <$> split_limit author "," 2 in
    match parts with
    | [p0; p1] =>
        if truthy (Some p0) && truthy (Some p1)
        then cslAuthors ++ [FamilyGiven p0 p1]
        else cslAuthors
    | _ => cslAuthors
    end
  else
    let parts := split author " " in
    if bool_decide (1 < length parts) && bool_decide (1 < js_length (default "" (head parts)))
    then cslAuthors ++ [FamilyGiven (default "" (last parts))
                                    (join (take (length parts - 1) parts) " ")]
    else cslAuthors ++ [Literal author].

Definition parseAuthors (authorCell : value) : list name_entry :=
  match authorCell with
  | VStr cell =>
      if decide (cell = "") then []
      else if decide (trim cell = "") then []
      else
        let authorStr := trim cell in
        let authorList :=
          if includes authorStr ";" then trim <$> split authorStr ";"
          else if includes authorStr " & " then trim <$> split authorStr " & "
          else if includes authorStr " and " then trim <$> split authorStr " and "
          else [authorStr] in
        foldl push_author [] authorList
  | _ => []
  end.

(** ** parseVolumeIssue *)

Definition dot : regex := Lit ".".
Definition capture_number (n : nat) : regex := Group n (Plus digit).

(** [/(\d+)\s*\(\s*(\d+)\s*\)/] *)
Definition pattern_paren : regexp :=
  {| source :=
       Seq (capture_number 1) (Seq (Star space) (Seq (Lit "(") (Seq (Star space)
         (Seq (capture_number 2) (Seq (Star space) (Lit ")"))))));
     flag_i := false |}.

(** [/vol\.?\s*(\d+)\s*no\.?\s*(\d+)/i] *)
Definition pattern_vol_no : regexp :=
  {| source :=
       Seq (Lit "vol") (Seq (Opt dot) (Seq (Star space) (Seq (capture_number 1)
         (Seq (Star space) (Seq (Lit "no") (Seq (Opt dot) (Seq (Star space)
           (capture_number 2))))))));
     flag_i := true |}.

(** [/v\.?\s*(\d+)\s*n\.?\s*(\d+)/i] *)
Definition pattern_v_n : regexp :=
  {| source :=
       Seq (Lit "v") (Seq (Opt dot) (Seq (Star space) (Seq (capture_number 1)
         (Seq (Star space) (Seq (Lit "n") (Seq (Opt dot) (Seq (Star space)
           (capture_number 2))))))));
     flag_i := true |}.

(** The class [[-–—]]: hyphen-minus, en dash U+2013, em dash U+2014. *)
Definition dashes : list string := ["-"; utf8 8211; utf8 8212].

(** [/(\d+)\s*[-–—]\s*(\d+)/] *)
Definition pattern_dash : regexp :=
  {| source :=
       Seq (capture_number 1) (Seq (Star space) (Seq (Class dashes) (Seq (Star space)
         (capture_number 2))));
     flag_i := false |}.

Definition patterns : list regexp :=
  [pattern_paren; pattern_vol_no; pattern_v_n; pattern_dash].

(** [/^\d+$/] *)
Definition all_digits : regexp :=
  {| source := Seq Bol (Seq (Plus digit) Eol); flag_i := false |}.

Record VolumeIssue : Type := { vi_volume : option string; vi_issue : option string }.

(** The [for] loop over [patterns]: the first pattern that matches returns. *)
Fixpoint first_match (ps : list regexp) (text : string) : option VolumeIssue :=
  match ps with
  | [] => None
  | pattern :: ps' =>
      match exec pattern text with
      | Some match_ =>
          Some {| vi_volume := groups match_ !! 1; vi_issue := groups match_ !! 2 |}
      | None => first_match ps' text
      end
  end.

Definition parseVolumeIssue (cell : value) : VolumeIssue :=
  match cell with
  | VStr c =>
      if decide (c = "") then {| vi_volume := None; vi_issue := None |}
      else
        let text := trim c in
        match first_match patterns text with
        | Some r => r
        | None =>
            if test all_digits text then {| vi_volume := Some text; vi_issue := None |}
            else {| vi_volume := None; vi_issue := None |}
        end
  | _ => {| vi_volume := None; vi_issue := None |}
  end.

(** ** createCslItem *)

Fixpoint take_digits (s : string) : string :=
  match s with
  | "" => ""
  | String c s' =>
      if bool_decide (String c "" ∈ digits) then String c (take_digits s') else ""
  end.

Definition digit_value (c : ascii) : Z := Z.of_N (N_of_ascii c) - 48.

Fixpoint digits_value (acc : Z) (s : string) : Z :=
  match s with
  | "" => acc
  | String c s' => digits_value (10 * acc + digit_value c) s'
  end.

(** [parseInt(s, 10)]; [None] is [NaN]. The result is kept as an integer:
    the rounding of a very long digit string to a double is not modelled. *)
Definition parseInt (s : string) : option Z :=
  let s := trimStart s in
  let '(sign, s) :=
    match s with
    | String "-" r => ((-1)%Z, r)
    | String "+" r => (1%Z, r)
    | _ => (1%Z, s)
    end in
  let ds := take_digits s in
  if decide (ds = "") then None else Some (sign * digits_value 0 ds)%Z.

(** The statements of [createCslItem], one per field, in source order. The
    function calls them in turn on the item under construction. *)

Definition new_item (row : CsvRow) (index : nat) : CslItem :=
  {| id := "item_" +:+ pretty (index + 1);
     type := mapSourceType
               (of_cell (or_else (or_else (row !! "Source Type") (row !! "type")) (Some "")));
     title := None; author := None; issued := None; container_title := None;
     volume := None; issue := None; page := None; DOI := None; URL := None;
     publisher := None |}.

Definition fill_title (row : CsvRow) (item : CslItem) : CslItem :=
  let t := or_else (row !! "Title") (row !! "title") in
  if truthy t then set_title (trim (default "" t)) item else item.

Definition fill_author (row : CsvRow) (item : CslItem) : CslItem :=
  let authors :=
    parseAuthors
      (of_cell (or_else (or_else (or_else (row !! "Author(s)") (row !! "Authors"))
                           (row !! "Author")) (row !! "author"))) in
  if bool_decide (0 < length authors) then set_author authors item else item.

Definition fill_issued (row : CsvRow) (item : CslItem) : CslItem :=
  let year :=
    or_else (or_else (or_else (row !! "Year") (row !! "Publication Year")) (row !! "Date"))
            (row !! "year") in
  if truthy year then
    match parseInt (default "" year) with
    | Some y => set_issued [[y]] item
    | None => item
    end
  else item.

Definition fill_container_title (row : CsvRow) (item : CslItem) : CslItem :=
  let containerTitle :=
    or_else (or_else (or_else (or_else (row !! "Journal") (row !! "Publication"))
                        (row !! "Container Title")) (row !! "Source"))
            (row !! "container-title") in
  if truthy containerTitle then set_container_title (trim (default "" containerTitle)) item
  else item.

Definition fill_volume_issue (row : CsvRow) (item : CslItem) : CslItem :=
  let volIss :=
    parseVolumeIssue
      (of_cell (or_else (or_else (or_else (row !! "Volume") (row !! "Volume-Issue"))
                           (row !! "volume")) (Some ""))) in
  let item :=
    if truthy (vi_volume volIss) then set_volume (default "" (vi_volume volIss)) item
    else item in
  if truthy (vi_issue volIss) then set_issue (default "" (vi_issue volIss)) item
  else
    let i := or_else (row !! "Issue") (row !! "issue") in
    if truthy i then set_issue (trim (default "" i)) item else item.

Definition fill_page (row : CsvRow) (item : CslItem) : CslItem :=
  let pages :=
    or_else (or_else (or_else (row !! "Pages") (row !! "Page Range")) (row !! "Page"))
            (row !! "page") in
  if truthy pages then set_page (trim (default "" pages)) item else item.

(** [/^https?:\/\/doi\.org\//] *)
Definition doi_prefix : regexp :=
  {| source := Seq Bol (Seq (Lit "http") (Seq (Opt (Lit "s")) (Lit "://doi.org/")));
     flag_i := false |}.

Definition fill_doi (row : CsvRow) (item : CslItem) : CslItem :=
  let doiField := or_else (or_else (row !! "DOI") (row !! "DOI/URL")) (row !! "doi") in
  if truthy doiField then
    let doi := trim (default "" doiField) in
    if startsWith doi "http" then
      if includes doi "doi.org/" then
        let doi := replace doi doi_prefix "" in
        set_DOI doi item
      else set_URL doi item
    else if startsWith doi "10." then set_DOI doi item
    else item
  else item.

Definition fill_url (row : CsvRow) (item : CslItem) : CslItem :=
  let url := or_else (row !! "URL") (row !! "url") in
  if truthy url && negb (truthy (DOI item)) && negb (truthy (URL item)) then
    if startsWith (trim (default "" url)) "http"
    then set_URL (trim (default "" url)) item
    else item
  else item.

Definition fill_publisher (row : CsvRow) (item : CslItem) : CslItem :=
  let p := or_else (row !! "Publisher") (row !! "publisher") in
  if truthy p then set_publisher (trim (default "" p)) item else item.

Definition createCslItem (row : CsvRow) (index : nat) : CslItem :=
  let item := new_item row index in
  let item := fill_title row item in
  let item := fill_author row item in
  let item := fill_issued row item in
  let item := fill_container_title row item in
  let item := fill_volume_issue row item in
  let item := fill_page row item in
  let item := fill_doi row item in
  let item := fill_url row item in
  let item := fill_publisher row item in
  item.

(** ** validateCslItems *)

(** [l.forEach((x, index) => ...)] threading the variables the callback
    assigns to. *)
Fixpoint forEach {A St : Type} (f : St → A → nat → St) (index : nat) (l : list A) (st : St) : St :=
  match l with
  | [] => st
  | x :: l' => forEach f (S index) l' (f st x index)
  end.

Record Validation : Type := { valid : list CslItem; verrors : list string }.

Definition missing_title_and_author (item : CslItem) : bool :=
  negb (truthy (title item)) && negb (bool_decide (is_Some (author item))).

Definition journal_without_name (item : CslItem) : bool :=
  bool_decide (type item = VStr "article-journal") && negb (truthy (container_title item)).

Definition validate_item (st : Validation) (item : CslItem) (index : nat) : Validation :=
  let itemErrors : list string := [] in
  let itemErrors : list string :=
    if missing_title_and_author item
    then (itemErrors ++ ["Item " +:+ pretty (index + 1) +:+ ": Missing both title and author"])%list
    else itemErrors in
  let itemErrors : list string :=
    if journal_without_name item
    then (itemErrors ++ ["Item " +:+ pretty (index + 1) +:+ ": Journal articles require a journal name"])%list
    else itemErrors in
  if decide (length itemErrors = 0)
  then {| valid := (valid st ++ [item])%list; verrors := verrors st |}
  else {| valid := valid st; verrors := (verrors st ++ itemErrors)%list |}.

Definition validateCslItems (items : list CslItem) : Validation :=
  forEach validate_item 0 items {| valid := []; verrors := [] |}.

(** ** The environment of a run

    What the browser, the network and the two external libraries contribute
    to one call of [handleGeneration]. *)

(** The citeproc library: [new CSLEngine.Engine(sys, style)], where [sys] is
    made of the two retrieval callbacks, then [updateItems] and
    [makeBibliography]. The second component of the bibliography, when it is
    an array, is what [makeBibliography] yields here. *)
Record EngineLib : Type := {
  engine : Type;
  Engine : (string → option CslItem) → string → string → throws engine;
  updateItems : engine → list string → throws engine;
  makeBibliography : engine → throws (option (list string))
}.

Record Response : Type := {
  ok : bool;
  statusText : string;
  text : throws string
}.

(** What [Papa.parse] reports to its callbacks. *)
Inductive PapaOutcome : Type :=
  | PapaComplete (data : list CsvRow) (errors : list string)
  | PapaError (message : string).

Record Env : Type := {
  gsheetUrl : string;
  csvFile : option (throws string);        (* the file picked, with its text *)
  cslFile : option (throws string);
  librariesLoaded : bool;
  fetch : string → throws Response;
  Papa : option (string → PapaOutcome);    (* window.Papa *)
  CSLEngine : option EngineLib;            (* window.CSL || window.citeproc || ... *)
  textContent : string → throws (option string);  (* text of a div holding the markup *)
  style_settles_first : bool               (* which rejection Promise.all reports *)
}.

Inductive StatusType : Type := info | success_ | error | warning.

Record AppState : Type := {
  result : option GenerationResult;
  status : string * StatusType;
  isLoading : bool
}.

(** ** generateCitations *)

(** [/\s+/g] *)
Definition spaces : regexp := {| source := Plus space; flag_i := false |}.

(** The callback of [bib[1].map]: the clean text of one fragment and the
    errors recorded so far. *)
Definition process_citation (env : Env) (acc : list string * list string)
    (citationHtml : string) (index : nat) : list string * list string :=
  let '(citations, errors) := acc in
  match textContent env citationHtml with
  | inr content =>
      let cleanText :=
        match content with
        | Some t => trim (replace_all t spaces " ")
        | None => ""
        end in
      ((citations ++ [cleanText])%list, errors)
  | inl citationError =>
      let errorMsg :=
        "Failed to process citation " +:+ pretty (index + 1) +:+ ": "
          +:+ exn_to_string citationError in
      ((citations ++ ["Error processing citation " +:+ pretty (index + 1)])%list,
       (errors ++ [errorMsg])%list)
  end.

Definition generateCitations (env : Env) (cslItems : list CslItem)
    (cslStyle locale : string) : list string * list string :=
  let errors : list string := [] in
  let body : throws (list string * list string) :=
    match CSLEngine env with
    | None => throw (Error "CSL library not loaded. Please refresh the page and try again.")
    | Some lib =>
        if bool_decide (cslStyle = "") || negb (includes cslStyle "<style")
        then throw (Error "Invalid CSL style: not a valid XML document")
        else
          let retrieveItem (id_ : string) : option CslItem :=
            find (λ item, id item = id_) cslItems in
          eng ← try_catch (Engine lib retrieveItem locale cslStyle)
                  (λ engineError,
                     throw (Error ("Failed to initialize citation engine: "
                                     +:+ exn_to_string engineError)));
          let itemIDs := id <$> cslItems in
          eng ← try_catch (updateItems lib eng itemIDs)
                  (λ updateError,
                     throw (Error ("Failed to update citation items: "
                                     +:+ exn_to_string updateError)));
          try_catch
            (bib ← makeBibliography lib eng;
             match bib with
             | Some ((_ :: _) as fragments) =>
                 mret (forEach (process_citation env) 0 fragments ([], errors))
             | _ => throw (Error "Bibliography generation returned empty result")
             end)
            (λ bibError,
               throw (Error ("Failed to generate bibliography: "
                               +:+ exn_to_string bibError)))
    end in
  match body with
  | inr r => r
  | inl error_ =>
      let errorMsg := "Citation generation failed: " +:+ exn_to_string error_ in
      ([], (errors ++ [errorMsg])%list)
  end.

(** ** Fetching and parsing the inputs *)

Definition id_chars : list string :=
  [ "a"; "b"; "c"; "d"; "e"; "f"; "g"; "h"; "i"; "j"; "k"; "l"; "m";
    "n"; "o"; "p"; "q"; "r"; "s"; "t"; "u"; "v"; "w"; "x"; "y"; "z";
    "A"; "B"; "C"; "D"; "E"; "F"; "G"; "H"; "I"; "J"; "K"; "L"; "M";
    "N"; "O"; "P"; "Q"; "R"; "S"; "T"; "U"; "V"; "W"; "X"; "Y"; "Z";
    "0"; "1"; "2"; "3"; "4"; "5"; "6"; "7"; "8"; "9"; "-"; "_" ].

(** [/\/d\/([a-zA-Z0-9-_]+)/] *)
Definition sheet_id : regexp :=
  {| source := Seq (Lit "/d/") (Group 1 (Plus (Class id_chars))); flag_i := false |}.

Definition buildCsvUrl (shareUrl : string) : throws string :=
  match exec sheet_id shareUrl with
  | Some match_ =>
      if truthy (groups match_ !! 1)
      then mret ("https://docs.google.com/spreadsheets/d/"
                   +:+ default "" (groups match_ !! 1) +:+ "/export?format=csv&gid=0")
      else throw (Error "Invalid Google Sheets URL format. Please ensure you're using a sharing URL.")
  | None =>
      throw (Error "Invalid Google Sheets URL format. Please ensure you're using a sharing URL.")
  end.

Definition parseCsv (env : Env) (csvText : string) : throws (list CsvRow) :=
  match Papa env with
  | None => throw (Error "CSV parsing library not loaded. Please refresh the page and try again.")
  | Some parse =>
      match parse csvText with
      | PapaComplete data [] => mret data
      | PapaComplete _ (message :: _) => throw (Error ("CSV Parsing Error: " +:+ message))
      | PapaError message => throw (Error ("CSV Parsing Failed: " +:+ message))
      end
  end.

Definition getCslStyle (env : Env) : throws string :=
  match cslFile env with
  | Some file => file
  | None =>
      response ← fetch env "https://raw.githubusercontent.com/citation-style-language/styles/master/apa.csl";
      if negb (ok response)
      then throw (Error ("Could not download APA CSL style: " +:+ statusText response))
      else text response
  end.

Definition fetchResource (env : Env) (url resourceName : string) : throws string :=
  response ← fetch env url;
  if negb (ok response)
  then throw (Error ("Could not download " +:+ resourceName +:+ ": " +:+ statusText response))
  else text response.

(** [await Promise.all([a, b])]: both have been started; when both reject,
    the one that settles first is reported. *)
Definition promise_all {A B} (first_wins : bool) (a : throws A) (b : throws B) : throws (A * B) :=
  match a, b with
  | inr x, inr y => mret (x, y)
  | inl e, inr _ => throw e
  | inr _, inl e => throw e
  | inl e1, inl e2 => throw (if first_wins then e1 else e2)
  end.

(** ** handleGeneration *)

Definition skipped_sentinel : string := "Skipped due to validation errors.".
Definition citation_fallback : string := "Error: Could not generate citation.".
Definition citation_column : string := "APA 7 Citation".

(** The callback of [jsonData.map] that builds [finalCsvData]. *)
Definition augment_row (cslItems validItems : list CslItem) (citations : list string)
    (row : CsvRow) (index : nat) : CsvRow :=
  let correspondingCslItem :=
    find (λ csl, id csl = "item_" +:+ pretty (index + 1)) cslItems in
  let validIndex :=
    findIndex (λ validItem, Some (id validItem) = id <$> correspondingCslItem) validItems in
  let citation := skipped_sentinel in
  let citation :=
    match validIndex with
    | Some vi =>
        if truthy (citations !! vi) then default "" (citations !! vi) else citation_fallback
    | None => citation
    end in
  <[citation_column := citation]> row.

(** The [warnings] of a run. *)
Definition skipped_warnings (cslItems validItems : list CslItem) : list string :=
  let warnings : list string := [] in
  if decide (length validItems < length cslItems)
  then (warnings ++ [pretty (length cslItems - length cslItems)
                       +:+ " items were skipped due to validation errors"])%list
  else warnings.

(** The inputs of the pipeline: the rows, the style and the locale. *)
Definition acquire (env : Env) : throws (list CsvRow * string * string) :=
  csvText ←
    (if negb (bool_decide (gsheetUrl env = "")) then
       csvUrl ← buildCsvUrl (gsheetUrl env);
       response ← fetch env csvUrl;
       if negb (ok response)
       then throw (Error ("Failed to fetch from Google Sheet: " +:+ statusText response))
       else text response
     else
       match csvFile env with
       | Some file => file
       | None => throw (Error "No data source provided")
       end);
  jsonData ← parseCsv env csvText;
  '(cslStyle, enLocale) ←
    promise_all (style_settles_first env) (getCslStyle env)
      (fetchResource env
         "https://raw.githubusercontent.com/citation-style-language/locales/master/locales-en-US.xml"
         "English locale");
  mret (jsonData, cslStyle, enLocale).

(** The body of the [try] block, up to the state it sets. *)
Definition generation (env : Env) : throws (GenerationResult * (string * StatusType)) :=
  '(jsonData, cslStyle, enLocale) ← acquire env;
  let cslItems := imap (λ index row, createCslItem row index) jsonData in
  let v := validateCslItems cslItems in
  let validItems := valid v in
  let validationErrors := verrors v in
  if decide (length validItems = 0)
  then throw (Error "No valid citation items found. Please check your data format.")
  else
    let '(citations, citationErrors) := generateCitations env validItems cslStyle enLocale in
    let allErrors := (validationErrors ++ citationErrors)%list in
    let warnings := skipped_warnings cslItems validItems in
    let finalCsvData := imap (λ index row, augment_row cslItems validItems citations row index) jsonData in
    mret ({| success := bool_decide (0 < length citations);
             citations := citations;
             errors := allErrors;
             warnings := warnings;
             csvData := finalCsvData |},
          if decide (0 < length citations)
          then ("Successfully generated " +:+ pretty (length citations) +:+ " citations.", success_)
          else ("Failed to generate any citations. Check debug information for details.", error)).

Definition handleGeneration (env : Env) (st : AppState) : AppState :=
  if bool_decide (gsheetUrl env = "") && bool_decide (csvFile env = None) then
    {| result := result st;
       status := ("Please provide a Google Sheet URL or upload a CSV file.", error);
       isLoading := isLoading st |}
  else if negb (librariesLoaded env) then
    {| result := result st;
       status := ("Citation libraries are still loading. Please wait a moment and try again.", error);
       isLoading := isLoading st |}
  else
    match generation env with
    | inr (res, st') => {| result := Some res; status := st'; isLoading := false |}
    | inl error_ =>
        let errorMessage :=
          match error_ with
          | ErrorObj _ message => message
          | Thrown _ => "Unknown error occurred"
          end in
        {| result := Some {| success := false; citations := []; errors := [errorMessage];
                             warnings := []; csvData := [] |};
           status := ("Error: " +:+ errorMessage, error);
           isLoading := false |}
    end.

(** ** The second copy of the component

    The repository holds a second, older copy of [App.tsx]. Its helper
    functions agree with the ones above (its [createCslItem] reads no
    lower-case aliases); in [handleGeneration] these two statements differ. *)

Module Older.

(** [warnings] *)
Definition skipped_warnings (cslItems validItems : list CslItem) : list string :=
  let warnings : list string := [] in
  if decide (length validItems < length cslItems)
  then (warnings ++ [pretty (length cslItems - length validItems)
                       +:+ " items were skipped due to validation errors"])%list
  else warnings.

(** The callback of [jsonData.map] that builds [finalCsvData]. *)
Definition augment_row (citations : list string) (row : CsvRow) (index : nat) : CsvRow :=
  let citation :=
    if truthy (citations !! index) then default "" (citations !! index) else citation_fallback in
  <[citation_column := citation]> row.

End Older.

(** * Specifications

    Definitions that follow the words of the specification, and the sample
    inputs used below. *)

(** An optional text field is lacking when it is absent or empty. *)
Definition lacks (field : option string) : Prop := field = None ∨ field = Some "".

Global Instance lacks_dec field : Decision (lacks field).
Proof. unfold lacks. apply _. Defined.

Definition no_title_no_author (item : CslItem) : Prop :=
  lacks (title item) ∧ author item = None.

Definition journal_lacks_container (item : CslItem) : Prop :=
  type item = VStr "article-journal" ∧ lacks (container_title item).

(** The validity rule of the data model. *)
Definition invalid (item : CslItem) : Prop :=
  no_title_no_author item ∨ journal_lacks_container item.

Global Instance invalid_dec item : Decision (invalid item).
Proof. unfold invalid, no_title_no_author, journal_lacks_container. apply _. Defined.

(** One message per violated rule, prefixed with the 1-based position. *)
Definition rule_errors (index : nat) (item : CslItem) : list string :=
  ((if decide (no_title_no_author item)
    then ["Item " +:+ pretty (index + 1) +:+ ": " +:+ "Missing both title and author"]
    else []) ++
   (if decide (journal_lacks_container item)
    then ["Item " +:+ pretty (index + 1) +:+ ": " +:+ "Journal articles require a journal name"]
    else []))%list.

(** The items built from the rows of a run. *)
Definition items_of (rows : list CsvRow) : list CslItem :=
  imap (λ index row, createCslItem row index) rows.

Definition no_valid_items_message : string :=
  "No valid citation items found. Please check your data format.".

(** Sample rows: a book with a title, and an empty row. *)
Definition row_book : CsvRow := {[ "Title" := "Walden"; "Source Type" := "Book" ]}.
Definition row_empty : CsvRow := ∅.

(** A sample run: an uploaded file parsed to [rows], resources that
    download, and a citation engine that yields [bib]. *)
Definition sample_engine (bib : throws (option (list string))) : EngineLib :=
  {| engine := unit;
     Engine := λ _ _ _, mret tt;
     updateItems := λ e _, mret e;
     makeBibliography := λ _, bib |}.

Definition sample_env (rows : list CsvRow) (bib : throws (option (list string))) : Env :=
  {| gsheetUrl := "";
     csvFile := Some (mret "csv");
     cslFile := None;
     librariesLoaded := true;
     fetch := λ _, mret {| ok := true; statusText := "OK"; text := mret "<style></style>" |};
     Papa := Some (λ _, PapaComplete rows []);
     CSLEngine := Some (sample_engine bib);
     textContent := λ html, mret (Some html);
     style_settles_first := true |}.

Definition initial_state : AppState :=
  {| result := None; status := ("", info); isLoading := false |}.

(** The citation column of a row whose item sits at position [j] of the
    valid items: the rendered text at that position, or the fallback text
    when there is none or it is empty. *)
Definition citation_or_fallback (citations : list string) (j : nat) : string :=
  match citations !! j with
  | Some c => if decide (c = "") then citation_fallback else c
  | None => citation_fallback
  end.

(** C1 as the specification words it, for a run over [rows] that yields
    [res]: a rejected row carries the sentinel, and an accepted row carries
    the rendered citation found at its item's position among the valid
    items. *)
Definition sentinel_or_rendered (rows : list CsvRow) (res : GenerationResult) : Prop :=
  ∀ i row, rows !! i = Some row →
    ∃ out, csvData res !! i = Some out
      ∧ (invalid (createCslItem row i) → out !! citation_column = Some skipped_sentinel)
      ∧ (¬ invalid (createCslItem row i) →
           ∃ j c, valid (validateCslItems (items_of rows)) !! j = Some (createCslItem row i)
                  ∧ citations res !! j = Some c
                  ∧ out !! citation_column = Some c).

(** C4 as the specification words it: the warnings of the run are the
    message about skipped items, with the count zero. *)
Definition warns_zero_skipped (res : GenerationResult) : Prop :=
  warnings res = ["0 items were skipped due to validation errors"].

(** C2 as the specification words it: as many rows out as in, each with
    its original columns and one column more. *)
Definition rows_kept_one_column_appended (rows : list CsvRow) (res : GenerationResult) : Prop :=
  length (csvData res) = length rows
  ∧ ∀ i row out, rows !! i = Some row → csvData res !! i = Some out →
      (∀ k v, row !! k = Some v → out !! k = Some v)
      ∧ size out = S (size row).

(** A row of a file this tool produced earlier: it has the citation column
    already. *)
Definition row_recycled : CsvRow :=
  {[ "Title" := "Walden"; "Source Type" := "Book"; "APA 7 Citation" := "Thoreau (1854)" ]}.

(** [cut_first c s]: the text before and the text after the first [c] of
    [s]; [cut_last c s]: the same around the last [c]. *)
Fixpoint cut_first (c : ascii) (s : string) : option (string * string) :=
  match s with
  | "" => None
  | String a s' =>
      if decide (c = a) then Some ("", s')
      else match cut_first c s' with
           | Some (before, after) => Some (String a before, after)
           | None => None
           end
  end.

Fixpoint cut_last (c : ascii) (s : string) : option (string * string) :=
  match s with
  | "" => None
  | String a s' =>
      match cut_last c s' with
      | Some (before, after) => Some (String a before, after)
      | None => if decide (c = a) then Some ("", s') else None
      end
  end.

(** The fragments of an author cell: its pieces around the delimiter in
    use, trimmed, the empty ones dropped. *)
Definition fragments (cell : string) : list string :=
  let authorStr := trim cell in
  let pieces :=
    if includes authorStr ";" then trim <$> split authorStr ";"
    else if includes authorStr " & " then trim <$> split authorStr " & "
    else if includes authorStr " and " then trim <$> split authorStr " and "
    else [authorStr] in
  filter (λ fragment, fragment ≠ "") pieces.

(** C6, amended: the entry of one fragment. With a comma: the text before
    the first comma and the text between the first comma and the second one
    (or the end). Without: the text after the last space character and the
    text before it, when the text before the first space character is longer
    than one code unit. *)
Definition entry_of (fragment : string) : list name_entry :=
  match cut_first "," fragment with
  | Some (a, rest) =>
      let b := match cut_first "," rest with
               | Some (b, _) => b
               | None => rest
               end in
      if decide (trim a ≠ "" ∧ trim b ≠ "") then [FamilyGiven (trim a) (trim b)] else []
  | None =>
      match cut_first " " fragment, cut_last " " fragment with
      | Some (first, _), Some (init, lst) =>
          if decide (1 < js_length first) then [FamilyGiven lst init] else [Literal fragment]
      | _, _ => [Literal fragment]
      end
  end.

Definition parseAuthors_spec (cell : string) : list name_entry :=
  fragments cell ≫= entry_of.

(** The tokens of a text: its maximal runs without white space. *)
Fixpoint ws_tokens_go (fuel : nat) (cur : string) (s : string) : list string :=
  match fuel with
  | 0 => []
  | S fuel' =>
      match s with
      | "" => if decide (cur = "") then [] else [cur]
      | String a s' =>
          match strip_token white_space s with
          | Some r => (if decide (cur = "") then [] else [cur]) ++ ws_tokens_go fuel' "" r
          | None => ws_tokens_go fuel' (cur +:+ String a "") s'
          end
      end
  end.

Definition ws_tokens (s : string) : list string := ws_tokens_go (S (String.length s)) "" s.

(** C6 as the specification words it: a fragment with a comma is split on
    its first comma only, into two parts; one without is split into its
    white-space tokens. *)
Definition entry_claimed (fragment : string) : list name_entry :=
  match cut_first "," fragment with
  | Some (a, b) =>
      if decide (trim a ≠ "" ∧ trim b ≠ "") then [FamilyGiven (trim a) (trim b)] else []
  | None =>
      let tokens := ws_tokens fragment in
      if decide ((2 ≤ length tokens)%nat ∧ 1 < js_length (default "" (head tokens)))
      then [FamilyGiven (default "" (last tokens))
                        (join (take (length tokens - 1) tokens) " ")]
      else [Literal fragment]
  end.

Definition parseAuthors_claimed (cell : string) : list name_entry :=
  fragments cell ≫= entry_claimed.

(** A tab character. *)
Definition tab : string := String (ascii_of_N 9) "".

(** The identifier of a row: the trimmed cell of its DOI column, when the
    cell is there and not empty. Likewise for its URL column. *)
Definition identifier (row : CsvRow) : option string :=
  let doiField := or_else (or_else (row !! "DOI") (row !! "DOI/URL")) (row !! "doi") in
  if truthy doiField then Some (trim (default "" doiField)) else None.

Definition url_column (row : CsvRow) : option string :=
  let url := or_else (row !! "URL") (row !! "url") in
  if truthy url then Some (trim (default "" url)) else None.

(** What the URL column contributes when it is honoured. *)
Definition from_url_column (row : CsvRow) : option string :=
  match url_column row with
  | Some u => if startsWith u "http" then Some u else None
  | None => None
  end.

(** [v] without a leading [https://doi.org/] or [http://doi.org/]. *)
Definition strip_doi_org (v : string) : string :=
  match strip_prefix "https://doi.org/" v with
  | Some r => r
  | None =>
      match strip_prefix "http://doi.org/" v with
      | Some r => r
      | None => v
      end
  end.

(** The raw source type once lower-cased and trimmed: the key looked up. *)
Definition normal_form (raw : string) : string := trim (toLowerCase raw).

(** C5 as the specification words it. *)
Definition source_type_claim (rawType : value) : value :=
  match rawType with
  | VStr raw =>
      if decide (raw = "") then VStr "article-journal"
      else match mapping !! normal_form raw with
           | Some t => VStr t
           | None => VStr "webpage"
           end
  | _ => VStr "article-journal"
  end.

Definition is_upper (c : ascii) : bool :=
  let n := N_of_ascii c in ((65 <=? n) && (n <=? 90))%N.

Fixpoint has_upper (s : string) : bool :=
  match s with
  | "" => false
  | String c s' => is_upper c || has_upper s'
  end.

(** [made_of toks w]: [w] is a sequence of characters of the class [toks]. *)
Inductive made_of (toks : list string) : string → Prop :=
  | made_of_nil : made_of toks ""
  | made_of_cons t w : t ∈ toks → made_of toks w → made_of toks (t +:+ w).

(** A number [N]: one digit or more. *)
Definition number (N : string) : Prop := N ≠ "" ∧ made_of digits N.

(** A run of white space, possibly empty. *)
Definition blank (w : string) : Prop := made_of white_space w.

(** Equal up to the case of ASCII letters. *)
Definition eq_ignore_case (a b : string) : Prop :=
  map_string upper_ascii a = map_string upper_ascii b.

(** An optional full stop. *)
Definition opt_dot (d : string) : Prop := d = "" ∨ d = ".".

(** The four notations of volume and issue, read at the head of [s] with
    [rest] left over. *)
Definition paren_shape (s N M rest : string) : Prop :=
  ∃ w1 w2 w3,
    s = N +:+ w1 +:+ "(" +:+ w2 +:+ M +:+ w3 +:+ ")" +:+ rest
    ∧ number N ∧ number M ∧ blank w1 ∧ blank w2 ∧ blank w3.

Definition vol_no_shape (vol no : string) (s N M rest : string) : Prop :=
  ∃ v d1 w1 w2 n d2 w3,
    s = v +:+ d1 +:+ w1 +:+ N +:+ w2 +:+ n +:+ d2 +:+ w3 +:+ M +:+ rest
    ∧ eq_ignore_case v vol ∧ eq_ignore_case n no
    ∧ opt_dot d1 ∧ opt_dot d2
    ∧ number N ∧ number M ∧ blank w1 ∧ blank w2 ∧ blank w3.

Definition dash_shape (s N M rest : string) : Prop :=
  ∃ w1 d w2,
    s = N +:+ w1 +:+ d +:+ w2 +:+ M +:+ rest
    ∧ d ∈ dashes ∧ number N ∧ number M ∧ blank w1 ∧ blank w2.

(** The source of [pattern_vol_no] and of [pattern_v_n], by their words. *)
Definition vol_no_source (vol no : string) : regex :=
  Seq (Lit vol) (Seq (Opt dot) (Seq (Star space) (Seq (capture_number 1)
    (Seq (Star space) (Seq (Lit no) (Seq (Opt dot) (Seq (Star space)
      (capture_number 2)))))))).

(** The flags and input length [exec] runs the matcher with. *)
Definition ctx_of (re : regexp) (text : string) : ctx :=
  {| ignoreCase := flag_i re; inputLength := String.length text |}.

(** The captures of a match of one of the patterns. *)
Definition volume_issue (N M : string) : captures := <[2 := M]> (<[1 := N]> ∅).

(** The notation a pattern of [patterns] stands for. *)
Definition shape (k : nat) (s N M rest : string) : Prop :=
  match k with
  | 0 => paren_shape s N M rest
  | 1 => vol_no_shape "vol" "no" s N M rest
  | 2 => vol_no_shape "v" "n" s N M rest
  | 3 => dash_shape s N M rest
  | _ => False
  end.

(** [text] holds the [k]-th notation somewhere, with the numbers [N] and [M]. *)
Definition reads (k : nat) (text N M : string) : Prop :=
  ∃ pre s rest, text = pre +:+ s ∧ shape k s N M rest.

Definition holds (k : nat) (text : string) : Prop := ∃ N M, reads k text N M.

(** [text] holds the [k]-th notation with the numbers [N] and [M] at the
    first place where it holds that notation at all, and [M] is a whole run
    of digits: where the notation ends with [M], no digit follows. This is
    the place and these are the numbers a regular expression finds: the
    leftmost match, each [\d+] taking all the digits it can. *)
Definition reads_first (k : nat) (text N M : string) : Prop :=
  ∃ pre s rest, text = pre +:+ s ∧ shape k s N M rest
    ∧ (k ≠ 0 → strip_token digits rest = None)
    ∧ ∀ p q, pre = p +:+ q → q ≠ "" → ¬ ∃ N' M' rest', shape k (q +:+ s) N' M' rest'.

(** A pattern whose matches, in front of the continuation [k0], end before
    a text that does not start with a digit. *)
Definition ends_whole {R} (c : ctx) (k0 : string → captures → option R) (r : regex) : Prop :=
  ∀ s caps x, m c r s caps k0 = Some x →
    ∃ s' caps', Matches c r s caps s' caps' ∧ k0 s' caps' = Some x
      ∧ strip_token digits s' = None.

(** The cells [createCslItem] reads, each through its aliases in order. *)
Definition source_type_cell (row : CsvRow) : option string :=
  or_else (or_else (row !! "Source Type") (row !! "type")) (Some "").

Definition title_cell (row : CsvRow) : option string :=
  or_else (row !! "Title") (row !! "title").

Definition author_cell (row : CsvRow) : option string :=
  or_else (or_else (or_else (row !! "Author(s)") (row !! "Authors")) (row !! "Author"))
          (row !! "author").

Definition container_cell (row : CsvRow) : option string :=
  or_else (or_else (or_else (or_else (row !! "Journal") (row !! "Publication"))
                      (row !! "Container Title")) (row !! "Source"))
          (row !! "container-title").

Definition volume_cell (row : CsvRow) : option string :=
  or_else (or_else (or_else (row !! "Volume") (row !! "Volume-Issue")) (row !! "volume"))
          (Some "").

Definition issue_cell (row : CsvRow) : option string :=
  or_else (row !! "Issue") (row !! "issue").

(** A cell that is missing, empty or blank once trimmed. *)
Definition blank_cell (cell : option string) : Prop :=
  truthy cell = false ∨ trim (default "" cell) = "".

(** What one fragment of the bibliography becomes: its text with runs of
    white space collapsed and the ends trimmed, or a placeholder when the
    text cannot be extracted, which also costs one error message. *)
Definition clean_text (content : option string) : string :=
  match content with
  | Some t => trim (replace_all t spaces " ")
  | None => ""
  end.

Definition rendered (env : Env) (index : nat) (citationHtml : string) : string :=
  match textContent env citationHtml with
  | inr content => clean_text content
  | inl _ => "Error processing citation " +:+ pretty (index + 1)
  end.

Definition rendering_errors (env : Env) (index : nat) (citationHtml : string) : list string :=
  match textContent env citationHtml with
  | inr _ => []
  | inl e => ["Failed to process citation " +:+ pretty (index + 1) +:+ ": "
                +:+ exn_to_string e]
  end.

(** The export address of the sheet named [sheet], and what it takes for
    a sharing address to name a sheet: a non-empty run of letters, digits,
    hyphens and underscores behind "/d/". *)
Definition export_url (sheet : string) : string :=
  "https://docs.google.com/spreadsheets/d/" +:+ sheet +:+ "/export?format=csv&gid=0".

Definition sheet_name (w : string) : Prop := w ≠ "" ∧ made_of id_chars w.

Definition names_sheet (shareUrl sheet : string) : Prop :=
  ∃ pre rest, shareUrl = pre +:+ "/d/" +:+ sheet +:+ rest ∧ sheet_name sheet.

Definition invalid_sheet_url : exn :=
  Error "Invalid Google Sheets URL format. Please ensure you're using a sharing URL.".

(** The same environment with another file picked (or none). *)
Definition with_csvFile (env : Env) (file : option (throws string)) : Env :=
  {| gsheetUrl := gsheetUrl env;
     csvFile := file;
     cslFile := cslFile env;
     librariesLoaded := librariesLoaded env;
     fetch := fetch env;
     Papa := Papa env;
     CSLEngine := CSLEngine env;
     textContent := textContent env;
     style_settles_first := style_settles_first env |}.

(** A sample run from a sheet address, with no file picked. *)
Definition sheet_env (rows : list CsvRow) (bib : throws (option (list string))) : Env :=
  {| gsheetUrl := "https://docs.google.com/spreadsheets/d/1aB-c_9/edit#gid=0";
     csvFile := None;
     cslFile := None;
     librariesLoaded := true;
     fetch := λ _, mret {| ok := true; statusText := "OK"; text := mret "<style></style>" |};
     Papa := Some (λ _, PapaComplete rows []);
     CSLEngine := Some (sample_engine bib);
     textContent := λ html, mret (Some html);
     style_settles_first := true |}.

(** An author entry none of whose names is empty. *)
Definition names_present (entry : name_entry) : Prop :=
  match entry with
  | FamilyGiven family given => family ≠ "" ∧ given ≠ ""
  | Literal literal => literal ≠ ""
  end.

(** The CSL types of the table of [mapSourceType], and the names it reads
    as a journal article. *)
Definition csl_types : list string :=
  [ "article-journal"; "article-newspaper"; "article-magazine"; "book"; "chapter";
    "paper-conference"; "thesis"; "report"; "webpage"; "post-weblog"; "review" ].

Definition journal_names : list string := [ "journal article"; "journal"; "article" ].

(** * Properties *)

(** ** Validation *)

Lemma truthy_lacks field : truthy field = false ↔ lacks field.
Proof.
  unfold lacks. destruct field as [s|]; simpl.
  - rewrite negb_false_iff, bool_decide_eq_true. split.
    + intros ->. by right.
    + intros [?|[= ->]]; done.
  - split; [by left|done].
Qed.

Lemma missing_title_and_author_spec item :
  missing_title_and_author item = true ↔ no_title_no_author item.
Proof.
  unfold missing_title_and_author, no_title_no_author.
  rewrite andb_true_iff, !negb_true_iff, truthy_lacks, bool_decide_eq_false.
  rewrite <- eq_None_not_Some. done.
Qed.

Lemma journal_without_name_spec item :
  journal_without_name item = true ↔ journal_lacks_container item.
Proof.
  unfold journal_without_name, journal_lacks_container.
  rewrite andb_true_iff, negb_true_iff, truthy_lacks, bool_decide_eq_true. done.
Qed.

(** One turn of the [forEach] callback, in terms of the rules. *)
Lemma validate_item_spec st item index :
  validate_item st item index =
  {| valid := valid st ++ filter (λ it, ¬ invalid it) [item];
     verrors := verrors st ++ rule_errors index item |}.
Proof.
  unfold validate_item, rule_errors.
  rewrite filter_cons, filter_nil.
  destruct (missing_title_and_author item) eqn:E1;
    destruct (journal_without_name item) eqn:E2;
    [ apply missing_title_and_author_spec in E1
    | apply missing_title_and_author_spec in E1
    | apply not_true_iff_false in E1; rewrite missing_title_and_author_spec in E1
    | apply not_true_iff_false in E1; rewrite missing_title_and_author_spec in E1 ];
    [ apply journal_without_name_spec in E2
    | apply not_true_iff_false in E2; rewrite journal_without_name_spec in E2
    | apply journal_without_name_spec in E2
    | apply not_true_iff_false in E2; rewrite journal_without_name_spec in E2 ].
  - rewrite (decide_True _ _ E1), (decide_True _ _ E2).
    destruct (decide (¬ invalid item)) as [Hv|Hv]; [unfold invalid in Hv; tauto|].
    simpl. by rewrite app_nil_r.
  - rewrite (decide_True _ _ E1), (decide_False _ _ E2).
    destruct (decide (¬ invalid item)) as [Hv|Hv]; [unfold invalid in Hv; tauto|].
    simpl. by rewrite app_nil_r.
  - rewrite (decide_False _ _ E1), (decide_True _ _ E2).
    destruct (decide (¬ invalid item)) as [Hv|Hv]; [unfold invalid in Hv; tauto|].
    simpl. by rewrite app_nil_r.
  - rewrite (decide_False _ _ E1), (decide_False _ _ E2).
    destruct (decide (¬ invalid item)) as [Hv|Hv]; [|unfold invalid in Hv; tauto].
    simpl. by rewrite app_nil_r.
Qed.

Lemma forEach_validate items : ∀ index st,
  forEach validate_item index items st =
  {| valid := valid st ++ filter (λ it, ¬ invalid it) items;
     verrors := verrors st ++ mjoin (imap (λ i, rule_errors (index + i)) items) |}.
Proof.
  induction items as [|item items IH]; intros index st; simpl.
  - rewrite !app_nil_r. by destruct st.
  - rewrite IH, validate_item_spec. simpl.
    rewrite Nat.add_0_r, <- !app_assoc. f_equal.
    + f_equal. by rewrite (filter_cons _ item items), filter_cons, filter_nil;
        case_decide.
    + do 3 f_equal. apply imap_ext. intros i x _. simpl. f_equal. lia.
Qed.

Lemma validateCslItems_valid items :
  valid (validateCslItems items) = filter (λ item, ¬ invalid item) items.
Proof. unfold validateCslItems. by rewrite forEach_validate. Qed.

Lemma validateCslItems_errors items :
  verrors (validateCslItems items) = mjoin (imap rule_errors items).
Proof. unfold validateCslItems. by rewrite forEach_validate. Qed.

(** C3. [validateCslItems] rejects an item exactly when it has neither
    title nor author, or is a journal article without a container title.
    The valid list is the accepted items in their original order, and the
    error list holds, item after item in the original order, one message for
    each rule the item violates, each starting with the item's 1-based
    position. *)
Theorem validateCslItems_spec (items : list CslItem) :
  valid (validateCslItems items) = filter (λ item, ¬ invalid item) items
  ∧ verrors (validateCslItems items) = mjoin (imap rule_errors items)
  ∧ (∀ item, item ∈ valid (validateCslItems items) ↔ item ∈ items ∧ ¬ invalid item)
  ∧ (∀ index item, items !! index = Some item →
       (rule_errors index item = [] ↔ ¬ invalid item)
       ∧ length (rule_errors index item) =
           (if decide (no_title_no_author item) then 1 else 0)
           + (if decide (journal_lacks_container item) then 1 else 0)
       ∧ ∀ e, e ∈ rule_errors index item →
           ∃ reason, e = "Item " +:+ pretty (index + 1) +:+ ": " +:+ reason).
Proof.
  split; [apply validateCslItems_valid|].
  split; [apply validateCslItems_errors|].
  split.
  - intros item. rewrite validateCslItems_valid, list_elem_of_filter. tauto.
  - intros index item _. split; [|split].
    + unfold rule_errors, invalid. repeat case_decide; simpl; split; try done; tauto.
    + unfold rule_errors. by repeat case_decide.
    + intros e He. unfold rule_errors in He. apply elem_of_app in He.
      destruct He as [He|He]; case_decide; try (by apply elem_of_nil in He);
        apply list_elem_of_singleton in He; subst e; eauto.
Qed.

Lemma validateCslItems_spec_witness :
  let items := [createCslItem row_book 0; createCslItem row_empty 1] in
  items !! 1 = Some (createCslItem row_empty 1)
  ∧ valid (validateCslItems items) = [createCslItem row_book 0]
  ∧ verrors (validateCslItems items) =
      ["Item 2: Missing both title and author";
       "Item 2: Journal articles require a journal name"]
  ∧ length (rule_errors 1 (createCslItem row_empty 1)) = 2.
Proof.
  intros items.
  destruct (validateCslItems_spec items) as (Hv & He & _ & Hr).
  destruct (Hr 1 (createCslItem row_empty 1) eq_refl) as (_ & Hlen & _).
  split; [reflexivity|]. split; [rewrite Hv; vm_compute; reflexivity|].
  split; [rewrite He; vm_compute; reflexivity|].
  rewrite Hlen. vm_compute. reflexivity.
Defined.

(** ** The run *)

Lemma acquire_source env x :
  acquire env = inr x → ¬ (gsheetUrl env = "" ∧ csvFile env = None).
Proof.
  intros Hacq [Hurl Hfile]. unfold acquire in Hacq.
  rewrite Hurl, Hfile in Hacq. discriminate Hacq.
Qed.

(** Past the two guards, [handleGeneration] runs the [try] block and stores
    what it yields, or the message of what it throws. *)
Lemma handleGeneration_acquired env st x :
  librariesLoaded env = true → acquire env = inr x →
  handleGeneration env st =
  match generation env with
  | inr (res, st') => {| result := Some res; status := st'; isLoading := false |}
  | inl e =>
      let errorMessage :=
        match e with ErrorObj _ message => message | Thrown _ => "Unknown error occurred" end in
      {| result := Some {| success := false; citations := []; errors := [errorMessage];
                           warnings := []; csvData := [] |};
         status := ("Error: " +:+ errorMessage, error);
         isLoading := false |}
  end.
Proof.
  intros Hlib Hacq. unfold handleGeneration. rewrite Hlib. simpl.
  destruct (bool_decide (gsheetUrl env = "") && bool_decide (csvFile env = None)) eqn:E;
    [|done].
  apply andb_true_iff in E as [E1%bool_decide_eq_true E2%bool_decide_eq_true].
  by destruct (acquire_source env x Hacq).
Qed.

(** The [try] block once the inputs are there. *)
Lemma generation_acquired env rows cslStyle enLocale :
  acquire env = inr (rows, cslStyle, enLocale) →
  generation env =
  let cslItems := items_of rows in
  let validItems := valid (validateCslItems cslItems) in
  if decide (length validItems = 0) then throw (Error no_valid_items_message)
  else
    let gen := generateCitations env validItems cslStyle enLocale in
    mret ({| success := bool_decide (0 < length gen.1);
             citations := gen.1;
             errors := verrors (validateCslItems cslItems) ++ gen.2;
             warnings := skipped_warnings cslItems validItems;
             csvData := imap (λ index row,
                                augment_row cslItems validItems gen.1 row index) rows |},
          if decide (0 < length gen.1)
          then ("Successfully generated " +:+ pretty (length gen.1) +:+ " citations.", success_)
          else ("Failed to generate any citations. Check debug information for details.", error)).
Proof.
  intros Hacq. unfold generation. rewrite Hacq. simpl.
  fold (items_of rows). case_decide; [done|].
  by destruct (generateCitations _ _ _ _).
Qed.

(** C9. When validation accepts no item, the run ends with the "no valid
    items" error: the result is stored with success false, an empty
    citation list that is present, and the message as its error list. *)
Theorem no_valid_items_result (env : Env) (st : AppState) (rows : list CsvRow)
    (cslStyle enLocale : string) :
  librariesLoaded env = true →
  acquire env = inr (rows, cslStyle, enLocale) →
  valid (validateCslItems (items_of rows)) = [] →
  ∃ res, result (handleGeneration env st) = Some res
    ∧ success res = false
    ∧ citations res = []
    ∧ errors res = [no_valid_items_message]
    ∧ no_valid_items_message ∈ errors res
    ∧ csvData res = []
    ∧ status (handleGeneration env st) = ("Error: " +:+ no_valid_items_message, error).
Proof.
  intros Hlib Hacq Hnone.
  rewrite (handleGeneration_acquired env st _ Hlib Hacq).
  rewrite (generation_acquired env _ _ _ Hacq). simpl. rewrite Hnone. simpl.
  eexists. repeat split. apply list_elem_of_singleton. done.
Qed.

Lemma no_valid_items_result_witness :
  ∃ res, result (handleGeneration (sample_env [row_empty] (mret None)) initial_state) = Some res
    ∧ success res = false ∧ citations res = [] ∧ errors res = [no_valid_items_message]
    ∧ no_valid_items_message ∈ errors res ∧ csvData res = []
    ∧ status (handleGeneration (sample_env [row_empty] (mret None)) initial_state)
      = ("Error: " +:+ no_valid_items_message, error).
Proof.
  apply (no_valid_items_result (sample_env [row_empty] (mret None)) initial_state
           [row_empty] "<style></style>" "<style></style>");
    vm_compute; reflexivity.
Defined.

(** ** The warning about skipped items *)

Lemma skipped_warnings_zero cslItems validItems :
  length validItems < length cslItems →
  skipped_warnings cslItems validItems = ["0 items were skipped due to validation errors"].
Proof.
  intros Hlt. unfold skipped_warnings. rewrite decide_True by done.
  by rewrite Nat.sub_diag.
Qed.

Lemma older_skipped_warnings cslItems validItems :
  length validItems < length cslItems →
  Older.skipped_warnings cslItems validItems =
  [pretty (length cslItems - length validItems)
     +:+ " items were skipped due to validation errors"]
  ∧ 0 < length cslItems - length validItems.
Proof.
  intros Hlt. unfold Older.skipped_warnings. rewrite decide_True by done.
  split; [done|lia].
Qed.

(** C4, amended. In a run of [handleGeneration] that rejects at least one
    item: when the run goes on to render and stores its rows, its warnings
    are the one message about skipped items, whose count is the difference
    of the item count with itself, zero whatever the number of items
    skipped; when every item is rejected, the run ends on the "no valid
    items" error and has no warning at all. The older copy of the component
    subtracts the number of accepted items: its count is the number of
    items rejected, which is not zero. *)
Theorem skipped_warning_count_zero (env : Env) (st : AppState) (rows : list CsvRow)
    (cslStyle enLocale : string) :
  librariesLoaded env = true →
  acquire env = inr (rows, cslStyle, enLocale) →
  length (valid (validateCslItems (items_of rows))) < length (items_of rows) →
  (∀ res st', generation env = inr (res, st') →
     result (handleGeneration env st) = Some res
     ∧ warnings res =
         [pretty (length (items_of rows) - length (items_of rows))
            +:+ " items were skipped due to validation errors"]
     ∧ warnings res = ["0 items were skipped due to validation errors"])
  ∧ (valid (validateCslItems (items_of rows)) = [] →
       ∃ res, result (handleGeneration env st) = Some res
         ∧ errors res = [no_valid_items_message]
         ∧ warnings res = [])
  ∧ Older.skipped_warnings (items_of rows) (valid (validateCslItems (items_of rows)))
    = [pretty (length (items_of rows) - length (valid (validateCslItems (items_of rows))))
         +:+ " items were skipped due to validation errors"]
  ∧ 0 < length (items_of rows) - length (valid (validateCslItems (items_of rows))).
Proof.
  intros Hlib Hacq Hlt. split; [|split].
  - intros res st' Hgen.
    rewrite (handleGeneration_acquired env st _ Hlib Hacq), Hgen. simpl.
    split; [done|].
    rewrite (generation_acquired env _ _ _ Hacq) in Hgen. simpl in Hgen.
    case_decide; [done|]. injection Hgen as <- _. simpl.
    rewrite skipped_warnings_zero by done. by rewrite Nat.sub_diag.
  - intros Hnone.
    rewrite (handleGeneration_acquired env st _ Hlib Hacq).
    rewrite (generation_acquired env _ _ _ Hacq). simpl. rewrite Hnone. simpl.
    by eexists.
  - by apply older_skipped_warnings.
Qed.

Lemma skipped_warning_count_zero_witness :
  ∃ res, result (handleGeneration (sample_env [row_book; row_empty] (mret None)) initial_state)
           = Some res
    ∧ warnings res = ["0 items were skipped due to validation errors"].
Proof.
  destruct (generation (sample_env [row_book; row_empty] (mret None)))
    as [e|[res st']] eqn:Hgen; [vm_compute in Hgen; discriminate Hgen|].
  exists res.
  destruct (skipped_warning_count_zero (sample_env [row_book; row_empty] (mret None))
              initial_state [row_book; row_empty] "<style></style>" "<style></style>")
    as (Hrun & _ & _);
    [reflexivity | vm_compute; reflexivity | vm_compute; lia | ].
  destruct (Hrun res st' Hgen) as (Hres & _ & Hw).
  split; [exact Hres | exact Hw].
Defined.

(** The claim as worded fails on a run that rejects every item, which has
    no warning, and on the older copy, whose count is the number of items
    rejected. *)
Lemma warns_zero_skipped_counterexample :
  (∃ res,
     result (handleGeneration (sample_env [row_empty] (mret None)) initial_state) = Some res
     ∧ length (valid (validateCslItems (items_of [row_empty]))) < length (items_of [row_empty])
     ∧ warnings res = []
     ∧ ¬ warns_zero_skipped res)
  ∧ length (valid (validateCslItems (items_of [row_book; row_empty])))
      < length (items_of [row_book; row_empty])
  ∧ Older.skipped_warnings (items_of [row_book; row_empty])
      (valid (validateCslItems (items_of [row_book; row_empty])))
    = ["1 items were skipped due to validation errors"]
  ∧ Older.skipped_warnings (items_of [row_book; row_empty])
      (valid (validateCslItems (items_of [row_book; row_empty])))
    ≠ ["0 items were skipped due to validation errors"].
Proof.
  split.
  - eexists. split; [vm_compute; reflexivity|]. split; [vm_compute; lia|].
    split; [reflexivity|]. unfold warns_zero_skipped. simpl. discriminate.
  - split; [vm_compute; lia|]. split; [vm_compute; reflexivity|].
    vm_compute. discriminate.
Qed.

(** ** Identifiers of the items *)

Ltac fill_cases := repeat case_match; reflexivity.

Lemma id_fill_title row item : id (fill_title row item) = id item.
Proof. unfold fill_title. fill_cases. Qed.
Lemma id_fill_author row item : id (fill_author row item) = id item.
Proof. unfold fill_author. fill_cases. Qed.
Lemma id_fill_issued row item : id (fill_issued row item) = id item.
Proof. unfold fill_issued. fill_cases. Qed.
Lemma id_fill_container_title row item : id (fill_container_title row item) = id item.
Proof. unfold fill_container_title. fill_cases. Qed.
Lemma id_fill_volume_issue row item : id (fill_volume_issue row item) = id item.
Proof. unfold fill_volume_issue. fill_cases. Qed.
Lemma id_fill_page row item : id (fill_page row item) = id item.
Proof. unfold fill_page. fill_cases. Qed.
Lemma id_fill_doi row item : id (fill_doi row item) = id item.
Proof. unfold fill_doi. fill_cases. Qed.
Lemma id_fill_url row item : id (fill_url row item) = id item.
Proof. unfold fill_url. fill_cases. Qed.
Lemma id_fill_publisher row item : id (fill_publisher row item) = id item.
Proof. unfold fill_publisher. fill_cases. Qed.

(** The identifier encodes the 1-based position of the row. *)
Lemma id_createCslItem row index :
  id (createCslItem row index) = "item_" +:+ pretty (index + 1).
Proof.
  unfold createCslItem.
  by rewrite id_fill_publisher, id_fill_url, id_fill_doi, id_fill_page,
    id_fill_volume_issue, id_fill_container_title, id_fill_issued,
    id_fill_author, id_fill_title.
Qed.

Lemma item_id_inj i j :
  "item_" +:+ pretty (i + 1) = "item_" +:+ pretty (j + 1) → i = j.
Proof.
  intros H. apply (inj (String.app "item_")) in H.
  apply (inj pretty) in H. lia.
Qed.

Lemma items_of_lookup rows i :
  items_of rows !! i = (λ row, createCslItem row i) <$> rows !! i.
Proof. unfold items_of. apply list_lookup_imap. Qed.

Lemma items_of_id rows i x :
  items_of rows !! i = Some x → id x = "item_" +:+ pretty (i + 1).
Proof.
  rewrite items_of_lookup. destruct (rows !! i) as [row|]; [|done].
  intros [= <-]. apply id_createCslItem.
Qed.

Lemma items_of_id_unique rows i j x y :
  items_of rows !! i = Some x → items_of rows !! j = Some y → id x = id y → i = j.
Proof.
  intros Hi Hj Hid. apply items_of_id in Hi, Hj.
  rewrite Hi, Hj in Hid. by apply item_id_inj.
Qed.

Lemma items_of_NoDup rows : NoDup (items_of rows).
Proof.
  apply NoDup_alt. intros i j x Hi Hj. by eapply items_of_id_unique.
Qed.

(** ** Joining the citations back onto the rows *)

(** [cslItems.find] on the identifier of row [i] gives the item of row [i]. *)
Lemma find_own_item rows i row :
  rows !! i = Some row →
  find (λ csl, id csl = "item_" +:+ pretty (i + 1)) (items_of rows)
  = Some (createCslItem row i).
Proof.
  intros Hrow.
  assert (Hitem : items_of rows !! i = Some (createCslItem row i))
    by (by rewrite items_of_lookup, Hrow).
  unfold find.
  destruct (list_find _ (items_of rows)) as [[k x]|] eqn:E; simpl.
  - apply list_find_Some in E as (Hk & Hid & _).
    assert (k = i) as ->.
    { eapply items_of_id_unique; [exact Hk|exact Hitem|].
      by rewrite Hid, id_createCslItem. }
    congruence.
  - apply list_find_None in E. rewrite Forall_forall in E.
    destruct (E (createCslItem row i)).
    + apply list_elem_of_lookup. eauto.
    + apply id_createCslItem.
Qed.

Lemma valid_items_of_elem rows x :
  x ∈ valid (validateCslItems (items_of rows)) ↔ x ∈ items_of rows ∧ ¬ invalid x.
Proof. rewrite validateCslItems_valid, list_elem_of_filter. tauto. Qed.

Lemma valid_items_NoDup rows : NoDup (valid (validateCslItems (items_of rows))).
Proof. rewrite validateCslItems_valid. apply NoDup_filter, items_of_NoDup. Qed.

(** An item of the run is determined by its identifier. *)
Lemma item_of_id rows i row x :
  rows !! i = Some row → x ∈ items_of rows → id x = id (createCslItem row i) →
  x = createCslItem row i.
Proof.
  intros Hrow [k Hk]%list_elem_of_lookup Hid.
  assert (Hitem : items_of rows !! i = Some (createCslItem row i))
    by (by rewrite items_of_lookup, Hrow).
  assert (k = i) as -> by (by eapply items_of_id_unique).
  congruence.
Qed.

(** [validItems.findIndex] fails on the identifier of a rejected item... *)
Lemma findIndex_rejected rows i row :
  rows !! i = Some row → invalid (createCslItem row i) →
  findIndex (λ v, Some (id v) = Some (id (createCslItem row i)))
    (valid (validateCslItems (items_of rows))) = None.
Proof.
  intros Hrow Hinv. unfold findIndex.
  destruct (list_find _ _) as [[j x]|] eqn:E; [|done].
  apply list_find_Some in E as (Hj & [= Hid] & _).
  assert (Hx : x ∈ valid (validateCslItems (items_of rows)))
    by (apply list_elem_of_lookup; eauto).
  apply valid_items_of_elem in Hx as [Hx Hok].
  rewrite (item_of_id rows i row x Hrow Hx Hid) in Hok. done.
Qed.

(** ... and gives the position of an accepted one. *)
Lemma findIndex_accepted rows i row j :
  rows !! i = Some row →
  valid (validateCslItems (items_of rows)) !! j = Some (createCslItem row i) →
  findIndex (λ v, Some (id v) = Some (id (createCslItem row i)))
    (valid (validateCslItems (items_of rows))) = Some j.
Proof.
  intros Hrow Hj. unfold findIndex.
  destruct (list_find _ _) as [[j0 x]|] eqn:E; simpl.
  - apply list_find_Some in E as (Hj0 & [= Hid] & _).
    assert (Hx : x ∈ valid (validateCslItems (items_of rows)))
      by (apply list_elem_of_lookup; eauto).
    apply valid_items_of_elem in Hx as [Hx _].
    rewrite (item_of_id rows i row x Hrow Hx Hid) in Hj0.
    f_equal. eapply NoDup_lookup; [apply valid_items_NoDup|exact Hj0|exact Hj].
  - apply list_find_None in E. rewrite Forall_forall in E.
    destruct (E (createCslItem row i)); [|done].
    apply list_elem_of_lookup. eauto.
Qed.

Lemma accepted_position rows i row :
  rows !! i = Some row → ¬ invalid (createCslItem row i) →
  ∃ j, valid (validateCslItems (items_of rows)) !! j = Some (createCslItem row i).
Proof.
  intros Hrow Hok. apply list_elem_of_lookup, valid_items_of_elem. split; [|done].
  apply list_elem_of_lookup. exists i. by rewrite items_of_lookup, Hrow.
Qed.

Lemma truthy_citation citations j :
  (if truthy (citations !! j) then default "" (citations !! j) else citation_fallback)
  = citation_or_fallback citations j.
Proof.
  unfold citation_or_fallback. destruct (citations !! j) as [c|]; simpl; [|done].
  by case_decide; [rewrite bool_decide_eq_true_2|rewrite bool_decide_eq_false_2].
Qed.

(** The row callback of [finalCsvData] on a rejected and on an accepted row. *)
Lemma augment_row_rejected rows citations i row :
  rows !! i = Some row → invalid (createCslItem row i) →
  augment_row (items_of rows) (valid (validateCslItems (items_of rows))) citations row i
  = <[citation_column := skipped_sentinel]> row.
Proof.
  intros Hrow Hinv. unfold augment_row.
  rewrite (find_own_item rows i row Hrow). simpl.
  by rewrite (findIndex_rejected rows i row Hrow Hinv).
Qed.

Lemma augment_row_accepted rows citations i row j :
  rows !! i = Some row →
  valid (validateCslItems (items_of rows)) !! j = Some (createCslItem row i) →
  augment_row (items_of rows) (valid (validateCslItems (items_of rows))) citations row i
  = <[citation_column := citation_or_fallback citations j]> row.
Proof.
  intros Hrow Hj. unfold augment_row.
  rewrite (find_own_item rows i row Hrow). simpl.
  rewrite (findIndex_accepted rows i row j Hrow Hj).
  by rewrite truthy_citation.
Qed.

Lemma augment_row_insert cslItems validItems citations row i :
  ∃ c, augment_row cslItems validItems citations row i = <[citation_column := c]> row.
Proof. unfold augment_row. eauto. Qed.

(** What a run that gets past validation stores. *)
Lemma generation_result env st rows cslStyle enLocale res st' :
  librariesLoaded env = true →
  acquire env = inr (rows, cslStyle, enLocale) →
  generation env = inr (res, st') →
  result (handleGeneration env st) = Some res
  ∧ csvData res =
      imap (λ index row,
              augment_row (items_of rows) (valid (validateCslItems (items_of rows)))
                (citations res) row index) rows.
Proof.
  intros Hlib Hacq Hgen.
  rewrite (handleGeneration_acquired env st _ Hlib Hacq), Hgen. simpl.
  split; [done|].
  rewrite (generation_acquired env _ _ _ Hacq) in Hgen. simpl in Hgen.
  case_decide; [done|]. by injection Hgen as <- _.
Qed.

(** C1, amended. In a run that gets past validation, the row of a rejected
    item carries the sentinel in its citation column; the row of an accepted
    item carries the citation rendered at the position its item has among
    the valid items when that text exists and is not empty, and the fixed
    text "Error: Could not generate citation." otherwise. *)
Theorem citation_column_spec (env : Env) (st : AppState) (rows : list CsvRow)
    (cslStyle enLocale : string) (res : GenerationResult) (st' : string * StatusType) :
  librariesLoaded env = true →
  acquire env = inr (rows, cslStyle, enLocale) →
  generation env = inr (res, st') →
  result (handleGeneration env st) = Some res
  ∧ ∀ i row, rows !! i = Some row →
      ∃ out, csvData res !! i = Some out
        ∧ (invalid (createCslItem row i) →
             out !! citation_column = Some skipped_sentinel)
        ∧ (¬ invalid (createCslItem row i) →
             ∃ j, valid (validateCslItems (items_of rows)) !! j = Some (createCslItem row i))
        ∧ (∀ j, valid (validateCslItems (items_of rows)) !! j = Some (createCslItem row i) →
             out !! citation_column = Some (citation_or_fallback (citations res) j)
             ∧ (∀ c, citations res !! j = Some c → c ≠ "" →
                  out !! citation_column = Some c)).
Proof.
  intros Hlib Hacq Hgen.
  destruct (generation_result env st rows _ _ res st' Hlib Hacq Hgen) as [Hres Hcsv].
  split; [done|]. intros i row Hrow.
  eexists. split; [by rewrite Hcsv, list_lookup_imap, Hrow|].
  split; [|split].
  - intros Hinv. rewrite (augment_row_rejected rows _ i row Hrow Hinv).
    apply lookup_insert_eq.
  - by apply accepted_position.
  - intros j Hj. rewrite (augment_row_accepted rows _ i row j Hrow Hj).
    rewrite lookup_insert_eq. split; [done|].
    intros c Hc Hne. unfold citation_or_fallback. rewrite Hc. by rewrite decide_False.
Qed.

Lemma citation_column_spec_witness :
  ∃ res out,
    result (handleGeneration (sample_env [row_empty; row_book] (mret (Some ["Walden."])))
              initial_state) = Some res
    ∧ csvData res !! 0 = Some out
    ∧ out !! citation_column = Some skipped_sentinel.
Proof.
  destruct (generation (sample_env [row_empty; row_book] (mret (Some ["Walden."]))))
    as [e|[res st']] eqn:Hgen; [vm_compute in Hgen; discriminate Hgen|].
  destruct (citation_column_spec (sample_env [row_empty; row_book] (mret (Some ["Walden."])))
              initial_state [row_empty; row_book] "<style></style>" "<style></style>"
              res st') as (Hres & Hrows);
    [reflexivity | vm_compute; reflexivity | exact Hgen | ].
  destruct (Hrows 0 row_empty eq_refl) as (out & Hout & Hrej & _).
  exists res, out. split; [exact Hres|]. split; [exact Hout|].
  apply Hrej. vm_compute. left. split; [by left|done].
Defined.

(** C1 as worded fails: when the engine yields no bibliography, or an
    empty text for an item, the row of an accepted item carries the fallback
    text, which is no rendered citation. *)
Lemma sentinel_or_rendered_counterexample :
  (∃ res,
     result (handleGeneration (sample_env [row_empty; row_book] (mret None)) initial_state)
       = Some res
     ∧ citations res = []
     ∧ (∃ out, csvData res !! 1 = Some out ∧ out !! citation_column = Some citation_fallback)
     ∧ ¬ sentinel_or_rendered [row_empty; row_book] res)
  ∧ (∃ res,
       result (handleGeneration (sample_env [row_empty; row_book] (mret (Some [""])))
                 initial_state) = Some res
       ∧ citations res = [""]
       ∧ (∃ out, csvData res !! 1 = Some out ∧ out !! citation_column = Some citation_fallback)
       ∧ ¬ sentinel_or_rendered [row_empty; row_book] res).
Proof.
  assert (Hok : ¬ invalid (createCslItem row_book 1)).
  { apply (bool_decide_unpack _). by vm_compute. }
  split.
  - eexists. split; [vm_compute; reflexivity|]. split; [reflexivity|].
    split; [eexists; split; [reflexivity|by vm_compute]|].
    intros H. destruct (H 1 row_book eq_refl) as (out & _ & _ & Hacc).
    destruct (Hacc Hok) as (j & c & _ & Hc & _). simpl in Hc.
    by rewrite lookup_nil in Hc.
  - eexists. split; [vm_compute; reflexivity|]. split; [reflexivity|].
    split; [eexists; split; [reflexivity|by vm_compute]|].
    intros H. destruct (H 1 row_book eq_refl) as (out & Hout & _ & Hacc).
    destruct (Hacc Hok) as (j & c & Hj & Hc & Hcol). simpl in Hc.
    injection Hout as <-.
    destruct j as [|j]; [|by rewrite lookup_cons, lookup_nil in Hc].
    injection Hc as <-. vm_compute in Hcol. discriminate Hcol.
Qed.

(** The older copy of the component indexes the citations by row position
    and has no sentinel: after a rejected first row, the second row gets the
    fallback text and the first row gets the citation of the second. *)
Lemma older_augment_row_misaligned :
  let rows := [row_empty; row_book] in
  let citations := ["Thoreau, H. D. (1854). Walden."] in
  imap (λ index row, Older.augment_row citations row index) rows
  = [ <[citation_column := "Thoreau, H. D. (1854). Walden."]> row_empty;
      <[citation_column := citation_fallback]> row_book ].
Proof. reflexivity. Qed.

(** ** The augmented rows *)

(** C2, amended. A run that gets past validation returns as many rows as it
    read. Each output row is the input row with the column "APA 7 Citation"
    set to the citation text: every other column keeps its value, and the
    row has one column more than the input row exactly when the input row
    has no column of that name (a column of that name is overwritten). *)
Theorem augmented_rows_spec (env : Env) (st : AppState) (rows : list CsvRow)
    (cslStyle enLocale : string) (res : GenerationResult) (st' : string * StatusType) :
  librariesLoaded env = true →
  acquire env = inr (rows, cslStyle, enLocale) →
  generation env = inr (res, st') →
  result (handleGeneration env st) = Some res
  ∧ length (csvData res) = length rows
  ∧ ∀ i row, rows !! i = Some row →
      ∃ out c, csvData res !! i = Some out
        ∧ out = <[citation_column := c]> row
        ∧ out !! citation_column = Some c
        ∧ (∀ k, k ≠ citation_column → out !! k = row !! k)
        ∧ dom out = {[citation_column]} ∪ dom row
        ∧ (row !! citation_column = None → size out = S (size row))
        ∧ (is_Some (row !! citation_column) → size out = size row).
Proof.
  intros Hlib Hacq Hgen.
  destruct (generation_result env st rows _ _ res st' Hlib Hacq Hgen) as [Hres Hcsv].
  split; [done|]. split; [by rewrite Hcsv, length_imap|].
  intros i row Hrow.
  destruct (augment_row_insert (items_of rows) (valid (validateCslItems (items_of rows)))
              (citations res) row i) as [c Hc].
  exists (<[citation_column := c]> row), c.
  split; [by rewrite Hcsv, list_lookup_imap, Hrow; simpl; rewrite Hc|].
  split; [done|]. split; [apply lookup_insert_eq|].
  split; [by intros k Hk; apply lookup_insert_ne|].
  split; [apply dom_insert_L|].
  split.
  - intros Hnone. by apply map_size_insert_None.
  - intros Hsome. by apply map_size_insert_Some.
Qed.

Lemma augmented_rows_spec_witness :
  ∃ res, result (handleGeneration (sample_env [row_empty; row_book] (mret (Some ["Walden."])))
                   initial_state) = Some res
    ∧ length (csvData res) = 2.
Proof.
  destruct (generation (sample_env [row_empty; row_book] (mret (Some ["Walden."]))))
    as [e|[res st']] eqn:Hgen; [vm_compute in Hgen; discriminate Hgen|].
  destruct (augmented_rows_spec (sample_env [row_empty; row_book] (mret (Some ["Walden."])))
              initial_state [row_empty; row_book] "<style></style>" "<style></style>"
              res st') as (Hres & Hlen & _);
    [reflexivity | vm_compute; reflexivity | exact Hgen | ].
  exists res. split; [exact Hres | exact Hlen].
Defined.

(** C2 as worded fails on a row that has a column "APA 7 Citation"
    already: the run overwrites it, so the original value is gone and no
    column is added. *)
Lemma rows_kept_one_column_appended_counterexample :
  ∃ res out,
    result (handleGeneration
              (sample_env [row_recycled] (mret (Some ["Thoreau, H. D. (1854). Walden."])))
              initial_state) = Some res
    ∧ success res = true
    ∧ csvData res !! 0 = Some out
    ∧ row_recycled !! citation_column = Some "Thoreau (1854)"
    ∧ out !! citation_column = Some "Thoreau, H. D. (1854). Walden."
    ∧ size out = size row_recycled
    ∧ ¬ rows_kept_one_column_appended [row_recycled] res.
Proof.
  eexists. eexists. split; [vm_compute; reflexivity|].
  split; [reflexivity|]. split; [reflexivity|].
  split; [by vm_compute|]. split; [by vm_compute|]. split; [by vm_compute|].
  intros [_ H]. destruct (H 0 row_recycled _ eq_refl eq_refl) as [_ Hsize].
  vm_compute in Hsize. discriminate Hsize.
Qed.

(** ** Strings *)

Lemma string_app_nil_l s : "" +:+ s = s.
Proof. reflexivity. Qed.

Lemma string_app_cons a s t : String a s +:+ t = String a (s +:+ t).
Proof. reflexivity. Qed.

Lemma string_app_nil_r s : s +:+ "" = s.
Proof.
  induction s as [|a s IH]; [done|]. by rewrite string_app_cons, IH.
Qed.

Lemma string_app_assoc s1 s2 s3 : (s1 +:+ s2) +:+ s3 = s1 +:+ (s2 +:+ s3).
Proof.
  induction s1 as [|a s1 IH]; [done|]. by rewrite !string_app_cons, IH.
Qed.

Lemma string_length_app s1 s2 :
  String.length (s1 +:+ s2) = String.length s1 + String.length s2.
Proof.
  induction s1 as [|a s1 IH]; [done|]. rewrite string_app_cons. simpl. by rewrite IH.
Qed.

Lemma strip_prefix_Some p s r : strip_prefix p s = Some r ↔ s = p +:+ r.
Proof.
  revert s. induction p as [|a p IH]; intros s; simpl.
  - rewrite string_app_nil_l. split; congruence.
  - rewrite string_app_cons. destruct s as [|b s]; [split; discriminate|].
    case_decide as Hab.
    + subst b. rewrite IH. split; congruence.
    + split; [discriminate|]. intros [= ? ?]. done.
Qed.

Lemma strip_token_Some toks s r :
  strip_token toks s = Some r → ∃ t, t ∈ toks ∧ s = t +:+ r.
Proof.
  induction toks as [|t toks IH]; simpl; [discriminate|].
  destruct (strip_prefix t s) as [r'|] eqn:E.
  - intros [= ->]. exists t. split; [left|]. by apply strip_prefix_Some.
  - intros (t' & Hin & Hs)%IH. exists t'. split; [by right|done].
Qed.

Lemma has_upper_app s1 s2 : has_upper (s1 +:+ s2) = has_upper s1 || has_upper s2.
Proof.
  induction s1 as [|a s1 IH]; [done|].
  rewrite string_app_cons. simpl. by rewrite IH, orb_assoc.
Qed.

Lemma has_upper_rev_app s1 s2 :
  has_upper (String.rev_app s1 s2) = has_upper s1 || has_upper s2.
Proof.
  revert s2. induction s1 as [|a s1 IH]; intros s2; simpl; [done|].
  rewrite IH. simpl. destruct (is_upper a), (has_upper s1), (has_upper s2); done.
Qed.

Lemma has_upper_rev s : has_upper (String.rev s) = has_upper s.
Proof. unfold String.rev. rewrite has_upper_rev_app. simpl. apply orb_false_r. Qed.

Lemma has_upper_trimStart_go fuel s :
  has_upper s = false → has_upper (trimStart_go fuel s) = false.
Proof.
  revert s. induction fuel as [|fuel IH]; intros s Hs; cbn [trimStart_go]; [done|].
  destruct (strip_token white_space s) as [r|] eqn:E; [|done].
  apply strip_token_Some in E as (t & _ & ->).
  rewrite has_upper_app in Hs. apply orb_false_iff in Hs as [_ Hr]. by apply IH.
Qed.

Lemma has_upper_trimEnd_go fuel s :
  has_upper s = false → has_upper (trimEnd_go fuel s) = false.
Proof.
  revert s. induction fuel as [|fuel IH]; intros s Hs; cbn [trimEnd_go]; [done|].
  destruct (strip_token rev_white_space s) as [r|] eqn:E; [|done].
  apply strip_token_Some in E as (t & _ & ->).
  rewrite has_upper_app in Hs. apply orb_false_iff in Hs as [_ Hr]. by apply IH.
Qed.

Lemma has_upper_trim s : has_upper s = false → has_upper (trim s) = false.
Proof.
  intros Hs. unfold trim, trimEnd, trimStart.
  rewrite has_upper_rev. apply has_upper_trimEnd_go. rewrite has_upper_rev.
  by apply has_upper_trimStart_go.
Qed.

Lemma is_upper_lower_ascii c : is_upper (lower_ascii c) = false.
Proof. by destruct c as [[] [] [] [] [] [] [] []]. Qed.

Lemma has_upper_toLowerCase s : has_upper (toLowerCase s) = false.
Proof.
  induction s as [|c s IH]; [done|].
  change (has_upper (toLowerCase (String c s)))
    with (is_upper (lower_ascii c) || has_upper (toLowerCase s)).
  by rewrite is_upper_lower_ascii, IH.
Qed.

Lemma has_upper_normal_form raw : has_upper (normal_form raw) = false.
Proof. apply has_upper_trim, has_upper_toLowerCase. Qed.

(** ** mapSourceType *)

(** Of the properties of [Object.prototype], a lower-cased key can only name
    [constructor] and [__proto__]: the others have a capital letter. *)
Lemma object_prototype_normal_form raw v :
  object_prototype (normal_form raw) = Some v →
  normal_form raw = "constructor" ∨ normal_form raw = "__proto__".
Proof.
  pose proof (has_upper_normal_form raw) as Hlow.
  unfold object_prototype.
  destruct (decide (normal_form raw = "constructor")); [by left|].
  destruct (decide (normal_form raw = "__proto__")); [by right|].
  case_bool_decide as Hin; [|discriminate]. intros _. exfalso.
  repeat (apply elem_of_cons in Hin as [Hin|Hin];
          [rewrite Hin in Hlow; vm_compute in Hlow; discriminate Hlow|]).
  by apply elem_of_nil in Hin.
Qed.

(** What [mapSourceType] returns, case by case. *)
Lemma mapSourceType_spec (rawType : value) :
  match rawType with
  | VStr raw =>
      if decide (raw = "") then mapSourceType rawType = VStr "article-journal"
      else match mapping !! normal_form raw with
           | Some t => mapSourceType rawType = VStr t
           | None =>
               if decide (normal_form raw = "constructor")
               then mapSourceType rawType = VObj "Object"
               else if decide (normal_form raw = "__proto__")
               then mapSourceType rawType = VObj "Object.prototype"
               else mapSourceType rawType = VStr "webpage"
           end
  | _ => mapSourceType rawType = VStr "article-journal"
  end.
Proof.
  destruct rawType as [| | | |raw|]; try reflexivity.
  unfold mapSourceType, mapping_get. fold (normal_form raw).
  case_decide; [done|].
  destruct (mapping !! normal_form raw) as [t|] eqn:Ht; [done|].
  destruct (object_prototype (normal_form raw)) as [v|] eqn:Hv.
  - destruct (object_prototype_normal_form raw v Hv) as [Hc|Hp].
    + rewrite decide_True by done. rewrite Hc in Hv. by injection Hv as <-.
    + rewrite decide_False by (rewrite Hp; done). rewrite decide_True by done.
      rewrite Hp in Hv. by injection Hv as <-.
  - destruct (decide (normal_form raw = "constructor")) as [Hc|_];
      [rewrite Hc in Hv; discriminate Hv|].
    destruct (decide (normal_form raw = "__proto__")) as [Hp|_];
      [rewrite Hp in Hv; discriminate Hv|done].
Qed.

(** Away from the two inherited names, the function does what the
    specification says. *)
Lemma mapSourceType_source_type_claim (rawType : value) :
  (∀ raw, rawType = VStr raw →
     normal_form raw ≠ "constructor" ∧ normal_form raw ≠ "__proto__") →
  mapSourceType rawType = source_type_claim rawType.
Proof.
  intros Hraw. pose proof (mapSourceType_spec rawType) as H.
  destruct rawType as [| | | |raw|]; try done.
  destruct (Hraw raw eq_refl) as [Hc Hp]. unfold source_type_claim.
  case_decide; [done|].
  destruct (mapping !! normal_form raw); [done|].
  by rewrite !decide_False in H by done.
Qed.

Example mapSourceType_examples :
  mapSourceType (VStr "Journal Article") = VStr "article-journal"
  ∧ mapSourceType (VStr "") = VStr "article-journal"
  ∧ mapSourceType VUndefined = VStr "article-journal"
  ∧ mapSourceType (VNum 7) = VStr "article-journal"
  ∧ mapSourceType (VStr "zzz") = VStr "webpage"
  ∧ mapSourceType (VStr "   ") = VStr "webpage".
Proof. repeat split; reflexivity. Qed.

(** C5 at the source type "Constructor": it is not empty and is no key of
    the synonym table, yet the result is not 'webpage'. The lookup
    [mapping[type]] finds the property [constructor] that every object
    literal inherits, a function, and [mapSourceType] returns it. *)
Theorem mapSourceType_inherited_property :
  "Constructor" ≠ ""
  ∧ normal_form "Constructor" = "constructor"
  ∧ mapping !! normal_form "Constructor" = None
  ∧ source_type_claim (VStr "Constructor") = VStr "webpage"
  ∧ mapSourceType (VStr "Constructor") = VObj "Object"
  ∧ mapSourceType (VStr "Constructor") ≠ source_type_claim (VStr "Constructor")
  ∧ type (createCslItem {[ "Source Type" := "Constructor" ]} 0) = VObj "Object".
Proof. repeat split; try reflexivity; done. Qed.

(** ** The matcher and the matching relation *)

Section matcher_facts.
Context {R : Type} (c : ctx).
Implicit Types (k : string → captures → option R).

Lemma or_try_Some (a b : option R) x :
  or_try a b = Some x → a = Some x ∨ (a = None ∧ b = Some x).
Proof. destruct a; simpl; [left|right]; done. Qed.

Lemma or_try_is_Some (a b : option R) : is_Some a ∨ is_Some b → is_Some (or_try a b).
Proof. destruct a; simpl; [eauto|]. by intros [[? [=]]|?]. Qed.

Lemma class_sound toks s caps k x :
  foldr (λ t rest,
           or_try (match strip_prefix t s with
                   | Some s' => k s' caps
                   | None => None
                   end) rest) None toks = Some x →
  ∃ s', Matches c (Class toks) s caps s' caps ∧ k s' caps = Some x.
Proof.
  induction toks as [|t toks IH]; simpl; [discriminate|].
  intros [H|[_ H]]%or_try_Some.
  - destruct (strip_prefix t s) as [s'|] eqn:E; [|discriminate].
    exists s'. split; [|done]. eapply Matches_Class; [left|done].
  - destruct (IH H) as (s' & HM & Hk). exists s'. split; [|done].
    inversion HM; subst. eapply Matches_Class; [by right|done].
Qed.

Lemma iterate_sound r k
    (IH : ∀ s caps k x, m c r s caps k = Some x →
            ∃ s' caps', Matches c r s caps s' caps' ∧ k s' caps' = Some x) :
  ∀ fuel s caps x, iterate (m c r) k fuel s caps = Some x →
    ∃ s' caps', Matches c (Star r) s caps s' caps' ∧ k s' caps' = Some x.
Proof.
  induction fuel as [|fuel IHf]; intros s caps x; simpl.
  - intros H. exists s, caps. split; [apply Matches_Star_nil|done].
  - intros [H|[_ H]]%or_try_Some.
    + apply IH in H as (s1 & caps1 & HM & H).
      case_decide as Hlt; [|discriminate].
      apply IHf in H as (s2 & caps2 & HM2 & H).
      exists s2, caps2. split; [|done]. by eapply Matches_Star_cons.
    + exists s, caps. split; [apply Matches_Star_nil|done].
Qed.

(** Soundness: a success of the matcher is a match in the sense of
    [Matches], handed to the continuation. *)
Lemma m_sound r : ∀ s caps k x,
  m c r s caps k = Some x →
  ∃ s' caps', Matches c r s caps s' caps' ∧ k s' caps' = Some x.
Proof.
  induction r as [l|toks|r1 IH1 r2 IH2|r IH|r IH|n r IH| |]; intros s caps k x; cbn [m].
  - destruct (strip_lit c l s) as [s'|] eqn:E; [|discriminate].
    intros H. exists s', caps. split; [by constructor|done].
  - intros (s' & HM & H)%class_sound. eauto.
  - intros (s1 & caps1 & HM1 & H)%IH1. apply IH2 in H as (s2 & caps2 & HM2 & H).
    exists s2, caps2. split; [|done]. by econstructor.
  - intros [H|[_ H]]%or_try_Some.
    + apply IH in H as (s' & caps' & HM & H). exists s', caps'.
      split; [by apply Matches_Opt_some|done].
    + exists s, caps. split; [apply Matches_Opt_none|done].
  - by apply iterate_sound.
  - intros (s' & caps' & HM & H)%IH. eexists _, _. split; [|exact H]. by constructor.
  - case_decide as Hs; [|discriminate]. intros Hk. exists s, caps.
    split; [by constructor|done].
  - case_decide as Hs; [|discriminate]. subst s. intros Hk. exists "", caps.
    split; [constructor|done].
Qed.

Lemma class_complete toks t s s' caps k :
  t ∈ toks → strip_prefix t s = Some s' → is_Some (k s' caps) →
  is_Some (foldr (λ t rest,
                    or_try (match strip_prefix t s with
                            | Some s' => k s' caps
                            | None => None
                            end) rest) None toks).
Proof.
  intros Hin Hs Hk. induction toks as [|t' toks IH]; [by apply elem_of_nil in Hin|].
  simpl. apply or_try_is_Some. apply elem_of_cons in Hin as [<-|Hin].
  - left. by rewrite Hs.
  - right. by apply IH.
Qed.

(** Completeness: where [r] matches and the continuation accepts the
    outcome, the matcher succeeds (on this or on an earlier alternative). *)
Lemma m_complete r s caps s' caps' :
  Matches c r s caps s' caps' →
  ∀ k, is_Some (k s' caps') →
    is_Some (m c r s caps k)
    ∧ match r with
      | Star r1 =>
          ∀ fuel, (String.length s ≤ fuel)%nat → is_Some (iterate (m c r1) k fuel s caps)
      | _ => True
      end.
Proof.
  induction 1 as [l s s' caps Hl|toks t s s' caps Hin Hs
                 |r1 r2 s s1 s2 caps caps1 caps2 _ IH1 _ IH2
                 |r s s' caps caps' _ IH|r s caps|r s caps
                 |r s s1 s2 caps caps1 caps2 _ IH1 Hlt _ IH2
                 |n r s s' caps caps' _ IH|s caps Hs|caps]; intros k Hk; cbn [m].
  - by rewrite Hl.
  - split; [|done]. by eapply class_complete.
  - split; [|done]. apply IH1. by apply IH2.
  - split; [|done]. apply or_try_is_Some. left. by apply IH.
  - split; [|done]. apply or_try_is_Some. by right.
  - assert (Hall : ∀ fuel, is_Some (iterate (m c r) k fuel s caps)).
    { intros [|fuel]; simpl; [done|]. apply or_try_is_Some. by right. }
    split; [apply Hall|intros fuel _; apply Hall].
  - assert (Hall : ∀ fuel, (String.length s ≤ fuel)%nat →
                          is_Some (iterate (m c r) k fuel s caps)).
    { intros [|fuel] Hfuel; [lia|]. simpl. apply or_try_is_Some. left.
      apply IH1. rewrite decide_True by done. apply (IH2 k Hk). lia. }
    split; [by apply Hall|done].
  - split; [|done]. by apply IH.
  - by rewrite decide_True.
  - by rewrite decide_True.
Qed.

End matcher_facts.

(** What a match consumes is a prefix of what it started from. *)
Lemma strip_lit_Some c l s s' :
  strip_lit c l s = Some s' →
  ∃ w, s = w +:+ s' ∧ String.length w = String.length l
       ∧ map_string (canon c) w = map_string (canon c) l.
Proof.
  revert s. induction l as [|a l IH]; intros s; simpl.
  - intros [= ->]. by exists "".
  - destruct s as [|b s]; [discriminate|]. case_decide as Hab; [|discriminate].
    intros (w & -> & Hlen & Hw)%IH. exists (String b w).
    split; [reflexivity|]. simpl. by rewrite Hlen, Hw, Hab.
Qed.

Lemma strip_lit_app c l w s' :
  String.length w = String.length l →
  map_string (canon c) w = map_string (canon c) l →
  strip_lit c l (w +:+ s') = Some s'.
Proof.
  revert w. induction l as [|a l IH]; intros [|b w]; simpl; try done.
  intros [= Hlen] [= Hab Hw].
  rewrite decide_True by done. by apply IH.
Qed.

Lemma Matches_suffix c r s caps s' caps' :
  Matches c r s caps s' caps' → ∃ w, s = w +:+ s'.
Proof.
  induction 1 as [l s s' caps Hl|toks t s s' caps Hin Hs
                 |r1 r2 s s1 s2 caps caps1 caps2 _ [w1 ->] _ [w2 ->]
                 |r s s' caps caps' _ IH|r s caps|r s caps
                 |r s s1 s2 caps caps1 caps2 _ [w1 ->] Hlt _ [w2 ->]
                 |n r s s' caps caps' _ IH|s caps Hs|caps]; try (by exists ""); try done.
  - apply strip_lit_Some in Hl as (w & -> & _). by exists w.
  - apply strip_prefix_Some in Hs. by exists t.
  - exists (w1 +:+ w2). by rewrite string_app_assoc.
  - exists (w1 +:+ w2). by rewrite string_app_assoc.
Qed.

Lemma substring_0_app w s : String.substring 0 (String.length w) (w +:+ s) = w.
Proof.
  induction w as [|a w IH]; simpl.
  - by destruct s.
  - by rewrite IH.
Qed.

Lemma substring_length_app w s :
  String.substring (String.length w) (String.length s) (w +:+ s) = s.
Proof.
  induction w as [|a w IH]; simpl; [|done].
  rewrite string_app_nil_l. induction s as [|b s IHs]; simpl; [done|]. by rewrite IHs.
Qed.

Lemma consumed_app w s : consumed (w +:+ s) s = w.
Proof.
  unfold consumed. rewrite string_length_app.
  replace (String.length w + String.length s - String.length s) with (String.length w) by lia.
  apply substring_0_app.
Qed.

(** ** Inversion and construction of matches *)

Section match_shapes.
Context (c : ctx).

Lemma Matches_Seq_inv r1 r2 s caps s2 caps2 :
  Matches c (Seq r1 r2) s caps s2 caps2 →
  ∃ s1 caps1, Matches c r1 s caps s1 caps1 ∧ Matches c r2 s1 caps1 s2 caps2.
Proof. inversion 1; subst. eauto. Qed.

Lemma Matches_Lit_inv l s caps s' caps' :
  Matches c (Lit l) s caps s' caps' →
  caps' = caps ∧ ∃ w, s = w +:+ s' ∧ map_string (canon c) w = map_string (canon c) l.
Proof.
  inversion 1 as [? ? ? ? Hl| | | | | | | | |]; subst. split; [done|].
  apply strip_lit_Some in Hl as (w & -> & _ & Hw). eauto.
Qed.

Lemma Matches_Class_inv toks s caps s' caps' :
  Matches c (Class toks) s caps s' caps' →
  caps' = caps ∧ ∃ t, t ∈ toks ∧ s = t +:+ s'.
Proof.
  inversion 1 as [|? ? ? ? ? Hin Hs| | | | | | | |]; subst. split; [done|].
  apply strip_prefix_Some in Hs. eauto.
Qed.

Lemma Matches_Opt_inv r s caps s' caps' :
  Matches c (Opt r) s caps s' caps' →
  Matches c r s caps s' caps' ∨ (s' = s ∧ caps' = caps).
Proof. inversion 1; subst; eauto. Qed.

Lemma Matches_Group_inv n r s caps s' caps' :
  Matches c (Group n r) s caps s' caps' →
  ∃ caps1, Matches c r s caps s' caps1 ∧ caps' = <[n := consumed s s']> caps1.
Proof. inversion 1; subst. eauto. Qed.

Lemma Matches_Star_Class_inv toks s caps s' caps' :
  Matches c (Star (Class toks)) s caps s' caps' →
  caps' = caps ∧ ∃ w, s = w +:+ s' ∧ made_of toks w.
Proof.
  remember (Star (Class toks)) as r eqn:Hr. intros HM. revert Hr.
  induction HM as [| | | | |r0 s caps|r0 s s1 s2 caps caps1 caps2 HM1 _ Hlt HM2 IH2| | |];
    try discriminate; intros [= ->].
  - split; [done|]. exists "". split; [done|constructor].
  - apply Matches_Class_inv in HM1 as (-> & t & Hin & ->).
    destruct (IH2 eq_refl) as (-> & w & -> & Hw). split; [done|].
    exists (t +:+ w). split; [by rewrite string_app_assoc|by constructor].
Qed.

Lemma Matches_Star_Class_intro toks w s' caps :
  "" ∉ toks → made_of toks w → Matches c (Star (Class toks)) (w +:+ s') caps s' caps.
Proof.
  intros Hne. induction 1 as [|t w Hin _ IH]; [apply Matches_Star_nil|].
  rewrite string_app_assoc. eapply Matches_Star_cons; [| |exact IH].
  - eapply Matches_Class; [exact Hin|]. by apply strip_prefix_Some.
  - rewrite (string_length_app t). destruct t; [done|simpl; lia].
Qed.

Lemma made_of_nonempty toks w : w ≠ "" → made_of toks w →
  "" ∉ toks → ∃ t w', t ∈ toks ∧ w = t +:+ w' ∧ made_of toks w'.
Proof.
  intros Hw Hm Hne. induction Hm as [|t w Hin Hm IH]; [done|]. eauto.
Qed.

Lemma digits_nonempty : "" ∉ digits.
Proof. by apply (bool_decide_unpack _). Qed.

Lemma white_space_nonempty : "" ∉ white_space.
Proof. by apply (bool_decide_unpack _). Qed.

(** [(\d+)] captures a number, and any number at the head of the input can
    be captured. *)
Lemma Matches_capture_number_inv n s caps s' caps' :
  Matches c (capture_number n) s caps s' caps' →
  ∃ N, s = N +:+ s' ∧ number N ∧ caps' = <[n := N]> caps.
Proof.
  intros (caps1 & HM & ->)%Matches_Group_inv.
  apply Matches_Seq_inv in HM as (s1 & caps0 & HM1 & HM2).
  apply Matches_Class_inv in HM1 as (-> & t & Hin & ->).
  apply Matches_Star_Class_inv in HM2 as (-> & w & -> & Hw).
  exists (t +:+ w). rewrite <- string_app_assoc, consumed_app.
  split; [done|]. split; [|done]. split; [|by constructor].
  destruct t; [by destruct digits_nonempty|done].
Qed.

Lemma Matches_capture_number_intro n N s' caps :
  number N → Matches c (capture_number n) (N +:+ s') caps s' (<[n := N]> caps).
Proof.
  intros [Hne Hm].
  destruct (made_of_nonempty digits N Hne Hm digits_nonempty) as (t & w & Hin & -> & Hw).
  rewrite <- (consumed_app (t +:+ w) s') at 2.
  apply Matches_Group. rewrite string_app_assoc. eapply Matches_Seq.
  - eapply Matches_Class; [exact Hin|]. by apply strip_prefix_Some.
  - by apply Matches_Star_Class_intro; [apply digits_nonempty|].
Qed.

Lemma Matches_space_inv s caps s' caps' :
  Matches c (Star space) s caps s' caps' → caps' = caps ∧ ∃ w, s = w +:+ s' ∧ blank w.
Proof. apply Matches_Star_Class_inv. Qed.

Lemma Matches_space_intro w s' caps :
  blank w → Matches c (Star space) (w +:+ s') caps s' caps.
Proof. apply Matches_Star_Class_intro, white_space_nonempty. Qed.

End match_shapes.

(** ** Literals *)

Lemma map_string_length f s : String.length (map_string f s) = String.length s.
Proof. induction s as [|a s IH]; simpl; congruence. Qed.

Lemma map_string_id_eq (f : ascii → ascii) w l :
  (∀ a, f a = a) → map_string f w = map_string f l → w = l.
Proof.
  intros Hf. revert l. induction w as [|a w IH]; intros [|b l]; simpl; try done.
  rewrite !Hf. intros [= -> H]. f_equal. by apply IH.
Qed.

Section literals.
Context (c : ctx).

Lemma Matches_Lit_intro l w s' caps :
  map_string (canon c) w = map_string (canon c) l →
  Matches c (Lit l) (w +:+ s') caps s' caps.
Proof.
  intros Hw. apply Matches_Lit, strip_lit_app; [|done].
  by rewrite <- (map_string_length (canon c) w), Hw, map_string_length.
Qed.

Lemma Matches_Lit_exact l s caps s' caps' :
  ignoreCase c = false →
  Matches c (Lit l) s caps s' caps' → caps' = caps ∧ s = l +:+ s'.
Proof.
  intros Hc (-> & w & -> & Hw)%Matches_Lit_inv. split; [done|].
  f_equal. eapply map_string_id_eq; [|exact Hw]. intros a. unfold canon. by rewrite Hc.
Qed.

Lemma Matches_Lit_ignore_case l s caps s' caps' :
  ignoreCase c = true →
  Matches c (Lit l) s caps s' caps' →
  caps' = caps ∧ ∃ w, s = w +:+ s' ∧ eq_ignore_case w l.
Proof.
  intros Hc (-> & w & -> & Hw)%Matches_Lit_inv. split; [done|].
  exists w. split; [done|]. unfold eq_ignore_case.
  assert (Hcanon : canon c = upper_ascii) by (unfold canon; by rewrite Hc).
  by rewrite Hcanon in Hw.
Qed.

Lemma Matches_Lit_ignore_case_intro l w s' caps :
  ignoreCase c = true → eq_ignore_case w l →
  Matches c (Lit l) (w +:+ s') caps s' caps.
Proof.
  intros Hc Hw. apply Matches_Lit_intro.
  assert (Hcanon : canon c = upper_ascii) by (unfold canon; by rewrite Hc).
  by rewrite Hcanon.
Qed.

Lemma canon_dot a : canon c a = canon c "."%char → a = "."%char.
Proof.
  unfold canon. destruct (ignoreCase c); [|done].
  by destruct a as [[] [] [] [] [] [] [] []].
Qed.

Lemma Matches_opt_dot_inv s caps s' caps' :
  Matches c (Opt dot) s caps s' caps' → caps' = caps ∧ ∃ d, s = d +:+ s' ∧ opt_dot d.
Proof.
  intros [H|[-> ->]]%Matches_Opt_inv.
  - apply Matches_Lit_inv in H as (-> & w & -> & Hw). split; [done|].
    exists w. split; [done|]. right.
    destruct w as [|a [|b w]]; try discriminate Hw.
    injection Hw as Ha. by rewrite (canon_dot a Ha).
  - split; [done|]. exists "". split; [done|by left].
Qed.

Lemma Matches_opt_dot_intro d s' caps :
  opt_dot d → Matches c (Opt dot) (d +:+ s') caps s' caps.
Proof.
  intros [->| ->]; [apply Matches_Opt_none|].
  apply Matches_Opt_some. by apply Matches_Lit_intro.
Qed.

End literals.

(** ** Searching *)

Lemma match_at_Some c r i s mr :
  match_at c r i s = Some mr →
  ∃ s', Matches c r s ∅ s' (groups mr) ∧ index mr = i ∧ matched mr = consumed s s'.
Proof.
  unfold match_at. intros (s' & caps' & HM & [= <-])%m_sound. eauto.
Qed.

Lemma match_at_is_Some c r i s s' caps :
  Matches c r s ∅ s' caps → is_Some (match_at c r i s).
Proof. intros HM. unfold match_at. by eapply m_complete. Qed.

Lemma search_Some c r s : ∀ i mr,
  search c r i s = Some mr →
  ∃ pre s0 s', s = pre +:+ s0 ∧ Matches c r s0 ∅ s' (groups mr)
    ∧ index mr = i + String.length pre ∧ matched mr = consumed s0 s'.
Proof.
  induction s as [|a s IH]; intros i mr; cbn [search].
  - destruct (match_at c r i "") as [res|] eqn:E; [|discriminate].
    intros [= <-]. apply match_at_Some in E as (s' & HM & Hi & Hm).
    exists "", "", s'. simpl. rewrite Nat.add_0_r. done.
  - destruct (match_at c r i (String a s)) as [res|] eqn:E.
    + intros [= <-]. apply match_at_Some in E as (s' & HM & Hi & Hm).
      exists "", (String a s), s'. simpl. rewrite Nat.add_0_r. done.
    + intros (pre & s0 & s' & -> & HM & Hi & Hm)%IH.
      exists (String a pre), s0, s'. simpl. split; [done|].
      split; [done|]. split; [lia|done].
Qed.

Lemma search_is_Some c r pre s0 s' caps : ∀ i,
  Matches c r s0 ∅ s' caps → is_Some (search c r i (pre +:+ s0)).
Proof.
  intros i HM. revert i. induction pre as [|a pre IH]; intros i.
  - rewrite string_app_nil_l.
    destruct (match_at_is_Some c r i s0 s' caps HM) as [res E].
    destruct s0; cbn [search]; by rewrite E.
  - rewrite string_app_cons. cbn [search].
    destruct (match_at c r i _); [done|]. apply IH.
Qed.

(** [exec] succeeds exactly when the source matches at some position. *)
Lemma exec_Some re text mr :
  exec re text = Some mr →
  ∃ pre s0 s', text = pre +:+ s0
    ∧ Matches (ctx_of re text) (source re) s0 ∅ s' (groups mr)
    ∧ index mr = String.length pre ∧ matched mr = consumed s0 s'.
Proof. unfold exec. intros H%search_Some. exact H. Qed.

Lemma exec_is_Some re text pre s0 s' caps :
  text = pre +:+ s0 → Matches (ctx_of re text) (source re) s0 ∅ s' caps →
  is_Some (exec re text).
Proof. intros Ht HM. unfold exec. rewrite Ht at 2. by eapply search_is_Some. Qed.

(** ** What the four patterns match *)

Section pattern_shapes.
Context (c : ctx).

Lemma paren_Matches s s' caps :
  ignoreCase c = false →
  Matches c (source pattern_paren) s ∅ s' caps →
  ∃ N M, paren_shape s N M s' ∧ caps = volume_issue N M.
Proof.
  intros Hc HM. cbn [source pattern_paren] in HM.
  apply Matches_Seq_inv in HM as (s1 & c1 & H1 & HM).
  apply Matches_capture_number_inv in H1 as (N & -> & HN & ->).
  apply Matches_Seq_inv in HM as (s2 & c2 & H2 & HM).
  apply Matches_space_inv in H2 as (-> & w1 & -> & Hw1).
  apply Matches_Seq_inv in HM as (s3 & c3 & H3 & HM).
  apply (Matches_Lit_exact c _ _ _ _ _ Hc) in H3 as (-> & ->).
  apply Matches_Seq_inv in HM as (s4 & c4 & H4 & HM).
  apply Matches_space_inv in H4 as (-> & w2 & -> & Hw2).
  apply Matches_Seq_inv in HM as (s5 & c5 & H5 & HM).
  apply Matches_capture_number_inv in H5 as (M & -> & HM' & ->).
  apply Matches_Seq_inv in HM as (s6 & c6 & H6 & HM).
  apply Matches_space_inv in H6 as (-> & w3 & -> & Hw3).
  apply (Matches_Lit_exact c _ _ _ _ _ Hc) in HM as (-> & ->).
  exists N, M. split; [|done]. by exists w1, w2, w3.
Qed.

Lemma paren_Matches_intro s N M s' :
  paren_shape s N M s' → Matches c (source pattern_paren) s ∅ s' (volume_issue N M).
Proof.
  intros (w1 & w2 & w3 & -> & HN & HM & Hw1 & Hw2 & Hw3). cbn [source pattern_paren].
  eapply Matches_Seq; [by apply Matches_capture_number_intro|].
  eapply Matches_Seq; [by apply Matches_space_intro|].
  eapply Matches_Seq; [by apply Matches_Lit_intro|].
  eapply Matches_Seq; [by apply Matches_space_intro|].
  eapply Matches_Seq; [by apply Matches_capture_number_intro|].
  eapply Matches_Seq; [by apply Matches_space_intro|].
  by apply Matches_Lit_intro.
Qed.

Lemma vol_no_Matches vol no s s' caps :
  ignoreCase c = true →
  Matches c (vol_no_source vol no) s ∅ s' caps →
  ∃ N M, vol_no_shape vol no s N M s' ∧ caps = volume_issue N M.
Proof.
  intros Hc HM. unfold vol_no_source in HM.
  apply Matches_Seq_inv in HM as (s1 & c1 & H1 & HM).
  apply (Matches_Lit_ignore_case c _ _ _ _ _ Hc) in H1 as (-> & v & -> & Hv).
  apply Matches_Seq_inv in HM as (s2 & c2 & H2 & HM).
  apply Matches_opt_dot_inv in H2 as (-> & d1 & -> & Hd1).
  apply Matches_Seq_inv in HM as (s3 & c3 & H3 & HM).
  apply Matches_space_inv in H3 as (-> & w1 & -> & Hw1).
  apply Matches_Seq_inv in HM as (s4 & c4 & H4 & HM).
  apply Matches_capture_number_inv in H4 as (N & -> & HN & ->).
  apply Matches_Seq_inv in HM as (s5 & c5 & H5 & HM).
  apply Matches_space_inv in H5 as (-> & w2 & -> & Hw2).
  apply Matches_Seq_inv in HM as (s6 & c6 & H6 & HM).
  apply (Matches_Lit_ignore_case c _ _ _ _ _ Hc) in H6 as (-> & n & -> & Hn).
  apply Matches_Seq_inv in HM as (s7 & c7 & H7 & HM).
  apply Matches_opt_dot_inv in H7 as (-> & d2 & -> & Hd2).
  apply Matches_Seq_inv in HM as (s8 & c8 & H8 & HM).
  apply Matches_space_inv in H8 as (-> & w3 & -> & Hw3).
  apply Matches_capture_number_inv in HM as (M & -> & HM' & ->).
  exists N, M. split; [|done]. by exists v, d1, w1, w2, n, d2, w3.
Qed.

Lemma vol_no_Matches_intro vol no s N M s' :
  ignoreCase c = true →
  vol_no_shape vol no s N M s' →
  Matches c (vol_no_source vol no) s ∅ s' (volume_issue N M).
Proof.
  intros Hc (v & d1 & w1 & w2 & n & d2 & w3 & -> & Hv & Hn & Hd1 & Hd2
             & HN & HM & Hw1 & Hw2 & Hw3).
  unfold vol_no_source.
  eapply Matches_Seq; [by apply Matches_Lit_ignore_case_intro|].
  eapply Matches_Seq; [by apply Matches_opt_dot_intro|].
  eapply Matches_Seq; [by apply Matches_space_intro|].
  eapply Matches_Seq; [by apply Matches_capture_number_intro|].
  eapply Matches_Seq; [by apply Matches_space_intro|].
  eapply Matches_Seq; [by apply Matches_Lit_ignore_case_intro|].
  eapply Matches_Seq; [by apply Matches_opt_dot_intro|].
  eapply Matches_Seq; [by apply Matches_space_intro|].
  by apply Matches_capture_number_intro.
Qed.

Lemma dash_Matches s s' caps :
  Matches c (source pattern_dash) s ∅ s' caps →
  ∃ N M, dash_shape s N M s' ∧ caps = volume_issue N M.
Proof.
  intros HM. cbn [source pattern_dash] in HM.
  apply Matches_Seq_inv in HM as (s1 & c1 & H1 & HM).
  apply Matches_capture_number_inv in H1 as (N & -> & HN & ->).
  apply Matches_Seq_inv in HM as (s2 & c2 & H2 & HM).
  apply Matches_space_inv in H2 as (-> & w1 & -> & Hw1).
  apply Matches_Seq_inv in HM as (s3 & c3 & H3 & HM).
  apply Matches_Class_inv in H3 as (-> & d & Hd & ->).
  apply Matches_Seq_inv in HM as (s4 & c4 & H4 & HM).
  apply Matches_space_inv in H4 as (-> & w2 & -> & Hw2).
  apply Matches_capture_number_inv in HM as (M & -> & HM' & ->).
  exists N, M. split; [|done]. by exists w1, d, w2.
Qed.

Lemma dash_Matches_intro s N M s' :
  dash_shape s N M s' → Matches c (source pattern_dash) s ∅ s' (volume_issue N M).
Proof.
  intros (w1 & d & w2 & -> & Hd & HN & HM & Hw1 & Hw2). cbn [source pattern_dash].
  eapply Matches_Seq; [by apply Matches_capture_number_intro|].
  eapply Matches_Seq; [by apply Matches_space_intro|].
  eapply Matches_Seq; [eapply Matches_Class; [exact Hd|by apply strip_prefix_Some]|].
  eapply Matches_Seq; [by apply Matches_space_intro|].
  by apply Matches_capture_number_intro.
Qed.

End pattern_shapes.

(** The [k]-th pattern finds a match in [text] exactly when [text] holds the
    [k]-th notation, and the groups of the match are numbers that [text]
    holds in that notation. *)
Lemma pattern_Matches k pattern text s s' caps :
  patterns !! k = Some pattern →
  Matches (ctx_of pattern text) (source pattern) s ∅ s' caps →
  ∃ N M, shape k s N M s' ∧ caps = volume_issue N M.
Proof.
  intros Hk HM.
  destruct k as [|[|[|[|k]]]]; simpl in Hk; try discriminate Hk; injection Hk as <-.
  - by apply paren_Matches in HM.
  - by apply (vol_no_Matches _ "vol" "no") in HM.
  - by apply (vol_no_Matches _ "v" "n") in HM.
  - by apply dash_Matches in HM.
Qed.

Lemma pattern_Matches_intro k pattern text s N M s' :
  patterns !! k = Some pattern → shape k s N M s' →
  Matches (ctx_of pattern text) (source pattern) s ∅ s' (volume_issue N M).
Proof.
  intros Hk Hs.
  destruct k as [|[|[|[|k]]]]; simpl in Hk; try discriminate Hk; injection Hk as <-.
  - by apply paren_Matches_intro.
  - by apply (vol_no_Matches_intro _ "vol" "no").
  - by apply (vol_no_Matches_intro _ "v" "n").
  - by apply dash_Matches_intro.
Qed.

Lemma exec_pattern_Some k pattern text mr :
  patterns !! k = Some pattern → exec pattern text = Some mr →
  ∃ N M, reads k text N M ∧ groups mr = volume_issue N M
         ∧ groups mr !! 1 = Some N ∧ groups mr !! 2 = Some M.
Proof.
  intros Hk (pre & s0 & s' & -> & HM & _)%exec_Some.
  apply (pattern_Matches k) in HM as (N & M & Hs & Hcaps); [|done].
  exists N, M. split; [by exists pre, s0, s'|]. split; [done|].
  rewrite Hcaps. unfold volume_issue. split.
  - by rewrite lookup_insert_ne, lookup_insert_eq.
  - by rewrite lookup_insert_eq.
Qed.

Lemma exec_pattern_is_Some k pattern text :
  patterns !! k = Some pattern → holds k text → is_Some (exec pattern text).
Proof.
  intros Hk (N & M & pre & s & rest & Ht & Hs).
  eapply exec_is_Some; [exact Ht|]. by eapply pattern_Matches_intro.
Qed.

Lemma exec_pattern_None k pattern text :
  patterns !! k = Some pattern → exec pattern text = None ↔ ¬ holds k text.
Proof.
  intros Hk. split.
  - intros HN Hh. destruct (exec_pattern_is_Some k pattern text Hk Hh) as [mr E].
    congruence.
  - intros Hn. destruct (exec pattern text) as [mr|] eqn:E; [|done].
    destruct (exec_pattern_Some k pattern text mr Hk E) as (N & M & Hr & _).
    destruct Hn. by exists N, M.
Qed.

(** ** The test for a plain number *)

Lemma Matches_Bol_inv c s caps s' caps' :
  Matches c Bol s caps s' caps' →
  s' = s ∧ caps' = caps ∧ String.length s = inputLength c.
Proof. inversion 1; subst. done. Qed.

Lemma Matches_Eol_inv c s caps s' caps' :
  Matches c Eol s caps s' caps' → s = "" ∧ s' = "" ∧ caps' = caps.
Proof. inversion 1; subst. done. Qed.

Lemma string_length_0 s : String.length s = 0 → s = "".
Proof. by destruct s. Qed.

(** [/^\d+$/] accepts the numbers. *)
Lemma test_all_digits text : test all_digits text = true ↔ number text.
Proof.
  unfold test. rewrite bool_decide_eq_true. split.
  - intros [mr (pre & s0 & s' & -> & HM & _)%exec_Some].
    cbn [source all_digits] in HM.
    apply Matches_Seq_inv in HM as (s1 & c1 & H1 & HM).
    apply Matches_Bol_inv in H1 as (-> & -> & Hlen). simpl in Hlen.
    rewrite string_length_app in Hlen.
    assert (pre = "") as -> by (apply string_length_0; lia).
    apply Matches_Seq_inv in HM as (s2 & c2 & H2 & HM).
    apply Matches_Eol_inv in HM as (-> & _ & _).
    apply Matches_Seq_inv in H2 as (s3 & c3 & H3 & H4).
    apply Matches_Class_inv in H3 as (-> & t & Hin & ->).
    apply Matches_Star_Class_inv in H4 as (_ & w & -> & Hw).
    rewrite string_app_nil_l, string_app_nil_r. split.
    + destruct t; [by destruct digits_nonempty|done].
    + by constructor.
  - intros [Hne Hm].
    destruct (made_of_nonempty digits text Hne Hm digits_nonempty)
      as (t & w & Hin & -> & Hw).
    apply (exec_is_Some all_digits (t +:+ w) "" (t +:+ w) "" ∅); [done|].
    cbn [source all_digits].
    eapply Matches_Seq; [by apply Matches_Bol|].
    eapply Matches_Seq; [|apply Matches_Eol].
    eapply Matches_Seq.
    + eapply Matches_Class; [exact Hin|]. by apply strip_prefix_Some.
    + pose proof (Matches_Star_Class_intro (ctx_of all_digits (t +:+ w)) digits w "" ∅
                    digits_nonempty Hw) as HS.
      by rewrite string_app_nil_r in HS.
Qed.

(** ** Greedy matching of a class and leftmost search *)

(** The matcher on a class of single characters, in front of a continuation
    that accepts: the class takes the character, and the loop of [r*] takes
    every character of the run. *)
Lemma m_Class_first {R} c toks t s' caps (k : string → captures → option R) x :
  (∀ t, t ∈ toks → String.length t = 1) → t ∈ toks → k s' caps = Some x →
  m c (Class toks) (t +:+ s') caps k = Some x.
Proof.
  intros Hsingle Hin Hk. cbn [m].
  induction toks as [|t0 toks IH]; [by apply elem_of_nil in Hin|].
  cbn [foldr]. destruct (strip_prefix t0 (t +:+ s')) as [s''|] eqn:E.
  - apply strip_prefix_Some in E.
    pose proof (Hsingle t0 (list_elem_of_here _ _)) as H0.
    pose proof (Hsingle t Hin) as H1.
    destruct t0 as [|a [|? ?]]; try discriminate H0.
    destruct t as [|b [|? ?]]; try discriminate H1.
    rewrite !string_app_cons, !string_app_nil_l in E.
    injection E as _ <-. by rewrite Hk.
  - apply elem_of_cons in Hin as [->|Hin].
    + assert (Hs : strip_prefix t0 (t0 +:+ s') = Some s') by (by apply strip_prefix_Some).
      congruence.
    + cbn [or_try]. apply IH; [|done]. intros t1 H1. apply Hsingle. by right.
Qed.

Lemma m_Class_none {R} c toks s caps (k : string → captures → option R) :
  Forall (λ t, strip_prefix t s = None) toks → m c (Class toks) s caps k = None.
Proof.
  cbn [m]. induction 1 as [|t toks Ht _ IH]; [done|].
  cbn [foldr]. by rewrite Ht.
Qed.

Lemma iterate_class_greedy {R} c toks rest caps (k : string → captures → option R) x :
  (∀ t, t ∈ toks → String.length t = 1) →
  Forall (λ t, strip_prefix t rest = None) toks →
  k rest caps = Some x →
  ∀ w, made_of toks w → ∀ fuel, (String.length (w +:+ rest) ≤ fuel)%nat →
  iterate (m c (Class toks)) k fuel (w +:+ rest) caps = Some x.
Proof.
  intros Hsingle Hrest Hk. induction 1 as [|t w Hin Hw IH]; intros fuel Hfuel.
  - rewrite string_app_nil_l. destruct fuel as [|fuel]; cbn [iterate]; [done|].
    by rewrite m_Class_none.
  - pose proof (Hsingle t Hin) as H1. rewrite string_app_assoc in *.
    rewrite (string_length_app t) in Hfuel.
    destruct fuel as [|fuel]; [lia|]. cbn [iterate].
    rewrite (m_Class_first c toks t (w +:+ rest) caps _ x); [done|done|done|].
    rewrite decide_True by (rewrite (string_length_app t); lia).
    apply IH. lia.
Qed.

Lemma m_Seq_eq {R} c r1 r2 s caps (k : string → captures → option R) :
  m c (Seq r1 r2) s caps k = m c r1 s caps (λ s' caps', m c r2 s' caps' k).
Proof. done. Qed.

Lemma m_Lit_eq {R} c l s caps (k : string → captures → option R) :
  m c (Lit l) s caps k = match strip_lit c l s with Some s' => k s' caps | None => None end.
Proof. done. Qed.

Lemma m_Group_eq {R} c n r s caps (k : string → captures → option R) :
  m c (Group n r) s caps k = m c r s caps (λ s' caps', k s' (<[n := consumed s s']> caps')).
Proof. done. Qed.

Lemma m_Star_eq {R} c r s caps (k : string → captures → option R) :
  m c (Star r) s caps k = iterate (m c r) k (String.length s) s caps.
Proof. done. Qed.

(** The search skips the positions at which the pattern does not match. *)
Lemma search_skip c r pre s0 : ∀ i,
  (∀ p q, pre = p +:+ q → q ≠ "" → match_at c r (i + String.length p) (q +:+ s0) = None) →
  search c r i (pre +:+ s0) = search c r (i + String.length pre) s0.
Proof.
  induction pre as [|a pre IH]; intros i Hskip.
  - rewrite string_app_nil_l. simpl. by rewrite Nat.add_0_r.
  - rewrite string_app_cons. cbn [search].
    pose proof (Hskip "" (String a pre) eq_refl) as H0. simpl in H0.
    rewrite Nat.add_0_r, string_app_cons in H0. rewrite H0 by done.
    rewrite IH.
    + simpl. f_equal. lia.
    + intros p q -> Hq. specialize (Hskip (String a p) q eq_refl Hq).
      simpl in Hskip. by replace (S i + String.length p) with (i + S (String.length p)) by lia.
Qed.

Lemma app_prefix_split a b x y :
  a +:+ b = x +:+ y → (String.length x ≤ String.length a)%nat → ∃ z, a = x +:+ z.
Proof.
  revert x. induction a as [|ch a IH]; intros x Heq Hlen.
  - simpl in Hlen. assert (x = "") as -> by (apply string_length_0; lia). by exists "".
  - destruct x as [|ch' x]; [by exists (String ch a)|].
    rewrite !string_app_cons in Heq. injection Heq as -> Heq.
    simpl in Hlen. destruct (IH x Heq) as [z ->]; [lia|]. by exists z.
Qed.

(** ** The last number of a pattern is a whole run of digits *)

Lemma strip_token_None toks s :
  strip_token toks s = None ↔ Forall (λ t, strip_prefix t s = None) toks.
Proof.
  induction toks as [|t toks IH]; cbn [strip_token].
  - split; [constructor|done].
  - rewrite Forall_cons. destruct (strip_prefix t s) as [r|].
    + split; [done|]. by intros [? _].
    + rewrite IH. tauto.
Qed.

Lemma strip_token_is_Some toks t x : t ∈ toks → is_Some (strip_token toks (t +:+ x)).
Proof.
  intros Hin. destruct (strip_token toks (t +:+ x)) as [r|] eqn:E; [done|].
  apply strip_token_None in E. rewrite Forall_forall in E. specialize (E t Hin).
  assert (Hs : strip_prefix t (t +:+ x) = Some x) by (by apply strip_prefix_Some).
  congruence.
Qed.

Lemma digits_single t : t ∈ digits → String.length t = 1.
Proof. revert t. apply Forall_forall. by apply (bool_decide_unpack _). Qed.

(** Every text is a run of digits, as long as can be, and a rest. *)
Lemma digits_span s :
  ∃ M rest, s = M +:+ rest ∧ made_of digits M ∧ strip_token digits rest = None.
Proof.
  induction s as [|a s IH].
  - exists "", "". split; [done|]. split; [constructor|done].
  - destruct (strip_token digits (String a s)) as [r|] eqn:E.
    + apply strip_token_Some in E as (t & Hin & Ht).
      pose proof (digits_single t Hin) as H1.
      destruct t as [|b [|? ?]]; try discriminate H1.
      rewrite string_app_cons, string_app_nil_l in Ht. injection Ht as -> ->.
      destruct IH as (M & rest & -> & HM & Hrest).
      exists (String b M), rest. split; [done|]. split; [|done].
      change (String b M) with (String b "" +:+ M). by constructor.
    + exists "", (String a s). split; [done|]. split; [constructor|done].
Qed.

Lemma ends_whole_Seq {R} c (k0 : string → captures → option R) r1 r2 :
  ends_whole c k0 r2 → ends_whole c k0 (Seq r1 r2).
Proof.
  intros H2 s caps x Hm. rewrite m_Seq_eq in Hm.
  apply m_sound in Hm as (s1 & caps1 & HM1 & Hm).
  apply H2 in Hm as (s2 & caps2 & HM2 & Hk & Hd).
  exists s2, caps2. split; [by eapply Matches_Seq|done].
Qed.

Lemma ends_whole_capture_number {R} c (k0 : string → captures → option R) n :
  (∀ s caps, is_Some (k0 s caps)) → ends_whole c k0 (capture_number n).
Proof.
  intros Hk0 s caps x Hm.
  destruct (digits_span s) as (M & rest & -> & HM & Hrest).
  assert (HMne : M ≠ "").
  { intros ->. rewrite string_app_nil_l in Hm.
    apply m_sound in Hm as (s1 & caps1 & HM1 & _).
    apply Matches_capture_number_inv in HM1 as (N & -> & [HN HNm] & _).
    destruct (made_of_nonempty digits N HN HNm digits_nonempty) as (t & w & Hin & -> & _).
    destruct (strip_token_is_Some digits t (w +:+ s1) Hin) as [r E].
    rewrite string_app_assoc in Hrest. congruence. }
  destruct (made_of_nonempty digits M HMne HM digits_nonempty) as (t & w & Hin & -> & Hw).
  destruct (Hk0 rest (<[n := t +:+ w]> caps)) as [y Hy].
  assert (Hrun : m c (capture_number n) ((t +:+ w) +:+ rest) caps k0 = Some y).
  { unfold capture_number, Plus, digit.
    rewrite m_Group_eq, m_Seq_eq, (string_app_assoc t w rest).
    erewrite (m_Class_first c digits t (w +:+ rest));
      [reflexivity|apply digits_single|done|].
    rewrite m_Star_eq. erewrite iterate_class_greedy;
      [reflexivity|apply digits_single|by apply strip_token_None| |done|done].
    cbv beta. rewrite <- (string_app_assoc t w rest), consumed_app. exact Hy. }
  exists rest, (<[n := t +:+ w]> caps).
  split; [by apply Matches_capture_number_intro|]. split; [congruence|done].
Qed.

(** The search returns the match at the first position that has one. *)
Lemma search_first c r s : ∀ i mr,
  search c r i s = Some mr →
  ∃ pre s0, s = pre +:+ s0
    ∧ match_at c r (i + String.length pre) s0 = Some mr
    ∧ ∀ p q, pre = p +:+ q → q ≠ "" →
        match_at c r (i + String.length p) (q +:+ s0) = None.
Proof.
  induction s as [|a s IH]; intros i mr; cbn [search].
  - destruct (match_at c r i "") as [res|] eqn:E; [|discriminate].
    intros [= <-]. exists "", "". simpl. rewrite Nat.add_0_r.
    split; [done|]. split; [done|]. intros p q Hp Hq. by destruct p, q.
  - destruct (match_at c r i (String a s)) as [res|] eqn:E.
    + intros [= <-]. exists "", (String a s). simpl. rewrite Nat.add_0_r.
      split; [done|]. split; [done|]. intros p q Hp Hq. by destruct p, q.
    + intros (pre & s0 & -> & Hat & Hleft)%IH. exists (String a pre), s0.
      split; [done|]. split.
      * simpl. by replace (i + S (String.length pre)) with (S i + String.length pre) by lia.
      * intros [|b p] q Hp Hq.
        -- rewrite string_app_nil_l in Hp. subst q. simpl. by rewrite Nat.add_0_r.
        -- rewrite string_app_cons in Hp. injection Hp as <- ->. simpl.
           replace (i + S (String.length p)) with (S i + String.length p) by lia.
           by apply Hleft.
Qed.

(** The match of the [k]-th pattern that [exec] returns is at the first
    place where the text holds the [k]-th notation, and its last number is
    a whole run of digits. *)
Lemma exec_pattern_first k pattern text mr :
  patterns !! k = Some pattern → exec pattern text = Some mr →
  ∃ N M, reads_first k text N M
         ∧ groups mr !! 1 = Some N ∧ groups mr !! 2 = Some M.
Proof.
  intros Hk He. unfold exec in He.
  apply search_first in He as (pre & s0 & Ht & Hat & Hleft).
  fold (ctx_of pattern text) in Hat, Hleft.
  assert (Hend : ∃ s', Matches (ctx_of pattern text) (source pattern) s0 ∅ s' (groups mr)
                       ∧ (k ≠ 0 → strip_token digits s' = None)).
  { destruct k as [|k].
    - apply match_at_Some in Hat as (s' & HM & _). exists s'. by split.
    - unfold match_at in Hat.
      assert (Hw : ends_whole (ctx_of pattern text)
                     (λ s' caps, Some {| index := 0 + String.length pre;
                                         matched := consumed s0 s';
                                         groups := caps |})
                     (source pattern)).
      { destruct k as [|[|[|k]]]; simpl in Hk; try discriminate Hk; injection Hk as <-;
          cbn [source pattern_vol_no pattern_v_n pattern_dash];
          repeat apply ends_whole_Seq; apply ends_whole_capture_number; intros; eauto. }
      apply Hw in Hat as (s' & caps' & HM & [= <-] & Hd). exists s'. by split. }
  destruct Hend as (s' & HM & Hd).
  apply (pattern_Matches k) in HM as (N & M & Hs & Hcaps); [|done].
  exists N, M. split.
  - exists pre, s0, s'. split; [done|]. split; [done|]. split; [done|].
    intros p q Hp Hq (N' & M' & rest' & Hs').
    specialize (Hleft p q Hp Hq).
    destruct (match_at_is_Some (ctx_of pattern text) (source pattern)
                (0 + String.length p) (q +:+ s0) rest' (volume_issue N' M')) as [x Hx];
      [by eapply pattern_Matches_intro|congruence].
  - rewrite Hcaps. unfold volume_issue. split.
    + by rewrite lookup_insert_ne, lookup_insert_eq.
    + by rewrite lookup_insert_eq.
Qed.

(** ** The numbers of a notation are determined by the text *)

Lemma string_app_inv_head a x y : a +:+ x = a +:+ y → x = y.
Proof.
  induction a as [|ch a IH]; [by rewrite !string_app_nil_l|].
  rewrite !string_app_cons. intros [= H]. by apply IH.
Qed.

Lemma string_app_inj_length a b a' b' :
  a +:+ b = a' +:+ b' → String.length a = String.length a' → a = a' ∧ b = b'.
Proof.
  revert a'. induction a as [|ch a IH]; intros [|ch' a'] Heq Hlen; try discriminate Hlen.
  - by rewrite !string_app_nil_l in Heq.
  - rewrite !string_app_cons in Heq. injection Heq as -> Heq. injection Hlen as Hlen.
    destruct (IH a' Heq Hlen) as [-> ->]. done.
Qed.

(** No character of the class is the start of another one. *)
Lemma prefix_free_check toks :
  Forall (λ a, Forall (λ b, strip_prefix b a = None ∨ b = a) toks) toks →
  ∀ t t' x x', t ∈ toks → t' ∈ toks → t +:+ x = t' +:+ x' → t = t' ∧ x = x'.
Proof.
  intros Htable t t' x x' Ht Ht' Heq.
  assert (t = t') as <-.
  { rewrite Forall_forall in Htable.
    destruct (le_ge_dec (String.length t') (String.length t)) as [Hle|Hge].
    - destruct (app_prefix_split t x t' x' Heq Hle) as [z Hz].
      pose proof (Htable t Ht) as Hrow. rewrite Forall_forall in Hrow.
      destruct (Hrow t' Ht') as [Hnone|Hsame]; [|done].
      apply strip_prefix_Some in Hz. congruence.
    - destruct (app_prefix_split t' x' t x (eq_sym Heq) Hge) as [z Hz].
      pose proof (Htable t' Ht') as Hrow. rewrite Forall_forall in Hrow.
      destruct (Hrow t Ht) as [Hnone|Hsame]; [|done].
      apply strip_prefix_Some in Hz. congruence. }
  split; [done|]. by apply string_app_inv_head in Heq.
Qed.

Lemma white_space_prefix_free t t' x x' :
  t ∈ white_space → t' ∈ white_space → t +:+ x = t' +:+ x' → t = t' ∧ x = x'.
Proof. apply prefix_free_check. by apply (bool_decide_unpack _). Qed.

Lemma digits_prefix_free t t' x x' :
  t ∈ digits → t' ∈ digits → t +:+ x = t' +:+ x' → t = t' ∧ x = x'.
Proof. apply prefix_free_check. by apply (bool_decide_unpack _). Qed.

Lemma dashes_prefix_free t t' x x' :
  t ∈ dashes → t' ∈ dashes → t +:+ x = t' +:+ x' → t = t' ∧ x = x'.
Proof. apply prefix_free_check. by apply (bool_decide_unpack _). Qed.

(** A run of characters of a class in front of a text that does not go on
    with the class is determined by the whole. *)
Lemma run_unique toks w w' r r' :
  (∀ t t' x x', t ∈ toks → t' ∈ toks → t +:+ x = t' +:+ x' → t = t' ∧ x = x') →
  made_of toks w → made_of toks w' → w +:+ r = w' +:+ r' →
  strip_token toks r = None → strip_token toks r' = None →
  w = w' ∧ r = r'.
Proof.
  intros Hfree Hw. revert w'.
  induction Hw as [|t w Ht Hw IH]; intros w' Hw' Heq Hr Hr'.
  - destruct Hw' as [|t' w' Ht' Hw']; [by rewrite !string_app_nil_l in Heq|].
    rewrite string_app_nil_l, string_app_assoc in Heq. subst r.
    destruct (strip_token_is_Some toks t' (w' +:+ r') Ht') as [? E]. congruence.
  - destruct Hw' as [|t' w' Ht' Hw'].
    + rewrite string_app_nil_l, string_app_assoc in Heq. subst r'.
      destruct (strip_token_is_Some toks t (w +:+ r) Ht) as [? E]. congruence.
    + rewrite !string_app_assoc in Heq.
      destruct (Hfree t t' _ _ Ht Ht' Heq) as [<- Heq'].
      destruct (IH w' Hw' Heq' Hr Hr') as [<- <-]. done.
Qed.

Lemma number_unique N N' r r' :
  number N → number N' → N +:+ r = N' +:+ r' →
  strip_token digits r = None → strip_token digits r' = None →
  N = N' ∧ r = r'.
Proof. intros [_ HN] [_ HN']. by apply run_unique; [apply digits_prefix_free|..]. Qed.

Lemma blank_unique w w' r r' :
  blank w → blank w' → w +:+ r = w' +:+ r' →
  strip_token white_space r = None → strip_token white_space r' = None →
  w = w' ∧ r = r'.
Proof. by apply run_unique; [apply white_space_prefix_free|..]. Qed.

(** What a run of white space, a number, a dash and a letter are not
    followed by. *)
Lemma blank_then_no_digit w y :
  blank w → strip_token digits y = None → strip_token digits (w +:+ y) = None.
Proof.
  intros Hw Hy. destruct Hw as [|t w Ht Hw]; [by rewrite string_app_nil_l|].
  rewrite string_app_assoc. clear Hw Hy. vm_compute in Ht.
  repeat (apply elem_of_cons in Ht as [->|Ht]); try reflexivity.
  by apply elem_of_nil in Ht.
Qed.

Lemma blank_then_no_dot w y :
  blank w → strip_prefix "." y = None → strip_prefix "." (w +:+ y) = None.
Proof.
  intros Hw Hy. destruct Hw as [|t w Ht Hw]; [by rewrite string_app_nil_l|].
  rewrite string_app_assoc. clear Hw Hy. vm_compute in Ht.
  repeat (apply elem_of_cons in Ht as [->|Ht]); try reflexivity.
  by apply elem_of_nil in Ht.
Qed.

Lemma number_no_space N y : number N → strip_token white_space (N +:+ y) = None.
Proof.
  intros [Hne Hm].
  destruct (made_of_nonempty digits N Hne Hm digits_nonempty) as (t & w & Hin & -> & _).
  rewrite string_app_assoc. unfold digits in Hin.
  repeat (apply elem_of_cons in Hin as [->|Hin]); try reflexivity.
  by apply elem_of_nil in Hin.
Qed.

Lemma number_no_dot N y : number N → strip_prefix "." (N +:+ y) = None.
Proof.
  intros [Hne Hm].
  destruct (made_of_nonempty digits N Hne Hm digits_nonempty) as (t & w & Hin & -> & _).
  rewrite string_app_assoc. unfold digits in Hin.
  repeat (apply elem_of_cons in Hin as [->|Hin]); try reflexivity.
  by apply elem_of_nil in Hin.
Qed.

Lemma dash_no_space d y : d ∈ dashes → strip_token white_space (d +:+ y) = None.
Proof.
  intros Hd. vm_compute in Hd.
  repeat (apply elem_of_cons in Hd as [->|Hd]); try reflexivity.
  by apply elem_of_nil in Hd.
Qed.

Lemma dash_no_digit d y : d ∈ dashes → strip_token digits (d +:+ y) = None.
Proof.
  intros Hd. vm_compute in Hd.
  repeat (apply elem_of_cons in Hd as [->|Hd]); try reflexivity.
  by apply elem_of_nil in Hd.
Qed.

Lemma letter_n_first a n y :
  upper_ascii a = "N"%char →
  strip_token white_space (String a n +:+ y) = None
  ∧ strip_token digits (String a n +:+ y) = None.
Proof.
  intros Ha.
  assert (a = "n"%char ∨ a = "N"%char) as [-> | ->].
  { destruct a as [[] [] [] [] [] [] [] []]; vm_compute in Ha; try discriminate Ha; auto. }
  all: split; reflexivity.
Qed.

Lemma opt_dot_unique d d' x x' :
  opt_dot d → opt_dot d' → strip_prefix "." x = None → strip_prefix "." x' = None →
  d +:+ x = d' +:+ x' → d = d' ∧ x = x'.
Proof.
  intros [->| ->] [->| ->] Hx Hx' Heq; rewrite ?string_app_nil_l in Heq.
  - done.
  - subst x. rewrite string_app_cons, string_app_nil_l in Hx. cbn in Hx. discriminate Hx.
  - subst x'. rewrite string_app_cons, string_app_nil_l in Hx'. cbn in Hx'. discriminate Hx'.
  - split; [done|]. by apply string_app_inv_head in Heq.
Qed.

Lemma paren_shape_unique s N M rest N' M' rest' :
  paren_shape s N M rest → paren_shape s N' M' rest' → N = N' ∧ M = M'.
Proof.
  intros (w1 & w2 & w3 & -> & HN & HM & Hw1 & Hw2 & Hw3)
         (w1' & w2' & w3' & Heq & HN' & HM' & Hw1' & Hw2' & Hw3').
  apply number_unique in Heq as [<- Heq];
    [|done|done|by apply blank_then_no_digit..].
  apply blank_unique in Heq as [<- Heq]; [|done|done|reflexivity..].
  apply string_app_inv_head in Heq.
  apply blank_unique in Heq as [<- Heq]; [|done|done|by apply number_no_space..].
  apply number_unique in Heq as [<- Heq];
    [|done|done|by apply blank_then_no_digit..].
  done.
Qed.

Lemma dash_shape_unique s N M rest N' M' rest' :
  dash_shape s N M rest → dash_shape s N' M' rest' →
  strip_token digits rest = None → strip_token digits rest' = None →
  N = N' ∧ M = M'.
Proof.
  intros (w1 & d & w2 & -> & Hd & HN & HM & Hw1 & Hw2)
         (w1' & d' & w2' & Heq & Hd' & HN' & HM' & Hw1' & Hw2') Hr Hr'.
  apply number_unique in Heq as [<- Heq];
    [|done|done|by apply blank_then_no_digit, dash_no_digit..].
  apply blank_unique in Heq as [<- Heq]; [|done|done|by apply dash_no_space..].
  apply dashes_prefix_free in Heq as [<- Heq]; [|done..].
  apply blank_unique in Heq as [<- Heq]; [|done|done|by apply number_no_space..].
  apply number_unique in Heq as [<- Heq]; done.
Qed.

Lemma vol_no_shape_unique vol no s N M rest N' M' rest' :
  (∀ n, eq_ignore_case n no → ∃ a n', n = String a n' ∧ upper_ascii a = "N"%char) →
  vol_no_shape vol no s N M rest → vol_no_shape vol no s N' M' rest' →
  strip_token digits rest = None → strip_token digits rest' = None →
  N = N' ∧ M = M'.
Proof.
  intros Hno (v & d1 & w1 & w2 & n & d2 & w3 & -> & Hv & Hn & Hd1 & Hd2
              & HN & HM & Hw1 & Hw2 & Hw3)
         (v' & d1' & w1' & w2' & n' & d2' & w3' & Heq & Hv' & Hn' & Hd1' & Hd2'
          & HN' & HM' & Hw1' & Hw2' & Hw3') Hr Hr'.
  destruct (Hno n Hn) as (a & l & -> & Ha).
  destruct (Hno n' Hn') as (a' & l' & -> & Ha').
  apply string_app_inj_length in Heq as [<- Heq].
  2: { unfold eq_ignore_case in Hv, Hv'.
       rewrite <- (map_string_length upper_ascii v), Hv, <- Hv'.
       apply map_string_length. }
  apply opt_dot_unique in Heq as [<- Heq];
    [|done|done|by apply blank_then_no_dot, number_no_dot..].
  apply blank_unique in Heq as [<- Heq]; [|done|done|by apply number_no_space..].
  apply number_unique in Heq as [<- Heq];
    [|done|done|by apply blank_then_no_digit, letter_n_first..].
  apply blank_unique in Heq as [<- Heq]; [|done|done|by apply letter_n_first..].
  apply string_app_inj_length in Heq as [_ Heq].
  2: { unfold eq_ignore_case in Hn, Hn'.
       rewrite <- (map_string_length upper_ascii (String a l)), Hn, <- Hn'.
       apply map_string_length. }
  apply opt_dot_unique in Heq as [<- Heq];
    [|done|done|by apply blank_then_no_dot, number_no_dot..].
  apply blank_unique in Heq as [<- Heq]; [|done|done|by apply number_no_space..].
  apply number_unique in Heq as [<- Heq]; done.
Qed.

Lemma letter_n_of no :
  no = "no" ∨ no = "n" →
  ∀ n, eq_ignore_case n no → ∃ a n', n = String a n' ∧ upper_ascii a = "N"%char.
Proof.
  intros Hno n Hn. unfold eq_ignore_case in Hn.
  destruct n as [|a n']; [by destruct Hno as [-> | ->]|].
  exists a, n'. split; [done|].
  destruct Hno as [-> | ->]; cbn [map_string] in Hn; by injection Hn.
Qed.

Lemma shape_unique k s N M rest N' M' rest' :
  shape k s N M rest → shape k s N' M' rest' →
  (k ≠ 0 → strip_token digits rest = None) →
  (k ≠ 0 → strip_token digits rest' = None) →
  N = N' ∧ M = M'.
Proof.
  intros Hs Hs' Hr Hr'. destruct k as [|[|[|[|k]]]]; cbn [shape] in Hs, Hs'.
  - by eapply paren_shape_unique.
  - eapply (vol_no_shape_unique "vol" "no"); eauto. apply letter_n_of. by left.
  - eapply (vol_no_shape_unique "v" "n"); eauto. apply letter_n_of. by right.
  - eapply dash_shape_unique; eauto.
  - done.
Qed.

(** The place is determined too: two first places are the same place. *)
Lemma reads_first_unique k text N M N' M' :
  reads_first k text N M → reads_first k text N' M' → N = N' ∧ M = M'.
Proof.
  intros (pre & s & rest & -> & Hs & Hd & Hleft)
         (pre' & s' & rest' & Heq & Hs' & Hd' & Hleft').
  assert (Hsame : pre = pre' ∧ s = s').
  { destruct (lt_eq_lt_dec (String.length pre) (String.length pre')) as [[Hlt|Hlen]|Hgt].
    - destruct (app_prefix_split pre' s' pre s (eq_sym Heq)) as [z Hz]; [lia|].
      subst pre'. rewrite string_app_assoc in Heq. apply string_app_inv_head in Heq.
      destruct (Hleft' pre z eq_refl).
      + intros ->. rewrite string_app_nil_r in Hlt. lia.
      + rewrite <- Heq. eauto.
    - by apply string_app_inj_length.
    - destruct (app_prefix_split pre s pre' s' Heq) as [z Hz]; [lia|].
      subst pre. rewrite string_app_assoc in Heq. apply string_app_inv_head in Heq.
      destruct (Hleft pre' z eq_refl).
      + intros ->. rewrite string_app_nil_r in Hgt. lia.
      + rewrite Heq. eauto. }
  destruct Hsame as [<- <-]. by eapply shape_unique.
Qed.

(** ** parseVolumeIssue *)

Lemma first_match_Some ps text r :
  first_match ps text = Some r ↔
  ∃ k pattern mr,
    ps !! k = Some pattern ∧ exec pattern text = Some mr
    ∧ (∀ j p, j < k → ps !! j = Some p → exec p text = None)
    ∧ r = {| vi_volume := groups mr !! 1; vi_issue := groups mr !! 2 |}.
Proof.
  induction ps as [|p0 ps IH]; cbn [first_match].
  - split; [discriminate|]. by intros (k & pattern & mr & Hk & _).
  - destruct (exec p0 text) as [mr0|] eqn:E0.
    + split.
      * intros [= <-]. exists 0, p0, mr0. repeat split; try done. intros j p Hj. lia.
      * intros (k & pattern & mr & Hk & He & Hbefore & ->).
        destruct k as [|k].
        -- injection Hk as <-. congruence.
        -- specialize (Hbefore 0 p0 ltac:(lia) eq_refl). congruence.
    + rewrite IH. split.
      * intros (k & pattern & mr & Hk & He & Hbefore & ->).
        exists (S k), pattern, mr. repeat split; try done.
        intros [|j] p Hj Hp; [by injection Hp as <-|].
        apply (Hbefore j p); [lia|done].
      * intros (k & pattern & mr & Hk & He & Hbefore & ->).
        destruct k as [|k]; [injection Hk as <-; congruence|].
        exists k, pattern, mr. repeat split; try done.
        intros j p Hj Hp. apply (Hbefore (S j) p); [lia|done].
Qed.

Lemma first_match_None ps text :
  first_match ps text = None ↔ ∀ k p, ps !! k = Some p → exec p text = None.
Proof.
  induction ps as [|p0 ps IH]; cbn [first_match].
  - split; [|done]. by intros _ k p.
  - destruct (exec p0 text) as [mr0|] eqn:E0.
    + split; [discriminate|]. intros H. specialize (H 0 p0 eq_refl). congruence.
    + rewrite IH. split.
      * intros H [|k] p Hk; [by injection Hk as <-|]. by apply (H k).
      * intros H k p Hk. by apply (H (S k)).
Qed.

Lemma patterns_lookup k : k < 4 → ∃ pattern, patterns !! k = Some pattern.
Proof. intros Hk. apply lookup_lt_is_Some. simpl. lia. Qed.

Lemma patterns_lookup_lt k pattern : patterns !! k = Some pattern → k < 4.
Proof. intros Hk%lookup_lt_Some. simpl in Hk. lia. Qed.

(** The empty text holds none of the notations. *)
Lemma holds_empty k : k < 4 → ¬ holds k "".
Proof.
  intros Hk. destruct (patterns_lookup k Hk) as [pattern Hp].
  apply (exec_pattern_None k pattern "" Hp).
  destruct k as [|[|[|[|k]]]]; [| | | |lia]; injection Hp as <-; reflexivity.
Qed.

Lemma not_number_empty : ¬ number "".
Proof. by intros [? _]. Qed.

(** What [parseVolumeIssue] computes on a string, through the trimmed text. *)
Lemma parseVolumeIssue_text cell :
  parseVolumeIssue (VStr cell) =
  match first_match patterns (trim cell) with
  | Some r => r
  | None =>
      if test all_digits (trim cell)
      then {| vi_volume := Some (trim cell); vi_issue := None |}
      else {| vi_volume := None; vi_issue := None |}
  end.
Proof.
  unfold parseVolumeIssue. case_decide as Hc; [|done]. subst cell. reflexivity.
Qed.

(** C8. On every string, [parseVolumeIssue] tries the four notations in
    order on the trimmed text: the first one the text holds decides the
    result. The volume [N] and the issue [M] returned are those the text
    holds in that notation at the first place where it holds it, each a
    whole run of digits, and no other numbers fit that description. When
    the text holds none of the notations and is a number, the text is the
    volume and there is no issue; otherwise there is neither. *)
Theorem parseVolumeIssue_spec (cell : string) :
  (∀ k, k < 4 → (∀ j, j < k → ¬ holds j (trim cell)) → holds k (trim cell) →
     ∃ N M, reads_first k (trim cell) N M
       ∧ (∀ N' M', reads_first k (trim cell) N' M' → N' = N ∧ M' = M)
       ∧ parseVolumeIssue (VStr cell) = {| vi_volume := Some N; vi_issue := Some M |})
  ∧ ((∀ k, k < 4 → ¬ holds k (trim cell)) → number (trim cell) →
       parseVolumeIssue (VStr cell) = {| vi_volume := Some (trim cell); vi_issue := None |})
  ∧ ((∀ k, k < 4 → ¬ holds k (trim cell)) → ¬ number (trim cell) →
       parseVolumeIssue (VStr cell) = {| vi_volume := None; vi_issue := None |})
  ∧ parseVolumeIssue (VStr "12(3)") = {| vi_volume := Some "12"; vi_issue := Some "3" |}
  ∧ parseVolumeIssue (VStr "vol. 5 no. 2") = {| vi_volume := Some "5"; vi_issue := Some "2" |}
  ∧ parseVolumeIssue (VStr "45") = {| vi_volume := Some "45"; vi_issue := None |}
  ∧ parseVolumeIssue (VStr "abc") = {| vi_volume := None; vi_issue := None |}.
Proof.
  rewrite parseVolumeIssue_text.
  split; [|split; [|split; [|repeat split; reflexivity]]].
  - intros k Hk Hbefore Hholds.
    destruct (patterns_lookup k Hk) as [pattern Hp].
    destruct (exec_pattern_is_Some k pattern _ Hp Hholds) as [mr He].
    destruct (exec_pattern_first k pattern _ mr Hp He) as (N & M & Hr & H1 & H2).
    exists N, M. split; [done|]. split.
    { intros N' M' Hr'. by destruct (reads_first_unique k _ N M N' M' Hr Hr') as [-> ->]. }
    assert (Hf : first_match patterns (trim cell)
                 = Some {| vi_volume := groups mr !! 1; vi_issue := groups mr !! 2 |}).
    { apply first_match_Some. exists k, pattern, mr. repeat split; try done.
      intros j p Hj Hpj. apply (exec_pattern_None j p _ Hpj). by apply Hbefore. }
    by rewrite Hf, H1, H2.
  - intros Hnone Hnum.
    assert (Hf : first_match patterns (trim cell) = None).
    { apply first_match_None. intros k p Hp. apply (exec_pattern_None k p _ Hp).
      apply Hnone. by eapply patterns_lookup_lt. }
    rewrite Hf. apply test_all_digits in Hnum. by rewrite Hnum.
  - intros Hnone Hnum.
    assert (Hf : first_match patterns (trim cell) = None).
    { apply first_match_None. intros k p Hp. apply (exec_pattern_None k p _ Hp).
      apply Hnone. by eapply patterns_lookup_lt. }
    rewrite Hf. destruct (test all_digits (trim cell)) eqn:Ht; [|done].
    by apply test_all_digits in Ht.
Qed.

Lemma number_12 : number "12".
Proof.
  split; [done|].
  apply (made_of_cons digits "1" "2"); [by apply (bool_decide_unpack _)|].
  apply (made_of_cons digits "2" ""); [by apply (bool_decide_unpack _)|].
  constructor.
Qed.

Lemma number_3 : number "3".
Proof.
  split; [done|].
  apply (made_of_cons digits "3" ""); [by apply (bool_decide_unpack _)|].
  constructor.
Qed.

Lemma parseVolumeIssue_spec_witness :
  holds 0 (trim "12(3)")
  ∧ ∃ N M, reads_first 0 (trim "12(3)") N M
      ∧ (∀ N' M', reads_first 0 (trim "12(3)") N' M' → N' = N ∧ M' = M)
      ∧ parseVolumeIssue (VStr "12(3)") = {| vi_volume := Some N; vi_issue := Some M |}.
Proof.
  assert (Hholds : holds 0 (trim "12(3)")).
  { exists "12", "3", "", "12(3)", "". split; [reflexivity|].
    exists "", "", "". split; [reflexivity|].
    repeat split; try done; try apply number_12; try apply number_3; constructor. }
  split; [exact Hholds|].
  destruct (parseVolumeIssue_spec "12(3)") as (Hfirst & _).
  apply (Hfirst 0); [lia| |exact Hholds].
  intros j Hj. lia.
Defined.

(** C10. The result of [parseVolumeIssue] has an issue only together with a
    volume: it is a volume and an issue, a volume alone, or neither. *)
Theorem parseVolumeIssue_issue_needs_volume (cell : value) :
  ((∃ N M, parseVolumeIssue cell = {| vi_volume := Some N; vi_issue := Some M |})
   ∨ (∃ N, parseVolumeIssue cell = {| vi_volume := Some N; vi_issue := None |})
   ∨ parseVolumeIssue cell = {| vi_volume := None; vi_issue := None |})
  ∧ (vi_issue (parseVolumeIssue cell) ≠ None → vi_volume (parseVolumeIssue cell) ≠ None).
Proof.
  assert (Hshape :
    (∃ N M, parseVolumeIssue cell = {| vi_volume := Some N; vi_issue := Some M |})
    ∨ (∃ N, parseVolumeIssue cell = {| vi_volume := Some N; vi_issue := None |})
    ∨ parseVolumeIssue cell = {| vi_volume := None; vi_issue := None |}).
  { destruct cell as [| | | |c|]; try (by right; right).
    rewrite parseVolumeIssue_text.
    destruct (first_match patterns (trim c)) as [r|] eqn:Hf.
    - apply first_match_Some in Hf as (k & pattern & mr & Hk & He & _ & ->).
      destruct (exec_pattern_Some k pattern _ mr Hk He) as (N & M & _ & _ & -> & ->).
      left. by exists N, M.
    - destruct (test all_digits (trim c)); [right; left; eauto|by right; right]. }
  split; [exact Hshape|].
  destruct Hshape as [(N & M & ->)|[(N & ->)| ->]]; simpl; done.
Qed.

Lemma parseVolumeIssue_issue_needs_volume_witness :
  vi_issue (parseVolumeIssue (VStr "12(3)")) ≠ None
  ∧ vi_volume (parseVolumeIssue (VStr "12(3)")) ≠ None.
Proof.
  assert (H : vi_issue (parseVolumeIssue (VStr "12(3)")) ≠ None) by (vm_compute; done).
  split; [exact H|].
  exact (proj2 (parseVolumeIssue_issue_needs_volume (VStr "12(3)")) H).
Defined.

(** ** The identifier fields *)

Lemma cut_at_start p r :
  String.substring 0 0 (p +:+ r) +:+ "" +:+
    String.substring (0 + String.length p)
      (String.length (p +:+ r) - (0 + String.length p)) (p +:+ r) = r.
Proof.
  rewrite string_length_app, Nat.add_0_l.
  replace (String.length p + String.length r - String.length p)
    with (String.length r) by lia.
  rewrite substring_length_app. by destruct (p +:+ r).
Qed.

(** [replace(/^https?:\/\/doi\.org\//, '')] removes a leading
    [https://doi.org/] or [http://doi.org/] and nothing else. *)
Lemma replace_doi_prefix v : replace v doi_prefix "" = strip_doi_org v.
Proof.
  unfold replace. destruct (exec doi_prefix v) as [mr|] eqn:E.
  - apply exec_Some in E as (pre & s0 & s' & -> & HM & Hi & Hm).
    cbn [source doi_prefix] in HM.
    apply Matches_Seq_inv in HM as (s1 & c1 & H1 & HM).
    apply Matches_Bol_inv in H1 as (-> & -> & Hlen). simpl in Hlen.
    rewrite string_length_app in Hlen.
    assert (pre = "") as -> by (apply string_length_0; lia).
    apply Matches_Seq_inv in HM as (s2 & c2 & H2 & HM).
    apply Matches_Lit_exact in H2 as (-> & ->); [|done].
    apply Matches_Seq_inv in HM as (s3 & c3 & H3 & HM).
    apply Matches_Lit_exact in HM as (_ & ->); [|done].
    rewrite string_app_nil_l in *. simpl in Hi.
    apply Matches_Opt_inv in H3 as [H3|[Hs _]].
    + apply Matches_Lit_exact in H3 as (_ & ->); [|done].
      change ("http" +:+ "s" +:+ "://doi.org/" +:+ s')
        with ("https://doi.org/" +:+ s') in *.
      rewrite consumed_app in Hm. rewrite Hi, Hm. apply cut_at_start.
    + subst s2.
      change ("http" +:+ "://doi.org/" +:+ s') with ("http://doi.org/" +:+ s') in *.
      rewrite consumed_app in Hm. rewrite Hi, Hm. apply cut_at_start.
  - unfold strip_doi_org.
    destruct (strip_prefix "https://doi.org/" v) as [r|] eqn:E1.
    + apply strip_prefix_Some in E1 as ->.
      destruct (exec_is_Some doi_prefix ("https://doi.org/" +:+ r) ""
                  ("https://doi.org/" +:+ r) r ∅ eq_refl) as [mr Hmr]; [|congruence].
      cbn [source doi_prefix].
      eapply Matches_Seq; [by apply Matches_Bol|].
      eapply (Matches_Seq _ _ _ _ ("s://doi.org/" +:+ r));
        [by apply (Matches_Lit_intro _ "http" "http")|].
      eapply (Matches_Seq _ _ _ _ ("://doi.org/" +:+ r));
        [apply Matches_Opt_some; by apply (Matches_Lit_intro _ "s" "s")|].
      by apply (Matches_Lit_intro _ "://doi.org/" "://doi.org/").
    + destruct (strip_prefix "http://doi.org/" v) as [r|] eqn:E2; [|done].
      apply strip_prefix_Some in E2 as ->.
      destruct (exec_is_Some doi_prefix ("http://doi.org/" +:+ r) ""
                  ("http://doi.org/" +:+ r) r ∅ eq_refl) as [mr Hmr]; [|congruence].
      cbn [source doi_prefix].
      eapply Matches_Seq; [by apply Matches_Bol|].
      eapply (Matches_Seq _ _ _ _ ("://doi.org/" +:+ r));
        [by apply (Matches_Lit_intro _ "http" "http")|].
      eapply (Matches_Seq _ _ _ _ ("://doi.org/" +:+ r)); [apply Matches_Opt_none|].
      by apply (Matches_Lit_intro _ "://doi.org/" "://doi.org/").
Qed.

Lemma DOI_fill_title row item : DOI (fill_title row item) = DOI item.
Proof. unfold fill_title. fill_cases. Qed.
Lemma DOI_fill_author row item : DOI (fill_author row item) = DOI item.
Proof. unfold fill_author. fill_cases. Qed.
Lemma DOI_fill_issued row item : DOI (fill_issued row item) = DOI item.
Proof. unfold fill_issued. fill_cases. Qed.
Lemma DOI_fill_container_title row item : DOI (fill_container_title row item) = DOI item.
Proof. unfold fill_container_title. fill_cases. Qed.
Lemma DOI_fill_volume_issue row item : DOI (fill_volume_issue row item) = DOI item.
Proof. unfold fill_volume_issue. fill_cases. Qed.
Lemma DOI_fill_page row item : DOI (fill_page row item) = DOI item.
Proof. unfold fill_page. fill_cases. Qed.
Lemma DOI_fill_url row item : DOI (fill_url row item) = DOI item.
Proof. unfold fill_url. fill_cases. Qed.
Lemma DOI_fill_publisher row item : DOI (fill_publisher row item) = DOI item.
Proof. unfold fill_publisher. fill_cases. Qed.

Lemma URL_fill_title row item : URL (fill_title row item) = URL item.
Proof. unfold fill_title. fill_cases. Qed.
Lemma URL_fill_author row item : URL (fill_author row item) = URL item.
Proof. unfold fill_author. fill_cases. Qed.
Lemma URL_fill_issued row item : URL (fill_issued row item) = URL item.
Proof. unfold fill_issued. fill_cases. Qed.
Lemma URL_fill_container_title row item : URL (fill_container_title row item) = URL item.
Proof. unfold fill_container_title. fill_cases. Qed.
Lemma URL_fill_volume_issue row item : URL (fill_volume_issue row item) = URL item.
Proof. unfold fill_volume_issue. fill_cases. Qed.
Lemma URL_fill_page row item : URL (fill_page row item) = URL item.
Proof. unfold fill_page. fill_cases. Qed.
Lemma URL_fill_publisher row item : URL (fill_publisher row item) = URL item.
Proof. unfold fill_publisher. fill_cases. Qed.

(** The fields [DOI] and [URL] are written by the two statements on the
    identifier columns only. *)
Lemma createCslItem_DOI_URL row index :
  ∃ item, DOI item = None ∧ URL item = None
    ∧ DOI (createCslItem row index) = DOI (fill_doi row item)
    ∧ URL (createCslItem row index) = URL (fill_url row (fill_doi row item)).
Proof.
  eexists. split; [|split; [|split]]; unfold createCslItem.
  3: rewrite DOI_fill_publisher, DOI_fill_url; reflexivity.
  3: rewrite URL_fill_publisher; reflexivity.
  - by rewrite DOI_fill_page, DOI_fill_volume_issue, DOI_fill_container_title,
      DOI_fill_issued, DOI_fill_author, DOI_fill_title.
  - by rewrite URL_fill_page, URL_fill_volume_issue, URL_fill_container_title,
      URL_fill_issued, URL_fill_author, URL_fill_title.
Qed.

Lemma startsWith_nonempty v p : p ≠ "" → startsWith v p = true → v ≠ "".
Proof.
  intros Hp H%bool_decide_eq_true Hv. subst v. destruct H as [r H].
  by destruct p.
Qed.

Lemma truthy_Some v : v ≠ "" → truthy (Some v) = true.
Proof. intros Hv. simpl. by rewrite bool_decide_eq_false_2. Qed.

(** What [createCslItem] stores for every identifier. *)
Lemma identifier_fields row index :
  let item := createCslItem row index in
  match identifier row with
  | Some v =>
      if startsWith v "http" then
        if includes v "doi.org/" then
          DOI item = Some (strip_doi_org v)
          ∧ URL item = (if decide (strip_doi_org v = "") then from_url_column row else None)
        else DOI item = None ∧ URL item = Some v
      else if startsWith v "10." then DOI item = Some v ∧ URL item = None
      else DOI item = None ∧ URL item = from_url_column row
  | None => DOI item = None ∧ URL item = from_url_column row
  end.
Proof.
  intros item. subst item.
  destruct (createCslItem_DOI_URL row index) as (item & HD & HU & -> & ->).
  unfold identifier, from_url_column, url_column, fill_url, fill_doi.
  set (u := trim (default "" (or_else (row !! "URL") (row !! "url")))).
  destruct (truthy (or_else (or_else (row !! "DOI") (row !! "DOI/URL")) (row !! "doi")))
    eqn:Hdoi.
  - set (v := trim (default "" _)).
    destruct (startsWith v "http") eqn:Hhttp.
    + destruct (includes v "doi.org/") eqn:Hinc.
      * rewrite replace_doi_prefix. cbn [DOI URL set_DOI set_URL]. rewrite HU.
        split; [done|]. case_decide as He.
        -- rewrite He. cbn [truthy]. rewrite bool_decide_eq_true_2 by done.
           cbn [negb]. rewrite !andb_true_r.
           destruct (truthy (or_else (row !! "URL") (row !! "url"))); [|by simpl].
           by destruct (startsWith u "http"); simpl; rewrite ?HU.
        -- rewrite (truthy_Some _ He). cbn [negb]. rewrite andb_false_r. simpl.
           by rewrite HU.
      * cbn [DOI URL set_DOI set_URL]. rewrite HD.
        rewrite (truthy_Some v) by (by eapply startsWith_nonempty; [|exact Hhttp]).
        cbn [negb]. rewrite andb_false_r. by simpl.
    + destruct (startsWith v "10.") eqn:H10.
      * cbn [DOI URL set_DOI set_URL]. rewrite HU.
        rewrite (truthy_Some v) by (by eapply startsWith_nonempty; [|exact H10]).
        cbn [negb]. rewrite andb_false_r. simpl. by rewrite HU.
      * rewrite HD, HU. cbn [truthy negb]. rewrite !andb_true_r.
        destruct (truthy (or_else (row !! "URL") (row !! "url"))); [|by simpl; rewrite HU].
        by destruct (startsWith u "http"); simpl; rewrite ?HU.
  - rewrite HD, HU. cbn [truthy negb]. rewrite !andb_true_r.
    destruct (truthy (or_else (row !! "URL") (row !! "url"))); [|by simpl; rewrite HU].
    by destruct (startsWith u "http"); simpl; rewrite ?HU.
Qed.

Example identifier_examples :
  DOI (createCslItem {[ "DOI" := "https://doi.org/10.1234/x" ]} 0) = Some "10.1234/x"
  ∧ URL (createCslItem {[ "DOI" := "https://example.com/a" ]} 0) = Some "https://example.com/a"
  ∧ DOI (createCslItem {[ "DOI" := "https://example.com/a" ]} 0) = None
  ∧ DOI (createCslItem {[ "DOI" := "10.5555/y" ]} 0) = Some "10.5555/y".
Proof. repeat split; reflexivity. Qed.

(** C7 at the identifier "https://dx.doi.org/10.1234/x": it starts with
    "http" and contains "doi.org/", so it is stored as DOI, but the pattern
    that strips the resolver prefix only knows the host "doi.org": the
    prefix stays, and the DOI stored is the whole address. *)
Theorem doi_resolver_prefix_kept :
  let v := "https://dx.doi.org/10.1234/x" in
  let item := createCslItem {[ "DOI" := v ]} 0 in
  identifier {[ "DOI" := v ]} = Some v
  ∧ startsWith v "http" = true
  ∧ includes v "doi.org/" = true
  ∧ DOI item = Some v
  ∧ URL item = None
  ∧ DOI item ≠ Some "10.1234/x".
Proof. repeat split; try reflexivity; done. Qed.

(** ** Splitting on one character *)

Lemma startsWith_char c a s :
  startsWith (String a s) (String c "") = bool_decide (c = a).
Proof.
  unfold startsWith. simpl. case_decide.
  - by rewrite !bool_decide_eq_true_2 by eauto.
  - rewrite !bool_decide_eq_false_2; [done|done|]. by intros [? [=]].
Qed.

Lemma includes_char c s :
  includes s (String c "") = bool_decide (is_Some (cut_first c s)).
Proof.
  induction s as [|a s IH]; cbn [includes strip_prefix cut_first]; [done|].
  case_decide as Hca; [done|].
  rewrite IH. by destruct (cut_first c s) as [[b r]|].
Qed.

Lemma cut_first_Some c s a r :
  cut_first c s = Some (a, r) → s = a +:+ String c r ∧ cut_first c a = None.
Proof.
  revert a. induction s as [|x s IH]; intros a; simpl; [discriminate|].
  case_decide as Hcx.
  - intros [= <- <-]. by subst x.
  - destruct (cut_first c s) as [[b r']|]; [|discriminate].
    intros [= <- <-]. destruct (IH b eq_refl) as [-> Hb]. split; [done|].
    simpl. rewrite decide_False by done. by rewrite Hb.
Qed.

Lemma cut_last_Some c s i l :
  cut_last c s = Some (i, l) → s = i +:+ String c l ∧ cut_last c l = None.
Proof.
  revert i. induction s as [|x s IH]; intros i; simpl; [discriminate|].
  destruct (cut_last c s) as [[b l']|] eqn:E.
  - intros [= <- <-]. destruct (IH b eq_refl) as [-> Hl]. done.
  - case_decide as Hcx; [|discriminate]. intros [= <- <-]. by subst x.
Qed.

(** [split] on a one-character separator, piece by piece. *)
Lemma split_go_char c cur s :
  split_go (String c "") 0 cur s =
  match cut_first c s with
  | Some (a, rest) => (cur +:+ a) :: split_go (String c "") 0 "" rest
  | None => [cur +:+ s]
  end.
Proof.
  revert cur. induction s as [|x s IH]; intros cur; cbn [split_go cut_first].
  - by rewrite string_app_nil_r.
  - rewrite startsWith_char. case_decide as Hcx.
    + rewrite bool_decide_eq_true_2 by done. simpl. by rewrite string_app_nil_r.
    + rewrite bool_decide_eq_false_2 by done. rewrite IH.
      destruct (cut_first c s) as [[a rest]|]; by rewrite string_app_assoc.
Qed.

Lemma split_char c s :
  split s (String c "") =
  match cut_first c s with
  | Some (a, rest) => a :: split rest (String c "")
  | None => [s]
  end.
Proof. unfold split. rewrite split_go_char. by destruct (cut_first c s) as [[a rest]|]. Qed.

Lemma split_go_nonempty sep skip cur s : split_go sep skip cur s ≠ [].
Proof.
  revert skip cur. induction s as [|x s IH]; intros skip cur; simpl; [done|].
  destruct skip; [|apply IH]. destruct (startsWith _ _); [done|apply IH].
Qed.

(** The first two pieces around commas. *)
Lemma split_limit_comma s a rest :
  cut_first "," s = Some (a, rest) →
  split_limit s "," 2 =
  [a; match cut_first "," rest with Some (b, _) => b | None => rest end].
Proof.
  intros Hs. unfold split_limit. rewrite split_char, Hs.
  rewrite (split_char "," rest). by destruct (cut_first "," rest) as [[b r]|].
Qed.

Lemma join_cons x y l sep : join (x :: y :: l) sep = x +:+ sep +:+ join (y :: l) sep.
Proof. reflexivity. Qed.

Lemma take_init {A} (x y : A) l :
  take (length (x :: y :: l) - 1) (x :: y :: l) = x :: take (length (y :: l) - 1) (y :: l).
Proof. simpl. by rewrite Nat.sub_0_r. Qed.

(** The last piece and the pieces before it, around the last separator. *)
Lemma split_go_last c cur s :
  let parts := split_go (String c "") 0 cur s in
  match cut_last c s with
  | Some (init, lst) =>
      last parts = Some lst
      ∧ join (take (length parts - 1) parts) (String c "") = cur +:+ init
      ∧ 1 < length parts
  | None => parts = [cur +:+ s]
  end.
Proof.
  revert cur. induction s as [|x s IH]; intros cur; cbn [split_go cut_last].
  - by rewrite string_app_nil_r.
  - rewrite startsWith_char. destruct (decide (c = x)) as [<-|Hcx].
    + rewrite bool_decide_eq_true_2 by done. simpl String.length. simpl Nat.sub.
      specialize (IH ""). cbn zeta in IH.
      destruct (cut_last c s) as [[init lst]|].
      * destruct IH as (Hlast & Hjoin & Hlen).
        destruct (split_go (String c "") 0 "" s) as [|y [|z parts]] eqn:E;
          [simpl in Hlen; lia|simpl in Hlen; lia|].
        cbn zeta. split; [|split].
        -- exact Hlast.
        -- change (length (y :: z :: parts) - 0)
             with (length (cur :: y :: z :: parts) - 1).
           rewrite take_init. rewrite (take_init y z parts) in Hjoin |- *.
           rewrite join_cons, Hjoin. reflexivity.
        -- simpl. lia.
      * rewrite IH. cbn zeta. simpl. rewrite string_app_nil_r.
        split; [done|]. split; [done|lia].
    + rewrite bool_decide_eq_false_2 by done.
      specialize (IH (cur +:+ String x "")). cbn zeta in IH.
      destruct (cut_last c s) as [[init lst]|].
      * destruct IH as (Hlast & Hjoin & Hlen). cbn zeta.
        split; [done|]. split; [|done]. by rewrite Hjoin, string_app_assoc.
      * rewrite IH. cbn zeta. by rewrite string_app_assoc.
Qed.

Lemma cut_first_last c s :
  is_Some (cut_first c s) ↔ is_Some (cut_last c s).
Proof.
  induction s as [|x s IH]; simpl; [done|].
  case_decide as Hcx.
  - destruct (cut_last c s) as [[? ?]|]; split; eauto.
  - destruct (cut_first c s) as [[? ?]|], (cut_last c s) as [[? ?]|]; split; eauto.
    + intros _. destruct IH as [IH _]. by destruct (IH ltac:(eauto)).
    + intros _. destruct IH as [_ IH]. by destruct (IH ltac:(eauto)).
Qed.

(** ** parseAuthors *)

Lemma truthy_Some_true v : truthy (Some v) = true ↔ v ≠ "".
Proof. simpl. by rewrite negb_true_iff, bool_decide_eq_false. Qed.

(** One turn of the loop adds the entry of the fragment, if the fragment
    is not empty. *)
Lemma push_author_entry cslAuthors author :
  push_author cslAuthors author =
  (cslAuthors ++ (if decide (author = "") then [] else entry_of author))%list.
Proof.
  unfold push_author, entry_of. case_decide as Hne; [by rewrite app_nil_r|].
  rewrite includes_char.
  destruct (cut_first "," author) as [[a rest]|] eqn:Hcomma.
  - rewrite bool_decide_eq_true_2 by eauto.
    rewrite (split_limit_comma author a rest Hcomma). cbn [fmap list_fmap].
    set (b := match cut_first "," rest with Some (b, _) => b | None => rest end).
    destruct (truthy (Some (trim a))) eqn:Ha; destruct (truthy (Some (trim b))) eqn:Hb;
      cbn [andb].
    + apply truthy_Some_true in Ha, Hb. by rewrite decide_True.
    + apply not_true_iff_false in Hb. rewrite truthy_Some_true in Hb.
      rewrite decide_False by tauto. by rewrite app_nil_r.
    + apply not_true_iff_false in Ha. rewrite truthy_Some_true in Ha.
      rewrite decide_False by tauto. by rewrite app_nil_r.
    + apply not_true_iff_false in Ha. rewrite truthy_Some_true in Ha.
      rewrite decide_False by tauto. by rewrite app_nil_r.
  - rewrite bool_decide_eq_false_2 by (by intros [? [=]]).
    pose proof (split_go_last " " "" author) as Hlast. cbn zeta in Hlast.
    fold (split author " ") in Hlast.
    pose proof (split_char " " author) as Hfirst.
    pose proof (cut_first_last " " author) as Hfl.
    destruct (cut_last " " author) as [[init lst]|].
    + destruct Hlast as (Hl & Hj & Hlen).
      destruct (cut_first " " author) as [[first rest]|];
        [|destruct Hfl as [_ Hfl]; by destruct (Hfl ltac:(eauto))].
      rewrite bool_decide_eq_true_2 by done. cbn [andb].
      assert (Hhead : head (split author " ") = Some first) by (by rewrite Hfirst).
      rewrite Hhead, Hl, Hj. cbn [default]. rewrite string_app_nil_l.
      by destruct (decide (1 < js_length first));
        [rewrite bool_decide_eq_true_2|rewrite bool_decide_eq_false_2].
    + rewrite Hlast. cbn [length]. rewrite bool_decide_eq_false_2 by lia. cbn [andb].
      destruct (cut_first " " author) as [[first rest]|]; [|done].
      destruct Hfl as [Hfl _]. by destruct (Hfl ltac:(eauto)).
Qed.

Lemma foldl_push_author l : ∀ acc,
  foldl push_author acc l
  = (acc ++ (filter (λ fragment, fragment ≠ "") l ≫= entry_of))%list.
Proof.
  induction l as [|x l IH]; intros acc; cbn [foldl].
  - by rewrite app_nil_r.
  - rewrite IH, push_author_entry, filter_cons. case_decide as Hx.
    + subst x. rewrite decide_False by (by intros ?). by rewrite app_nil_r.
    + rewrite decide_True by done. rewrite bind_cons. by rewrite app_assoc.
Qed.

(** C6, amended. [parseAuthors] splits the trimmed cell on the first
    delimiter it contains among ";", " & " and " and ", in this order, or
    keeps it whole; of each trimmed, non-empty fragment it makes the entry
    [entry_of] describes: with a comma, family and given are the text before
    the first comma and the text between the first and the second comma (the
    fragment is dropped when one of them is blank); without, if the fragment
    has a space character and more than one code unit before the first one,
    family is the text after the last space and given the text before it; a
    literal otherwise. *)
Theorem parseAuthors_refines (authorCell : value) :
  match authorCell with
  | VStr cell => parseAuthors authorCell = parseAuthors_spec cell
  | _ => parseAuthors authorCell = []
  end.
Proof.
  destruct authorCell as [| | | |cell|]; try reflexivity.
  unfold parseAuthors, parseAuthors_spec, fragments.
  case_decide as Hc; [by subst cell|].
  case_decide as Ht; [by rewrite Ht|].
  by rewrite foldl_push_author, app_nil_l.
Qed.

Example parseAuthors_examples :
  parseAuthors (VStr "Smith, John; Doe, Jane")
    = [FamilyGiven "Smith" "John"; FamilyGiven "Doe" "Jane"]
  ∧ parseAuthors (VStr "John Smith") = [FamilyGiven "Smith" "John"]
  ∧ parseAuthors (VStr "Acme") = [Literal "Acme"]
  ∧ parseAuthors (VStr "Ann Lee & J Smith") = [FamilyGiven "Lee" "Ann"; Literal "J Smith"]
  ∧ parseAuthors (VStr "Smith,") = [].
Proof. repeat split; reflexivity. Qed.

(** C6 as worded fails: [split(',', 2)] cuts at every comma and keeps two
    pieces, so what follows a second comma is lost; and [split(' ')] cuts at
    the space character only, so a tab separates no tokens and two spaces
    leave an empty token behind. *)
Lemma parseAuthors_claimed_counterexample :
  parseAuthors (VStr "Smith, John, Jr.") = [FamilyGiven "Smith" "John"]
  ∧ parseAuthors_claimed "Smith, John, Jr." = [FamilyGiven "Smith" "John, Jr."]
  ∧ parseAuthors (VStr ("John" +:+ tab +:+ "Smith")) = [Literal ("John" +:+ tab +:+ "Smith")]
  ∧ parseAuthors_claimed ("John" +:+ tab +:+ "Smith") = [FamilyGiven "Smith" "John"]
  ∧ parseAuthors (VStr "John  Smith") = [FamilyGiven "Smith" "John "]
  ∧ parseAuthors_claimed "John  Smith" = [FamilyGiven "Smith" "John"]
  ∧ ¬ (∀ cell, parseAuthors (VStr cell) = parseAuthors_claimed cell).
Proof.
  repeat split; try reflexivity.
  intros H. specialize (H "Smith, John, Jr."). vm_compute in H. discriminate H.
Qed.

(** ** The loops of trim run to their end *)

Lemma strip_token_shorter toks s r :
  "" ∉ toks → strip_token toks s = Some r → String.length r < String.length s.
Proof.
  intros Hne (t & Hin & ->)%strip_token_Some. rewrite string_length_app.
  destruct t; [done|simpl; lia].
Qed.

Lemma trimStart_go_done fuel s :
  (String.length s ≤ fuel)%nat → strip_token white_space (trimStart_go fuel s) = None.
Proof.
  revert s. induction fuel as [|fuel IH]; intros s Hlen; cbn [trimStart_go].
  - assert (s = "") as -> by (apply string_length_0; lia). done.
  - destruct (strip_token white_space s) as [r|] eqn:E; [|done].
    apply IH. apply strip_token_shorter in E; [lia|apply white_space_nonempty].
Qed.

(** Nothing is left to trim at the start of [trimStart s]. *)
Lemma trimStart_done s : strip_token white_space (trimStart s) = None.
Proof. by apply trimStart_go_done. Qed.

Lemma rev_white_space_nonempty : "" ∉ rev_white_space.
Proof. by apply (bool_decide_unpack _). Qed.

Lemma trimEnd_go_done fuel s :
  (String.length s ≤ fuel)%nat → strip_token rev_white_space (trimEnd_go fuel s) = None.
Proof.
  revert s. induction fuel as [|fuel IH]; intros s Hlen; cbn [trimEnd_go].
  - assert (s = "") as -> by (apply string_length_0; lia). done.
  - destruct (strip_token rev_white_space s) as [r|] eqn:E; [|done].
    apply IH. apply strip_token_shorter in E; [lia|apply rev_white_space_nonempty].
Qed.

Lemma string_length_rev_app s1 s2 :
  String.length (String.rev_app s1 s2) = String.length s1 + String.length s2.
Proof.
  revert s2. induction s1 as [|a s1 IH]; intros s2; simpl; [done|].
  rewrite IH. simpl. lia.
Qed.

Lemma string_rev_app_rev_app s1 s2 s3 :
  String.rev_app (String.rev_app s1 s2) s3 = String.rev_app s2 (s1 +:+ s3).
Proof.
  revert s2 s3. induction s1 as [|a s1 IH]; intros s2 s3; simpl; [done|].
  by rewrite IH.
Qed.

Lemma string_rev_involutive s : String.rev (String.rev s) = s.
Proof.
  unfold String.rev. rewrite string_rev_app_rev_app. simpl. apply string_app_nil_r.
Qed.

(** Nor at the end of [trimEnd s], read backwards. *)
Lemma trimEnd_done s :
  strip_token rev_white_space (String.rev (trimEnd s)) = None.
Proof.
  unfold trimEnd. rewrite string_rev_involutive. apply trimEnd_go_done.
  unfold String.rev. rewrite string_length_rev_app. simpl. lia.
Qed.

(** * Further properties of the pipeline *)

Local Open Scope nat_scope.

(** ** Validation: counts, clean runs, idempotence *)

Lemma rule_errors_nil index item : rule_errors index item = [] ↔ ¬ invalid item.
Proof.
  unfold rule_errors, invalid. repeat case_decide; simpl; split; try done; tauto.
Qed.

Lemma rule_errors_length index item :
  (if decide (invalid item) then 1 else 0) ≤ length (rule_errors index item) ≤
  (if decide (invalid item) then 2 else 0).
Proof.
  unfold rule_errors, invalid.
  destruct (decide (no_title_no_author item)), (decide (journal_lacks_container item));
    case_decide; simpl; try lia; tauto.
Qed.

Lemma filter_all {A} (P : A → Prop) `{∀ x, Decision (P x)} (l : list A) :
  filter P l = l ↔ Forall P l.
Proof.
  induction l as [|x l IH]; [by split|].
  rewrite filter_cons, Forall_cons. case_decide as Hx.
  - split; [intros [= Hl]; by rewrite <- IH|intros [_ Hl]; f_equal; by apply IH].
  - split; [|tauto]. intros Heq.
    pose proof (length_filter P l) as Hlen. rewrite Heq in Hlen. simpl in Hlen. lia.
Qed.

Lemma errors_nil_all items : ∀ n,
  mjoin (imap (λ i, rule_errors (n + i)) items) = [] ↔ Forall (λ x, ¬ invalid x) items.
Proof.
  induction items as [|x items IH]; intros n; [by split|].
  rewrite imap_cons, Forall_cons.
  change (mjoin (rule_errors (n + 0) x :: imap ((λ i, rule_errors (n + i)) ∘ S) items))
    with (rule_errors (n + 0) x
            ++ mjoin (imap ((λ i, rule_errors (n + i)) ∘ S) items))%list.
  split.
  - intros [Hx Hl]%app_nil. split; [by eapply rule_errors_nil|].
    apply (IH (S n)). rewrite <- Hl. f_equal. apply imap_ext. intros i y _. simpl.
    f_equal. lia.
  - intros [Hx Hl]. apply app_nil. split; [by apply rule_errors_nil|].
    apply (IH (S n)) in Hl. rewrite <- Hl. f_equal. apply imap_ext. intros i y _.
    simpl. f_equal. lia.
Qed.

(** X1. Validation reports no error exactly when it accepts every item. *)
Theorem validation_clean_iff (items : list CslItem) :
  verrors (validateCslItems items) = [] ↔ valid (validateCslItems items) = items.
Proof.
  rewrite validateCslItems_errors, validateCslItems_valid, filter_all.
  apply (errors_nil_all items 0).
Qed.

Lemma Validation_eq (v w : Validation) :
  valid v = valid w → verrors v = verrors w → v = w.
Proof. destruct v, w. simpl. by intros -> ->. Qed.

(** X2. Validating the accepted items again accepts them all and reports
    nothing. *)
Theorem validation_idempotent (items : list CslItem) :
  validateCslItems (valid (validateCslItems items))
  = {| valid := valid (validateCslItems items); verrors := [] |}.
Proof.
  assert (Hv : valid (validateCslItems (valid (validateCslItems items)))
               = valid (validateCslItems items)).
  { rewrite !validateCslItems_valid. apply filter_all.
    apply Forall_forall. intros x Hx. by apply list_elem_of_filter in Hx as [Hx _]. }
  apply Validation_eq; simpl; [exact Hv|].
  rewrite validateCslItems_errors. apply (errors_nil_all _ 0).
  apply Forall_forall. intros x Hx. rewrite validateCslItems_valid in Hx.
  by apply list_elem_of_filter in Hx as [Hx _].
Qed.

Lemma errors_length_bounds (f : nat → CslItem → list string) items :
  (∀ i x, (if decide (invalid x) then 1 else 0) ≤ length (f i x)
          ≤ (if decide (invalid x) then 2 else 0)) →
  length items - length (filter (λ x, ¬ invalid x) items)
    ≤ length (mjoin (imap f items))
    ≤ 2 * (length items - length (filter (λ x, ¬ invalid x) items)).
Proof.
  revert f. induction items as [|x items IH]; intros f Hf; [simpl; lia|].
  rewrite imap_cons, filter_cons.
  change (mjoin (f 0 x :: imap (f ∘ S) items))
    with (f 0 x ++ mjoin (imap (f ∘ S) items))%list.
  rewrite length_app.
  pose proof (Hf 0 x) as Hx.
  pose proof (length_filter (λ x, ¬ invalid x) items) as Hlen.
  specialize (IH (f ∘ S) (λ i y, Hf (S i) y)).
  destruct (decide (invalid x)) as [Hi|Hi].
  - rewrite decide_False by tauto. simpl length. lia.
  - rewrite decide_True by done. simpl length. lia.
Qed.

(** X3. No item is lost or invented by validation: the accepted items are at
    most as many as the items, and every rejected item accounts for one or
    two error messages. *)
Theorem validation_counts (items : list CslItem) :
  length (valid (validateCslItems items)) ≤ length items
  ∧ length items - length (valid (validateCslItems items))
      ≤ length (verrors (validateCslItems items))
  ∧ length (verrors (validateCslItems items))
      ≤ 2 * (length items - length (valid (validateCslItems items))).
Proof.
  rewrite validateCslItems_errors, validateCslItems_valid.
  split; [apply length_filter|]. apply errors_length_bounds.
  intros i x. apply rule_errors_length.
Qed.

(** ** createCslItem: where each field comes from *)

Ltac fill_fields := repeat case_match; repeat split; reflexivity.

Lemma fill_title_keeps row item :
  type (fill_title row item) = type item
  ∧ author (fill_title row item) = author item
  ∧ container_title (fill_title row item) = container_title item
  ∧ volume (fill_title row item) = volume item
  ∧ issue (fill_title row item) = issue item.
Proof. unfold fill_title. fill_fields. Qed.

Lemma fill_author_keeps row item :
  type (fill_author row item) = type item
  ∧ title (fill_author row item) = title item
  ∧ container_title (fill_author row item) = container_title item
  ∧ volume (fill_author row item) = volume item
  ∧ issue (fill_author row item) = issue item.
Proof. unfold fill_author. fill_fields. Qed.

Lemma fill_issued_keeps row item :
  type (fill_issued row item) = type item
  ∧ title (fill_issued row item) = title item
  ∧ author (fill_issued row item) = author item
  ∧ container_title (fill_issued row item) = container_title item
  ∧ volume (fill_issued row item) = volume item
  ∧ issue (fill_issued row item) = issue item.
Proof. unfold fill_issued. fill_fields. Qed.

Lemma fill_container_title_keeps row item :
  type (fill_container_title row item) = type item
  ∧ title (fill_container_title row item) = title item
  ∧ author (fill_container_title row item) = author item
  ∧ volume (fill_container_title row item) = volume item
  ∧ issue (fill_container_title row item) = issue item.
Proof. unfold fill_container_title. fill_fields. Qed.

Lemma fill_volume_issue_keeps row item :
  type (fill_volume_issue row item) = type item
  ∧ title (fill_volume_issue row item) = title item
  ∧ author (fill_volume_issue row item) = author item
  ∧ container_title (fill_volume_issue row item) = container_title item.
Proof. unfold fill_volume_issue. fill_fields. Qed.

Lemma fill_page_keeps row item :
  type (fill_page row item) = type item
  ∧ title (fill_page row item) = title item
  ∧ author (fill_page row item) = author item
  ∧ container_title (fill_page row item) = container_title item
  ∧ volume (fill_page row item) = volume item
  ∧ issue (fill_page row item) = issue item.
Proof. unfold fill_page. fill_fields. Qed.

Lemma fill_doi_keeps row item :
  type (fill_doi row item) = type item
  ∧ title (fill_doi row item) = title item
  ∧ author (fill_doi row item) = author item
  ∧ container_title (fill_doi row item) = container_title item
  ∧ volume (fill_doi row item) = volume item
  ∧ issue (fill_doi row item) = issue item.
Proof. unfold fill_doi. fill_fields. Qed.

Lemma fill_url_keeps row item :
  type (fill_url row item) = type item
  ∧ title (fill_url row item) = title item
  ∧ author (fill_url row item) = author item
  ∧ container_title (fill_url row item) = container_title item
  ∧ volume (fill_url row item) = volume item
  ∧ issue (fill_url row item) = issue item.
Proof. unfold fill_url. fill_fields. Qed.

Lemma fill_publisher_keeps row item :
  type (fill_publisher row item) = type item
  ∧ title (fill_publisher row item) = title item
  ∧ author (fill_publisher row item) = author item
  ∧ container_title (fill_publisher row item) = container_title item
  ∧ volume (fill_publisher row item) = volume item
  ∧ issue (fill_publisher row item) = issue item.
Proof. unfold fill_publisher. fill_fields. Qed.

(** The fields validation looks at, read off the row. *)
Lemma createCslItem_type row index :
  type (createCslItem row index) = mapSourceType (of_cell (source_type_cell row)).
Proof.
  unfold createCslItem.
  rewrite (proj1 (fill_publisher_keeps _ _)), (proj1 (fill_url_keeps _ _)),
    (proj1 (fill_doi_keeps _ _)), (proj1 (fill_page_keeps _ _)),
    (proj1 (fill_volume_issue_keeps _ _)), (proj1 (fill_container_title_keeps _ _)),
    (proj1 (fill_issued_keeps _ _)), (proj1 (fill_author_keeps _ _)),
    (proj1 (fill_title_keeps _ _)).
  reflexivity.
Qed.

Lemma createCslItem_title row index :
  title (createCslItem row index) =
  if truthy (title_cell row) then Some (trim (default "" (title_cell row))) else None.
Proof.
  unfold createCslItem.
  rewrite (proj1 (proj2 (fill_publisher_keeps _ _))), (proj1 (proj2 (fill_url_keeps _ _))),
    (proj1 (proj2 (fill_doi_keeps _ _))), (proj1 (proj2 (fill_page_keeps _ _))),
    (proj1 (proj2 (fill_volume_issue_keeps _ _))),
    (proj1 (proj2 (fill_container_title_keeps _ _))),
    (proj1 (proj2 (fill_issued_keeps _ _))), (proj1 (proj2 (fill_author_keeps _ _))).
  unfold fill_title. fold (title_cell row). by destruct (truthy (title_cell row)).
Qed.

Lemma createCslItem_author row index :
  author (createCslItem row index) =
  match parseAuthors (of_cell (author_cell row)) with
  | [] => None
  | authors => Some authors
  end.
Proof.
  unfold createCslItem.
  rewrite (proj1 (proj2 (proj2 (fill_publisher_keeps _ _)))),
    (proj1 (proj2 (proj2 (fill_url_keeps _ _)))),
    (proj1 (proj2 (proj2 (fill_doi_keeps _ _)))),
    (proj1 (proj2 (proj2 (fill_page_keeps _ _)))),
    (proj1 (proj2 (proj2 (fill_volume_issue_keeps _ _)))),
    (proj1 (proj2 (proj2 (fill_container_title_keeps _ _)))),
    (proj1 (proj2 (proj2 (fill_issued_keeps _ _)))).
  unfold fill_author. fold (author_cell row).
  destruct (parseAuthors (of_cell (author_cell row))) as [|a l]; simpl; [|done].
  by rewrite (proj1 (proj2 (fill_title_keeps _ _))).
Qed.

Lemma createCslItem_container_title row index :
  container_title (createCslItem row index) =
  if truthy (container_cell row) then Some (trim (default "" (container_cell row)))
  else None.
Proof.
  unfold createCslItem.
  rewrite (proj1 (proj2 (proj2 (proj2 (fill_publisher_keeps _ _))))),
    (proj1 (proj2 (proj2 (proj2 (fill_url_keeps _ _))))),
    (proj1 (proj2 (proj2 (proj2 (fill_doi_keeps _ _))))),
    (proj1 (proj2 (proj2 (proj2 (fill_page_keeps _ _))))),
    (proj2 (proj2 (proj2 (fill_volume_issue_keeps _ _)))).
  unfold fill_container_title. fold (container_cell row).
  destruct (truthy (container_cell row)); [done|].
  by rewrite (proj1 (proj2 (proj2 (proj2 (fill_issued_keeps _ _))))),
    (proj1 (proj2 (proj2 (fill_author_keeps _ _)))),
    (proj1 (proj2 (proj2 (fill_title_keeps _ _)))).
Qed.

Lemma lacks_title_blank row index :
  lacks (title (createCslItem row index)) ↔ blank_cell (title_cell row).
Proof.
  rewrite createCslItem_title. unfold lacks, blank_cell.
  destruct (truthy (title_cell row)); split.
  - intros [[=]|[= ->]]. by right.
  - intros [[=]| ->]. by right.
  - by left.
  - by left.
Qed.

Lemma lacks_container_blank row index :
  lacks (container_title (createCslItem row index)) ↔ blank_cell (container_cell row).
Proof.
  rewrite createCslItem_container_title. unfold lacks, blank_cell.
  destruct (truthy (container_cell row)); split.
  - intros [[=]|[= ->]]. by right.
  - intros [[=]| ->]. by right.
  - by left.
  - by left.
Qed.

Lemma author_None_iff row index :
  author (createCslItem row index) = None ↔ parseAuthors (of_cell (author_cell row)) = [].
Proof.
  rewrite createCslItem_author.
  by destruct (parseAuthors (of_cell (author_cell row))).
Qed.

(** X4. Whether a row will be skipped can be read off the row: its item is
    rejected exactly when its title cell is missing or blank and no author
    can be read from its author cell, or its source type maps to a journal
    article and its journal cell is missing or blank. *)
Theorem row_rejected_iff (row : CsvRow) (index : nat) :
  invalid (createCslItem row index) ↔
  (blank_cell (title_cell row) ∧ parseAuthors (of_cell (author_cell row)) = [])
  ∨ (mapSourceType (of_cell (source_type_cell row)) = VStr "article-journal"
     ∧ blank_cell (container_cell row)).
Proof.
  unfold invalid, no_title_no_author, journal_lacks_container.
  by rewrite lacks_title_blank, lacks_container_blank, author_None_iff, createCslItem_type.
Qed.

(** X5. A row that names no source type and no journal is always skipped,
    whatever its other columns hold: the type defaults to a journal article,
    and a journal article needs a journal. *)
Theorem row_without_type_and_journal_rejected (row : CsvRow) (index : nat) :
  truthy (or_else (row !! "Source Type") (row !! "type")) = false →
  truthy (container_cell row) = false →
  invalid (createCslItem row index)
  ∧ "Item " +:+ pretty (index + 1) +:+ ": Journal articles require a journal name"
      ∈ rule_errors index (createCslItem row index).
Proof.
  intros Htype Hjournal.
  assert (Hj : journal_lacks_container (createCslItem row index)).
  { split.
    - rewrite createCslItem_type. unfold source_type_cell, or_else at 1.
      rewrite Htype. reflexivity.
    - apply lacks_container_blank. by left. }
  split; [by right|].
  unfold rule_errors. rewrite (decide_True _ _ Hj). apply elem_of_app. right.
  by apply list_elem_of_singleton.
Qed.

Lemma row_without_type_and_journal_rejected_witness :
  invalid (createCslItem {[ "Title" := "Walden"; "Author" := "Thoreau, Henry" ]} 0).
Proof.
  apply (row_without_type_and_journal_rejected
           {[ "Title" := "Walden"; "Author" := "Thoreau, Henry" ]} 0); reflexivity.
Defined.

(** X6. The items of a run carry the 1-based position of their row as
    identifier, there is one item per row, and no two rows share an
    identifier. *)
Theorem item_ids_distinct (rows : list CsvRow) (i j : nat) (x y : CslItem) :
  items_of rows !! i = Some x → items_of rows !! j = Some y →
  length (items_of rows) = length rows
  ∧ id x = "item_" +:+ pretty (i + 1)
  ∧ (id x = id y ↔ i = j).
Proof.
  intros Hi Hj. split; [apply length_imap|]. split; [by eapply items_of_id|].
  split; [by eapply items_of_id_unique|]. intros ->. congruence.
Qed.

Lemma item_ids_distinct_witness :
  id (createCslItem row_book 0) = "item_1"
  ∧ (id (createCslItem row_book 0) = id (createCslItem row_empty 1) ↔ 0 = 1).
Proof.
  exact (proj2 (item_ids_distinct [row_book; row_empty] 0 1 _ _ eq_refl eq_refl)).
Defined.

(** ** parseVolumeIssue: what it returns is numeric *)

Lemma reads_numbers k text N M : reads k text N M → number N ∧ number M.
Proof.
  intros (pre & s & rest & _ & Hs).
  destruct k as [|[|[|[|k]]]]; simpl in Hs; [| | | |done].
  - destruct Hs as (? & ? & ? & _ & HN & HM & _). done.
  - destruct Hs as (? & ? & ? & ? & ? & ? & ? & _ & _ & _ & _ & _ & HN & HM & _). done.
  - destruct Hs as (? & ? & ? & ? & ? & ? & ? & _ & _ & _ & _ & _ & HN & HM & _). done.
  - destruct Hs as (? & ? & ? & _ & _ & HN & HM & _). done.
Qed.

Lemma parseVolumeIssue_fields (cell : value) :
  match vi_volume (parseVolumeIssue cell), vi_issue (parseVolumeIssue cell) with
  | Some N, Some M => number N ∧ number M
  | Some N, None => number N
  | None, Some _ => False
  | None, None => True
  end.
Proof.
  destruct cell as [| | | |c|]; try done.
  rewrite parseVolumeIssue_text.
  destruct (first_match patterns (trim c)) as [r|] eqn:Hf.
  - apply first_match_Some in Hf as (k & pattern & mr & Hk & He & _ & ->).
    destruct (exec_pattern_Some k pattern _ mr Hk He) as (N & M & Hr & _ & H1 & H2).
    simpl. rewrite H1, H2. by eapply reads_numbers.
  - destruct (test all_digits (trim c)) eqn:Ht; simpl; [|done].
    by apply test_all_digits.
Qed.

(** X7. Whatever the cell holds, a volume that [parseVolumeIssue] returns is
    a non-empty string of digits, and so is an issue. *)
Theorem parseVolumeIssue_numeric (cell : value) :
  (∀ N, vi_volume (parseVolumeIssue cell) = Some N → number N)
  ∧ (∀ M, vi_issue (parseVolumeIssue cell) = Some M → number M).
Proof.
  pose proof (parseVolumeIssue_fields cell) as H.
  destruct (vi_volume (parseVolumeIssue cell)) as [N|],
           (vi_issue (parseVolumeIssue cell)) as [M|]; try done.
  - destruct H as [HN HM]. split; by intros ? [= <-].
  - split; [by intros ? [= <-]|done].
Qed.

Lemma parseVolumeIssue_numeric_witness : number "5" ∧ number "2".
Proof.
  split.
  - exact (proj1 (parseVolumeIssue_numeric (VStr "vol. 5 no. 2")) "5" eq_refl).
  - exact (proj2 (parseVolumeIssue_numeric (VStr "vol. 5 no. 2")) "2" eq_refl).
Defined.

Lemma number_truthy N : number N → truthy (Some N) = true.
Proof. intros [Hne _]. by apply truthy_Some. Qed.

Lemma fill_tail_keeps_volume_issue row item :
  volume (fill_publisher row (fill_url row (fill_doi row (fill_page row item))))
    = volume item
  ∧ issue (fill_publisher row (fill_url row (fill_doi row (fill_page row item))))
    = issue item.
Proof.
  destruct (fill_publisher_keeps row (fill_url row (fill_doi row (fill_page row item))))
    as (_ & _ & _ & _ & -> & ->).
  destruct (fill_url_keeps row (fill_doi row (fill_page row item)))
    as (_ & _ & _ & _ & -> & ->).
  destruct (fill_doi_keeps row (fill_page row item)) as (_ & _ & _ & _ & -> & ->).
  by destruct (fill_page_keeps row item) as (_ & _ & _ & _ & -> & ->).
Qed.

Lemma fill_head_keeps_volume_issue row index :
  volume (fill_container_title row (fill_issued row (fill_author row
            (fill_title row (new_item row index))))) = None
  ∧ issue (fill_container_title row (fill_issued row (fill_author row
             (fill_title row (new_item row index))))) = None.
Proof.
  destruct (fill_container_title_keeps row (fill_issued row (fill_author row
              (fill_title row (new_item row index))))) as (_ & _ & _ & -> & ->).
  destruct (fill_issued_keeps row (fill_author row (fill_title row (new_item row index))))
    as (_ & _ & _ & _ & -> & ->).
  destruct (fill_author_keeps row (fill_title row (new_item row index)))
    as (_ & _ & _ & -> & ->).
  by destruct (fill_title_keeps row (new_item row index)) as (_ & _ & _ & -> & ->).
Qed.

(** X8. The volume of an item is exactly the volume read from the volume
    cell. Its issue is the issue read from the volume cell when there is
    one; only otherwise does the Issue column count, trimmed, if it is not
    empty. *)
Theorem createCslItem_volume_issue (row : CsvRow) (index : nat) :
  volume (createCslItem row index)
    = vi_volume (parseVolumeIssue (of_cell (volume_cell row)))
  ∧ issue (createCslItem row index)
    = match vi_issue (parseVolumeIssue (of_cell (volume_cell row))) with
      | Some M => Some M
      | None =>
          if truthy (issue_cell row) then Some (trim (default "" (issue_cell row)))
          else None
      end.
Proof.
  unfold createCslItem.
  destruct (fill_tail_keeps_volume_issue row
              (fill_volume_issue row (fill_container_title row (fill_issued row
                 (fill_author row (fill_title row (new_item row index)))))))
    as [-> ->].
  destruct (fill_head_keeps_volume_issue row index) as [Hv Hi].
  unfold fill_volume_issue. fold (volume_cell row) (issue_cell row).
  pose proof (parseVolumeIssue_fields (of_cell (volume_cell row))) as Hf.
  destruct (vi_volume (parseVolumeIssue (of_cell (volume_cell row)))) as [N|],
           (vi_issue (parseVolumeIssue (of_cell (volume_cell row)))) as [M|];
    try done.
  - destruct Hf as [HN HM]. rewrite (number_truthy N HN), (number_truthy M HM). done.
  - rewrite (number_truthy N Hf). cbn [truthy].
    destruct (truthy (issue_cell row)); simpl; [done|by rewrite Hi].
  - cbn [truthy]. destruct (truthy (issue_cell row)); simpl; by rewrite ?Hv, ?Hi.
Qed.

(** ** generateCitations: all or nothing from the engine, fragment by
    fragment afterwards *)

Local Open Scope list_scope.

Lemma process_citation_spec env acc html index :
  process_citation env acc html index
  = (acc.1 ++ [rendered env index html], acc.2 ++ rendering_errors env index html).
Proof.
  unfold process_citation, rendered, rendering_errors, clean_text.
  destruct acc as [cs es]. destruct (textContent env html) as [e|content]; simpl.
  - done.
  - by rewrite app_nil_r.
Qed.

Lemma forEach_process_citation env fragments : ∀ index acc,
  forEach (process_citation env) index fragments acc
  = (acc.1 ++ imap (λ i, rendered env (index + i)) fragments,
     acc.2 ++ mjoin (imap (λ i, rendering_errors env (index + i)) fragments)).
Proof.
  induction fragments as [|html fragments IH]; intros index acc; cbn [forEach].
  - simpl. rewrite !app_nil_r. by destruct acc.
  - rewrite IH, process_citation_spec. cbn [fst snd]. rewrite !imap_cons.
    change (mjoin (?x :: ?l)) with (x ++ mjoin l).
    rewrite Nat.add_0_r, <- !app_assoc. cbn [app]. f_equal.
    + do 2 f_equal. apply imap_ext. intros i y _. simpl. f_equal. lia.
    + do 3 f_equal. apply imap_ext. intros i y _. simpl. f_equal. lia.
Qed.

Lemma rendering_errors_length env index html : length (rendering_errors env index html) ≤ 1.
Proof. unfold rendering_errors. destruct (textContent env html); simpl; lia. Qed.

Lemma mjoin_length_le {A B} (f : nat → A → list B) (l : list A) :
  (∀ i x, length (f i x) ≤ 1) → length (mjoin (imap f l)) ≤ length l.
Proof.
  revert f. induction l as [|x l IH]; intros f Hf; [done|].
  rewrite imap_cons. change (mjoin (?x :: ?l)) with (x ++ mjoin l).
  rewrite length_app. specialize (IH (f ∘ S) (λ i y, Hf (S i) y)).
  pose proof (Hf 0 x). simpl. lia.
Qed.

(** X9. A result that [generateCitations] returns has one of two shapes.
    Either the engine failed as a whole: there is no citation at all and
    exactly one error, which starts with "Citation generation failed: ". Or
    the engine yielded a non-empty bibliography: there is one citation per
    fragment and at most one error per fragment. *)
Theorem generateCitations_outcome (env : Env) (cslItems : list CslItem)
    (cslStyle locale : string) (citations errors : list string) :
  generateCitations env cslItems cslStyle locale = (citations, errors) →
  (citations = [] ∧ ∃ reason, errors = ["Citation generation failed: " +:+ reason])
  ∨ (∃ fragments, fragments ≠ []
       ∧ citations = imap (rendered env) fragments
       ∧ errors = mjoin (imap (rendering_errors env) fragments)
       ∧ length citations = length fragments
       ∧ length errors ≤ length fragments).
Proof.
  unfold generateCitations.
  destruct (CSLEngine env) as [lib|]; [|intros [= <- <-]; left; split; [done|by eexists]].
  destruct (bool_decide (cslStyle = "") || negb (includes cslStyle "<style"));
    [intros [= <- <-]; left; split; [done|by eexists]|].
  destruct (Engine lib _ locale cslStyle) as [e|eng];
    [intros [= <- <-]; left; split; [done|by eexists]|].
  cbn [try_catch mbind throws_bind].
  destruct (updateItems lib eng _) as [e|eng'];
    [intros [= <- <-]; left; split; [done|by eexists]|].
  cbn [try_catch mbind throws_bind].
  destruct (makeBibliography lib eng') as [e|[[|html fragments]|]];
    try (intros [= <- <-]; left; split; [done|by eexists]).
  cbn [try_catch mbind throws_bind mret throws_ret].
  rewrite forEach_process_citation. cbn [fst snd app].
  intros [= <- <-]. right. exists (html :: fragments).
  split; [done|]. split; [reflexivity|]. split; [reflexivity|]. split.
  - exact (length_imap (rendered env) (html :: fragments)).
  - exact (mjoin_length_le (rendering_errors env) (html :: fragments)
             (rendering_errors_length env)).
Qed.

Lemma generateCitations_outcome_witness :
  ([] : list string) = []
  ∧ ∃ reason,
      ["Citation generation failed: Error: Failed to generate bibliography: "
         +:+ "Error: Bibliography generation returned empty result"]
      = ["Citation generation failed: " +:+ reason].
Proof.
  destruct (generateCitations_outcome (sample_env [] (mret None)) [] "<style>" "" []
              ["Citation generation failed: Error: Failed to generate bibliography: "
                 +:+ "Error: Bibliography generation returned empty result"])
    as [Hfailed|(fragments & Hne & Hnil & _)].
  - vm_compute. reflexivity.
  - exact Hfailed.
  - by destruct fragments.
Defined.

(** X10. Partial success is kept. When the engine yields the fragments of a
    bibliography, the citation at each position is the cleaned text of the
    fragment at that position, or the placeholder "Error processing citation
    n" when its text cannot be extracted; the other citations are not
    affected, and the errors are those of the failing fragments, in order. *)
Theorem generateCitations_fragments (env : Env) (lib : EngineLib)
    (cslItems : list CslItem) (cslStyle locale : string)
    (eng eng' : engine lib) (fragments : list string) :
  CSLEngine env = Some lib →
  cslStyle ≠ "" → includes cslStyle "<style" = true →
  Engine lib (λ id_, find (λ item, id item = id_) cslItems) locale cslStyle = inr eng →
  updateItems lib eng (id <$> cslItems) = inr eng' →
  makeBibliography lib eng' = inr (Some fragments) →
  fragments ≠ [] →
  generateCitations env cslItems cslStyle locale
    = (imap (rendered env) fragments, mjoin (imap (rendering_errors env) fragments))
  ∧ ∀ i html, fragments !! i = Some html →
      (generateCitations env cslItems cslStyle locale).1 !! i
      = Some (match textContent env html with
              | inr content => clean_text content
              | inl _ => "Error processing citation " +:+ pretty (i + 1)
              end).
Proof.
  intros Hlib Hstyle Hinc Heng Hupd Hbib Hne.
  assert (Hgen : generateCitations env cslItems cslStyle locale
                 = (imap (rendered env) fragments,
                    mjoin (imap (rendering_errors env) fragments))).
  { unfold generateCitations. rewrite Hlib.
    rewrite bool_decide_eq_false_2 by done. rewrite Hinc. cbn [negb orb].
    rewrite Heng. cbn [try_catch mbind throws_bind]. rewrite Hupd.
    cbn [try_catch mbind throws_bind]. rewrite Hbib.
    destruct fragments as [|html fragments]; [done|].
    cbn [try_catch mbind throws_bind mret throws_ret].
    by rewrite forEach_process_citation. }
  split; [exact Hgen|].
  intros i html Hi. rewrite Hgen. cbn [fst].
  by rewrite list_lookup_imap, Hi.
Qed.

Lemma generateCitations_fragments_witness :
  generateCitations (sample_env [] (mret (Some ["One  line"; " Two "]))) [] "<style>" ""
  = (["One line"; "Two"], []).
Proof.
  destruct (generateCitations_fragments
              (sample_env [] (mret (Some ["One  line"; " Two "])))
              (sample_engine (mret (Some ["One  line"; " Two "])))
              [] "<style>" "" tt tt ["One  line"; " Two "]) as [Hgen _];
    try reflexivity; try done.
Defined.

(** ** buildCsvUrl: which addresses name a sheet, and which sheet *)

Lemma id_chars_nonempty : "" ∉ id_chars.
Proof. by apply (bool_decide_unpack _). Qed.

Lemma id_chars_single t : t ∈ id_chars → String.length t = 1.
Proof.
  revert t. apply Forall_forall. by apply (bool_decide_unpack _).
Qed.

Lemma sheet_id_Matches c s s' caps :
  ignoreCase c = false →
  Matches c (source sheet_id) s ∅ s' caps →
  ∃ sheet, s = "/d/" +:+ sheet +:+ s' ∧ sheet_name sheet ∧ caps = {[1 := sheet]}.
Proof.
  intros Hc (s1 & caps1 & HM1 & HM2)%Matches_Seq_inv.
  apply (Matches_Lit_exact c _ _ _ _ _ Hc) in HM1 as (-> & ->).
  apply Matches_Group_inv in HM2 as (caps2 & HM2 & ->).
  apply Matches_Seq_inv in HM2 as (s2 & caps3 & HM2 & HM3).
  apply Matches_Class_inv in HM2 as (-> & t & Hin & ->).
  apply Matches_Star_Class_inv in HM3 as (-> & w & -> & Hw).
  exists (t +:+ w). rewrite <- (string_app_assoc t w s'), consumed_app.
  split; [done|]. split; [|done]. split; [|by constructor].
  destruct t; [by destruct id_chars_nonempty|done].
Qed.

Lemma sheet_id_Matches_intro c sheet s' :
  sheet_name sheet →
  Matches c (source sheet_id) ("/d/" +:+ sheet +:+ s') ∅ s' {[1 := sheet]}.
Proof.
  intros [Hne Hm].
  destruct (made_of_nonempty id_chars sheet Hne Hm id_chars_nonempty)
    as (t & w & Hin & -> & Hw).
  eapply Matches_Seq; [by apply Matches_Lit_intro|].
  rewrite <- (consumed_app (t +:+ w) s') at 2.
  apply Matches_Group. rewrite string_app_assoc. eapply Matches_Seq.
  - eapply Matches_Class; [exact Hin|]. by apply strip_prefix_Some.
  - by apply Matches_Star_Class_intro; [apply id_chars_nonempty|].
Qed.

(** X11. [buildCsvUrl] yields an export address exactly for the addresses
    that name a sheet, and then it is the export address of a sheet the
    address names; every other address fails with the "Invalid Google Sheets
    URL format" error. *)
Theorem buildCsvUrl_spec (shareUrl : string) :
  match buildCsvUrl shareUrl with
  | inr csvUrl => ∃ sheet, names_sheet shareUrl sheet ∧ csvUrl = export_url sheet
  | inl e => e = invalid_sheet_url ∧ ∀ sheet, ¬ names_sheet shareUrl sheet
  end.
Proof.
  unfold buildCsvUrl. destruct (exec sheet_id shareUrl) as [mr|] eqn:E.
  - apply exec_Some in E as (pre & s0 & s' & -> & HM & _).
    apply sheet_id_Matches in HM as (sheet & -> & Hsheet & ->); [|done].
    rewrite lookup_singleton_eq. rewrite truthy_Some by apply Hsheet.
    exists sheet. split; [|done]. by exists pre, s'.
  - split; [done|]. intros sheet (pre & rest & -> & Hsheet).
    destruct (exec_is_Some sheet_id (pre +:+ "/d/" +:+ sheet +:+ rest) pre
                ("/d/" +:+ sheet +:+ rest) rest {[1 := sheet]}) as [mr Hmr];
      [done|by apply sheet_id_Matches_intro|congruence].
Qed.

(** X12. The address of a sheet is read off a sharing address at the first
    place where "/d/" is followed by a character of a name, and up to the
    first character that cannot be part of a name: the result is the export
    address of the whole name found there. *)
Theorem buildCsvUrl_sharing_url (pre sheet rest : string) :
  test sheet_id (pre +:+ "/d/") = false →
  sheet_name sheet →
  Forall (λ t, strip_prefix t rest = None) id_chars →
  buildCsvUrl (pre +:+ "/d/" +:+ sheet +:+ rest) = inr (export_url sheet).
Proof.
  intros Hpre [Hne Hm] Hrest.
  destruct (made_of_nonempty id_chars sheet Hne Hm id_chars_nonempty)
    as (t & w & Hin & -> & Hw).
  assert (Hexec : ∃ mr, exec sheet_id (pre +:+ "/d/" +:+ (t +:+ w) +:+ rest) = Some mr
                        ∧ groups mr = {[1 := t +:+ w]}).
  { unfold exec. rewrite search_skip.
    - set (c := {| ignoreCase := _; inputLength := _ |}).
      set (i := 0 + String.length pre).
      assert (Hat : match_at c (source sheet_id) i ("/d/" +:+ (t +:+ w) +:+ rest)
                    = Some {| index := i;
                              matched := consumed ("/d/" +:+ (t +:+ w) +:+ rest) rest;
                              groups := {[1 := t +:+ w]} |}).
      { unfold match_at. cbn [source sheet_id Plus].
        rewrite m_Seq_eq, m_Lit_eq, (strip_lit_app c "/d/" "/d/") by done.
        rewrite m_Group_eq. unfold Plus. rewrite m_Seq_eq, (string_app_assoc t w rest).
        erewrite (m_Class_first c id_chars t (w +:+ rest));
          [reflexivity|apply id_chars_single|done|].
        rewrite m_Star_eq. erewrite iterate_class_greedy;
          [reflexivity|apply id_chars_single|done| |done|done].
        cbv beta. rewrite <- (string_app_assoc t w rest), consumed_app. reflexivity. }
      exists {| index := i; matched := consumed ("/d/" +:+ (t +:+ w) +:+ rest) rest;
                groups := {[1 := t +:+ w]} |}.
      split; [|done].
      destruct ("/d/" +:+ (t +:+ w) +:+ rest); cbn [search]; by rewrite Hat.
    - intros p q -> Hq.
      destruct (match_at _ _ _ _) as [mr|] eqn:E; [|done]. exfalso.
      apply match_at_Some in E as (s' & HM & _).
      apply sheet_id_Matches in HM as (sheet & Heq & [Hs Hsm] & _); [|done].
      destruct (made_of_nonempty id_chars sheet Hs Hsm id_chars_nonempty)
        as (t' & w' & Hin' & -> & _).
      pose proof (id_chars_single t' Hin') as H1.
      destruct (app_prefix_split (q +:+ "/d/") ((t +:+ w) +:+ rest) ("/d/" +:+ t')
                  (w' +:+ s')) as [z Hz].
      { rewrite !string_app_assoc in *. exact Heq. }
      { rewrite !string_length_app, H1. destruct q; [done|simpl; lia]. }
      apply (bool_decide_eq_false_1 _) in Hpre. apply Hpre.
      eapply (exec_is_Some sheet_id _ p ("/d/" +:+ t' +:+ z) z).
      + rewrite (string_app_assoc p q), Hz. by rewrite !string_app_assoc.
      + apply sheet_id_Matches_intro. split.
        * destruct t'; [discriminate H1|done].
        * rewrite <- (string_app_nil_r t'). constructor; [done|constructor]. }
  destruct Hexec as (mr & Hexec & Hgroups).
  unfold buildCsvUrl. rewrite Hexec, Hgroups, lookup_singleton_eq.
  by rewrite truthy_Some.
Qed.

Lemma buildCsvUrl_sharing_url_witness :
  buildCsvUrl "https://docs.google.com/spreadsheets/d/1aB-c_9/edit#gid=0"
  = inr (export_url "1aB-c_9").
Proof.
  apply (buildCsvUrl_sharing_url "https://docs.google.com/spreadsheets" "1aB-c_9" "/edit#gid=0").
  - reflexivity.
  - split; [done|].
    apply (made_of_cons id_chars "1"); [by apply (bool_decide_unpack _)|].
    apply (made_of_cons id_chars "a"); [by apply (bool_decide_unpack _)|].
    apply (made_of_cons id_chars "B"); [by apply (bool_decide_unpack _)|].
    apply (made_of_cons id_chars "-"); [by apply (bool_decide_unpack _)|].
    apply (made_of_cons id_chars "c"); [by apply (bool_decide_unpack _)|].
    apply (made_of_cons id_chars "_"); [by apply (bool_decide_unpack _)|].
    apply (made_of_cons id_chars "9"); [by apply (bool_decide_unpack _)|].
    apply made_of_nil.
  - by apply (bool_decide_unpack _).
Defined.

(** ** handleGeneration: what a run leaves behind *)

Lemma generation_not_acquired env e : acquire env = inl e → generation env = inl e.
Proof. intros Hacq. unfold generation. by rewrite Hacq. Qed.

Lemma valid_nonempty_rows rows :
  valid (validateCslItems (items_of rows)) ≠ [] → rows ≠ [].
Proof. intros Hv ->. by apply Hv. Qed.

(** X13. A run that gets past the two guards always stores a result and
    stops loading. In the result the success flag, a non-empty list of
    citations and a status of kind success go together, as do their
    opposites with a status of kind error; and rows are missing from the
    result only when the run ended on a thrown error, which is then the only
    error listed and the text of the status. *)
Theorem handleGeneration_ran (env : Env) (st : AppState) :
  ¬ (gsheetUrl env = "" ∧ csvFile env = None) →
  librariesLoaded env = true →
  ∃ res, result (handleGeneration env st) = Some res
    ∧ isLoading (handleGeneration env st) = false
    ∧ (success res = true ↔ citations res ≠ [])
    ∧ (success res = true ↔ (status (handleGeneration env st)).2 = success_)
    ∧ (success res = false ↔ (status (handleGeneration env st)).2 = error)
    ∧ (csvData res = [] →
         citations res = [] ∧ warnings res = []
         ∧ ∃ message, errors res = [message]
             ∧ status (handleGeneration env st) = ("Error: " +:+ message, error)).
Proof.
  intros Hsrc Hlib. unfold handleGeneration. rewrite Hlib.
  destruct (bool_decide (gsheetUrl env = "") && bool_decide (csvFile env = None)) eqn:E.
  { apply andb_true_iff in E as [E1%bool_decide_eq_true E2%bool_decide_eq_true]. tauto. }
  cbn [negb]. destruct (generation env) as [e|[res st']] eqn:Hgen.
  - eexists. cbn. repeat split; try done. eauto.
  - destruct (acquire env) as [e|[[rows cslStyle] enLocale]] eqn:Hacq.
    { by rewrite (generation_not_acquired env e Hacq) in Hgen. }
    rewrite (generation_acquired env _ _ _ Hacq) in Hgen. cbn zeta in Hgen.
    case_decide as Hvalid; [done|]. injection Hgen as <- <-.
    exists {| success := bool_decide (0 < length
                 (generateCitations env (valid (validateCslItems (items_of rows)))
                    cslStyle enLocale).1);
              citations := (generateCitations env (valid (validateCslItems (items_of rows)))
                              cslStyle enLocale).1;
              errors := verrors (validateCslItems (items_of rows))
                        ++ (generateCitations env (valid (validateCslItems (items_of rows)))
                              cslStyle enLocale).2;
              warnings := skipped_warnings (items_of rows)
                            (valid (validateCslItems (items_of rows)));
              csvData := imap (λ index row,
                                 augment_row (items_of rows)
                                   (valid (validateCslItems (items_of rows)))
                                   (generateCitations env
                                      (valid (validateCslItems (items_of rows)))
                                      cslStyle enLocale).1 row index) rows |}.
    cbn [result isLoading status success citations errors warnings csvData].
    split; [done|]. split; [done|].
    assert (Hrows : rows ≠ []).
    { apply valid_nonempty_rows. intros Hv. by rewrite Hv in Hvalid. }
    destruct (generateCitations _ _ _ _).1 as [|c cs]; cbn [length].
    + rewrite bool_decide_eq_false_2, decide_False by lia. cbn [snd].
      split; [split; [done|congruence]|]. split; [split; done|]. split; [split; done|].
      by destruct rows.
    + rewrite bool_decide_eq_true_2, decide_True by lia. cbn [snd].
      split; [split; done|]. split; [split; done|]. split; [split; done|].
      by destruct rows.
Qed.

Lemma handleGeneration_ran_witness :
  ∃ res, result (handleGeneration (sample_env [row_book] (mret (Some ["Walden."])))
                   initial_state) = Some res
    ∧ success res = true ∧ citations res = ["Walden."].
Proof.
  destruct (handleGeneration_ran (sample_env [row_book] (mret (Some ["Walden."])))
              initial_state) as (res & Hres & _ & _ & _ & _ & _).
  - intros [_ Hfile]. discriminate Hfile.
  - reflexivity.
  - exists res. split; [exact Hres|].
    vm_compute in Hres. injection Hres as <-. split; reflexivity.
Defined.

(** X14. When the engine fails as a whole after validation has accepted
    some item, the run still stores every row: the result has no citation
    and is not a success, the engine's error follows the validation errors,
    the status is the "Failed to generate any citations" error, and each row
    comes back with the skipped text when its item was rejected and with
    "Error: Could not generate citation." when it was accepted. *)
Theorem engine_failure_keeps_rows (env : Env) (st : AppState) (rows : list CsvRow)
    (cslStyle enLocale message : string) :
  librariesLoaded env = true →
  acquire env = inr (rows, cslStyle, enLocale) →
  valid (validateCslItems (items_of rows)) ≠ [] →
  generateCitations env (valid (validateCslItems (items_of rows))) cslStyle enLocale
    = ([], [message]) →
  ∃ res, result (handleGeneration env st) = Some res
    ∧ success res = false
    ∧ citations res = []
    ∧ errors res = verrors (validateCslItems (items_of rows)) ++ [message]
    ∧ status (handleGeneration env st)
      = ("Failed to generate any citations. Check debug information for details.", error)
    ∧ length (csvData res) = length rows
    ∧ ∀ i row, rows !! i = Some row →
        csvData res !! i
        = Some (<[citation_column :=
                    if decide (invalid (createCslItem row i))
                    then skipped_sentinel else citation_fallback]> row).
Proof.
  intros Hlib Hacq Hvalid Hgen.
  rewrite (handleGeneration_acquired env st _ Hlib Hacq).
  rewrite (generation_acquired env _ _ _ Hacq). cbn zeta.
  rewrite decide_False by (by destruct (valid _)).
  rewrite Hgen. cbn [fst snd length].
  rewrite bool_decide_eq_false_2, decide_False by (simpl; lia).
  cbn [mret throws_ret result status]. eexists. split; [reflexivity|].
  cbn [success citations errors csvData].
  split; [done|]. split; [done|]. split; [done|]. split; [done|].
  split; [by rewrite length_imap|].
  intros i row Hrow. rewrite list_lookup_imap, Hrow. cbn [fmap option_fmap option_map].
  f_equal. case_decide as Hinv.
  - by apply augment_row_rejected.
  - destruct (accepted_position rows i row Hrow Hinv) as [j Hj].
    by rewrite (augment_row_accepted rows [] i row j Hrow Hj).
Qed.

Lemma engine_failure_keeps_rows_witness :
  ∃ res, result (handleGeneration (sample_env [row_book; row_empty] (mret None))
                   initial_state) = Some res
    ∧ success res = false
    ∧ csvData res !! 0 = Some (<[citation_column := citation_fallback]> row_book)
    ∧ csvData res !! 1 = Some (<[citation_column := skipped_sentinel]> row_empty).
Proof.
  destruct (engine_failure_keeps_rows (sample_env [row_book; row_empty] (mret None))
              initial_state [row_book; row_empty] "<style></style>" "<style></style>"
              ("Citation generation failed: Error: Failed to generate bibliography: "
               +:+ "Error: Bibliography generation returned empty result"))
    as (res & Hres & Hs & _ & _ & _ & _ & Hrows).
  - reflexivity.
  - vm_compute. reflexivity.
  - vm_compute. discriminate.
  - vm_compute. reflexivity.
  - exists res. split; [exact Hres|]. split; [exact Hs|]. split.
    + rewrite (Hrows 0 row_book eq_refl).
      by rewrite decide_False by (apply (bool_decide_unpack _); vm_compute; exact I).
    + rewrite (Hrows 1 row_empty eq_refl).
      by rewrite decide_True by (apply (bool_decide_unpack _); vm_compute; exact I).
Defined.

(** ** The data source: the address wins over the file *)

Lemma acquire_with_csvFile env file :
  gsheetUrl env ≠ "" → acquire (with_csvFile env file) = acquire env.
Proof.
  intros Hurl. unfold acquire. cbn [gsheetUrl with_csvFile].
  by rewrite bool_decide_eq_false_2.
Qed.

(** X15. When a sheet address is given, the file picked is never read: the
    run is the same whatever the file is, even a file that cannot be read
    or no file at all. *)
Theorem sheet_url_takes_precedence (env : Env) (file : option (throws string))
    (st : AppState) :
  gsheetUrl env ≠ "" →
  handleGeneration (with_csvFile env file) st = handleGeneration env st.
Proof.
  intros Hurl. unfold handleGeneration, generation.
  rewrite (acquire_with_csvFile env file Hurl).
  cbn [gsheetUrl librariesLoaded with_csvFile].
  by rewrite !(bool_decide_eq_false_2 (gsheetUrl env = "")).
Qed.

Lemma sheet_url_takes_precedence_witness :
  handleGeneration
    (with_csvFile (sheet_env [row_book] (mret (Some ["Walden."])))
       (Some (throw (Error "The file could not be read"))))
    initial_state
  = handleGeneration (sheet_env [row_book] (mret (Some ["Walden."]))) initial_state.
Proof.
  apply (sheet_url_takes_precedence (sheet_env [row_book] (mret (Some ["Walden."])))
           (Some (throw (Error "The file could not be read"))) initial_state).
  discriminate.
Defined.

(** ** parseAuthors: no entry with an empty name *)

Lemma string_rev_app_app a b acc :
  String.rev_app (a +:+ b) acc = String.rev_app b (String.rev_app a acc).
Proof.
  revert acc. induction a as [|x a IH]; intros acc; [done|].
  rewrite string_app_cons. simpl. apply IH.
Qed.

Lemma trim_no_trailing_space x init : trim x ≠ init +:+ " ".
Proof.
  intros Heq. pose proof (trimEnd_done (trimStart x)) as Hdone.
  fold (trim x) in Hdone. rewrite Heq in Hdone.
  unfold String.rev in Hdone. rewrite string_rev_app_app in Hdone.
  vm_compute in Hdone. discriminate Hdone.
Qed.

Lemma entry_of_names_present y :
  trim y ≠ "" → Forall names_present (entry_of (trim y)).
Proof.
  intros Hne. unfold entry_of.
  destruct (cut_first "," (trim y)) as [[a rest]|] eqn:Ec.
  - case_decide as Hab; [|constructor]. by constructor.
  - destruct (cut_first " " (trim y)) as [[first r1]|] eqn:E1;
      [|by repeat constructor].
    destruct (cut_last " " (trim y)) as [[init lst]|] eqn:E2;
      [|by repeat constructor].
    case_decide as Hlen; [|by repeat constructor].
    apply cut_last_Some in E2 as [E2 _].
    constructor; [|constructor]. split.
    + intros ->. by apply (trim_no_trailing_space y init).
    + intros ->. rewrite E2 in E1. rewrite string_app_nil_l in E1. cbn in E1.
      injection E1 as <- _. simpl in Hlen. lia.
Qed.

(** X16. [parseAuthors] never yields an entry with an empty name: the family
    and the given name of an entry, or its literal name, are never the empty
    text, whatever the cell holds. *)
Theorem parseAuthors_names_present (authorCell : value) :
  Forall names_present (parseAuthors authorCell).
Proof.
  destruct authorCell as [| | | |cell|]; try by constructor.
  unfold parseAuthors. case_decide; [by constructor|]. case_decide; [by constructor|].
  rewrite foldl_push_author, app_nil_l. apply Forall_bind, Forall_forall.
  intros x [Hx Hin]%list_elem_of_filter.
  assert (Htrim : ∃ y, x = trim y).
  { destruct (includes (trim cell) ";");
      [apply list_elem_of_fmap in Hin as (y & -> & _); eauto|].
    destruct (includes (trim cell) " & ");
      [apply list_elem_of_fmap in Hin as (y & -> & _); eauto|].
    destruct (includes (trim cell) " and ");
      [apply list_elem_of_fmap in Hin as (y & -> & _); eauto|].
    apply list_elem_of_singleton in Hin. eauto. }
  destruct Htrim as [y ->]. by apply entry_of_names_present.
Qed.

(** ** mapSourceType: the types it yields *)

Lemma mapping_lookup key t :
  mapping !! key = Some t ↔
  (key, t) ∈ [ ("journal article", "article-journal"); ("journal", "article-journal");
               ("article", "article-journal"); ("news article", "article-newspaper");
               ("newspaper", "article-newspaper"); ("magazine", "article-magazine");
               ("book", "book"); ("book chapter", "chapter"); ("chapter", "chapter");
               ("conference paper", "paper-conference"); ("conference", "paper-conference");
               ("thesis", "thesis"); ("dissertation", "thesis"); ("report", "report");
               ("webpage", "webpage"); ("website", "webpage");
               ("blog post", "post-weblog"); ("blog", "post-weblog");
               ("review", "review") ].
Proof.
  unfold mapping. symmetry. apply elem_of_list_to_map.
  by apply (bool_decide_unpack _).
Qed.

(** X17. The items checked for a journal name are exactly those whose source
    type is missing, not a text, empty, or one of "journal article",
    "journal" and "article" up to case and surrounding white space: these,
    and no others, are given the type article-journal. *)
Theorem mapSourceType_journal_iff (rawType : value) :
  mapSourceType rawType = VStr "article-journal" ↔
  match rawType with
  | VStr raw => raw = "" ∨ normal_form raw ∈ journal_names
  | _ => True
  end.
Proof.
  pose proof (mapSourceType_spec rawType) as Hspec.
  destruct rawType as [| | | |raw|]; try (split; [done|by intros _]).
  case_decide as Hraw; [split; [by left|done]|].
  destruct (mapping !! normal_form raw) as [t|] eqn:Ht.
  - rewrite Hspec. apply mapping_lookup in Ht. split.
    + intros [= ->]. right. unfold journal_names.
      repeat (apply elem_of_cons in Ht as [[= Hk]|Ht]; try discriminate);
        try (rewrite Hk; by apply (bool_decide_unpack _)).
      by apply elem_of_nil in Ht.
    + intros [?|Hin]; [done|]. f_equal. unfold journal_names in Hin.
      repeat (apply elem_of_cons in Hin as [Hk|Hin]);
        [rewrite Hk in Ht..|by apply elem_of_nil in Hin];
        apply mapping_lookup in Ht; vm_compute in Ht; congruence.
  - assert (Hnot : normal_form raw ∉ journal_names).
    { unfold journal_names. intros Hin.
      repeat (apply elem_of_cons in Hin as [Hk|Hin]);
        [rewrite Hk in Ht..|by apply elem_of_nil in Hin]; vm_compute in Ht; discriminate Ht. }
    repeat case_decide; rewrite Hspec; split; (try done); intros [?|?]; done.
Qed.

(** X18. Apart from the two names inherited from [Object.prototype], every
    source type is given one of the eleven CSL types of the table, as a
    text: a name the table does not know becomes webpage. *)
Theorem mapSourceType_range (rawType : value) :
  (∀ raw, rawType = VStr raw →
     normal_form raw ≠ "constructor" ∧ normal_form raw ≠ "__proto__") →
  ∃ t, mapSourceType rawType = VStr t ∧ t ∈ csl_types.
Proof.
  intros Hown. pose proof (mapSourceType_spec rawType) as Hspec.
  destruct rawType as [| | | |raw|];
    try (exists "article-journal"; split; [done|by apply (bool_decide_unpack _)]).
  destruct (Hown raw eq_refl) as [Hc Hp].
  case_decide; [exists "article-journal"; split; [done|by apply (bool_decide_unpack _)]|].
  destruct (mapping !! normal_form raw) as [t|] eqn:Ht.
  - exists t. split; [done|]. apply mapping_lookup in Ht. unfold csl_types.
    repeat (apply elem_of_cons in Ht as [[= _ ->]|Ht];
            [by apply (bool_decide_unpack _)|]).
    by apply elem_of_nil in Ht.
  - rewrite !decide_False in Hspec by done.
    exists "webpage". split; [done|by apply (bool_decide_unpack _)].
Qed.

Lemma mapSourceType_range_witness :
  ∃ t, mapSourceType (VStr " Blog Post ") = VStr t ∧ t ∈ csl_types.
Proof.
  apply (mapSourceType_range (VStr " Blog Post ")).
  intros raw [= <-]. split; vm_compute; discriminate.
Defined.

(** ** createCslItem: the DOI and the URL of an item *)

Lemma from_url_column_http row u :
  from_url_column row = Some u → startsWith u "http" = true.
Proof.
  unfold from_url_column. destruct (url_column row) as [u'|]; [|done].
  destruct (startsWith u' "http") eqn:E; [|done]. by intros [= <-].
Qed.

(** X19. An item never carries a link that is not an address, nor a link
    beside a DOI: the URL of an item, when there is one, starts with "http",
    and an item with a non-empty DOI has no URL. *)
Theorem item_link_invariant (row : CsvRow) (index : nat) :
  (∀ u, URL (createCslItem row index) = Some u → startsWith u "http" = true)
  ∧ (truthy (DOI (createCslItem row index)) = true → URL (createCslItem row index) = None).
Proof.
  pose proof (identifier_fields row index) as Hid. cbn zeta in Hid.
  destruct (identifier row) as [v|].
  - destruct (startsWith v "http") eqn:Hhttp.
    + destruct (includes v "doi.org/").
      * destruct Hid as [HD HU]. rewrite HD, HU. case_decide as Hs.
        -- split; [apply from_url_column_http|]. rewrite Hs. discriminate.
        -- split; done.
      * destruct Hid as [HD HU]. rewrite HD, HU. split; [by intros u [= <-]|discriminate].
    + destruct (startsWith v "10."); destruct Hid as [HD HU]; rewrite HD, HU.
      * split; done.
      * split; [apply from_url_column_http|discriminate].
  - destruct Hid as [HD HU]. rewrite HD, HU.
    split; [apply from_url_column_http|discriminate].
Qed.

(** ** What the engine is given: identifiers that lead back to the items *)

Lemma items_of_id_inj rows x y :
  x ∈ items_of rows → y ∈ items_of rows → id x = id y → x = y.
Proof.
  intros [i Hi]%list_elem_of_lookup [j Hj]%list_elem_of_lookup Hid.
  assert (i = j) as -> by (by eapply items_of_id_unique). congruence.
Qed.

(** X20. The identifiers handed to the engine in a run are pairwise
    distinct, and the retrieval callback of the engine, asked for the
    identifier of an accepted item, returns that very item, never another
    one and never nothing. *)
Theorem engine_items_retrievable (rows : list CsvRow) (x : CslItem) :
  x ∈ valid (validateCslItems (items_of rows)) →
  NoDup (id <$> valid (validateCslItems (items_of rows)))
  ∧ find (λ item, id item = id x) (valid (validateCslItems (items_of rows))) = Some x.
Proof.
  intros Hx. split.
  - apply NoDup_fmap_2_strong; [|apply valid_items_NoDup].
    intros a b [Ha _]%valid_items_of_elem [Hb _]%valid_items_of_elem.
    by apply (items_of_id_inj rows).
  - unfold find.
    destruct (list_find _ (valid (validateCslItems (items_of rows)))) as [[k y]|] eqn:E;
      simpl.
    + apply list_find_Some in E as (Hk & Hid & _). f_equal.
      apply (items_of_id_inj rows); [|by apply valid_items_of_elem in Hx as [? _]|done].
      assert (Hy : y ∈ valid (validateCslItems (items_of rows)))
        by (apply list_elem_of_lookup; eauto).
      by apply valid_items_of_elem in Hy as [? _].
    + apply list_find_None in E. rewrite Forall_forall in E. by destruct (E x Hx).
Qed.

Lemma engine_items_retrievable_witness :
  find (λ item, id item = "item_1")
    (valid (validateCslItems (items_of [row_book; row_empty])))
  = Some (createCslItem row_book 0).
Proof.
  destruct (engine_items_retrievable [row_book; row_empty] (createCslItem row_book 0))
    as [_ Hfind]; [|exact Hfind].
  apply list_elem_of_lookup. exists 0. vm_compute. reflexivity.
Defined.
